(** * The keyframe editor of pages/Animate.tsx

    The repository holds four revisions of the editor component:
    [src/pages/Animate.tsx], the file [part_000], and the two files stored
    one after the other in [part_001].  They share the state, the playback
    loop and the shape of the exported document, and differ in the guards
    around a missing keyframe and in what the exporter does before and
    around [yaml.dump].  Each revision is embedded in a module of its own,
    function by function, over one common model of the JavaScript values
    the component handles; [addKeyFrame] and [updateCurrentFrame] are
    embedded a second time over a store of objects, where sharing between
    keyframes is visible. *)

From Stdlib Require Import ZArith QArith Qround Lia.
From stdpp Require Import base option list gmap strings.

Local Open Scope Z_scope.

(** ** JavaScript values *)

(** A [number] of the angle and interval fields.  A finite double is
    represented by the rational it denotes; [Math.floor] and [Math.max],
    the only arithmetic applied to these fields, are exact on doubles. *)
Inductive number :=
  | NaN
  | PosInfinity
  | NegInfinity
  | Finite (q : Q).

Definition num (z : Z) : number := Finite (inject_Z z).

(** [Math.floor(n)] *)
Definition Math_floor (n : number) : number :=
  match n with
  | Finite q => Finite (inject_Z (Qfloor q))
  | _ => n
  end.

(** [Math.max(a, b)] *)
Definition Math_max (a b : number) : number :=
  match a, b with
  | NaN, _ | _, NaN => NaN
  | PosInfinity, _ | _, PosInfinity => PosInfinity
  | NegInfinity, n | n, NegInfinity => n
  | Finite p, Finite q => if Qle_bool p q then Finite q else Finite p
  end.

(** The numbers held by [currentFrame] and [frameIndex].  Their sources are
    the literal [0], [frames.length], a slider position (step 1) and the
    remainder [(frameIndex + 1) % frames.length], so they are integers, or
    [NaN] when the divisor is [0]. *)
Inductive index :=
  | Int (z : Z)
  | NotANumber.

#[global] Instance index_eq_dec : EqDecision index.
Proof. solve_decision. Defined.

#[global] Instance index_countable : Countable index.
Proof.
  refine (inj_countable'
            (λ i, match i with Int z => Some z | NotANumber => None end)
            (λ o, match o with Some z => Int z | None => NotANumber end) _).
  by intros [].
Defined.

(** [(frameIndex + 1) % length]: the remainder takes the sign of the
    dividend, and a zero divisor yields [NaN]. *)
Definition succ_rem (frameIndex : index) (length : nat) : index :=
  match frameIndex with
  | Int z => if decide (length = 0%nat) then NotANumber
             else Int (Z.rem (z + 1) (Z.of_nat length))
  | NotANumber => NotANumber
  end.

Inductive exn :=
  | TypeError
  | YAMLException.

(** How a call ends: with a value, or with a thrown exception. *)
Inductive outcome (A : Type) :=
  | Returns (a : A)
  | Throws (e : exn).
Arguments Returns {A} a.
Arguments Throws {A} e.

#[global] Instance outcome_ret : MRet outcome := @Returns.
#[global] Instance outcome_bind : MBind outcome := λ A B k o,
  match o with
  | Returns a => k a
  | Throws e => Throws e
  end.

(** ** Keyframes *)

Module Joint.
Inductive t := head | left_arm | right_arm | left_leg | right_leg.
Definition all : list t := [head; left_arm; right_arm; left_leg; right_leg].
End Joint.

Module Axis.
Inductive t := x | y | z.
Definition all : list t := [x; y; z].
End Axis.

#[global] Instance joint_eq_dec : EqDecision Joint.t.
Proof. solve_decision. Defined.

#[global] Instance joint_countable : Countable Joint.t.
Proof.
  refine (inj_countable'
            (λ j, match j with
                  | Joint.head => 0 | Joint.left_arm => 1 | Joint.right_arm => 2
                  | Joint.left_leg => 3 | Joint.right_leg => 4
                  end%nat)
            (λ n, match n with
                  | 0 => Joint.head | 1 => Joint.left_arm | 2 => Joint.right_arm
                  | 3 => Joint.left_leg | _ => Joint.right_leg
                  end%nat) _).
  by intros [].
Defined.

#[global] Instance axis_eq_dec : EqDecision Axis.t.
Proof. solve_decision. Defined.

#[global] Instance axis_countable : Countable Axis.t.
Proof.
  refine (inj_countable'
            (λ a, match a with Axis.x => 0 | Axis.y => 1 | Axis.z => 2 end%nat)
            (λ n, match n with 0 => Axis.x | 1 => Axis.y | _ => Axis.z end%nat) _).
  by intros [].
Defined.

(** The objects [{ x, y, z }] and [{ head, left_arm, ... }] are read and
    rebuilt through computed keys ([[part]], [[axis]]) and object spread, so
    they are kept as finite maps from property name to value.  A property
    that is absent reads as [undefined]. *)
Abbreviation Angles := (gmap Axis.t number).
Abbreviation KeyFrame := (gmap Joint.t Angles).

(** The [interface KeyFrame]: all five joints, each with its three axes. *)
Definition is_Angles (a : Angles) : Prop := ∀ ax, is_Some (a !! ax).
Definition is_KeyFrame (f : KeyFrame) : Prop :=
  ∀ j, ∃ a, f !! j = Some a ∧ is_Angles a.

Definition zero_angles : Angles :=
  {[ Axis.x := num 0; Axis.y := num 0; Axis.z := num 0 ]}.

Definition defaultFrame : KeyFrame :=
  {[ Joint.head := zero_angles; Joint.left_arm := zero_angles;
     Joint.right_arm := zero_angles; Joint.left_leg := zero_angles;
     Joint.right_leg := zero_angles ]}.

(** [{ ...o }] for [o] an object or [undefined]. *)
Definition spread {K} `{Countable K} {V} (o : option (gmap K V)) : gmap K V :=
  default ∅ o.

(** [frame[part][axis]], the angle read back from a keyframe. *)
Definition angle (f : KeyFrame) (part : Joint.t) (axis : Axis.t) : option number :=
  a ← f !! part; a !! axis.

(** ** Arrays of keyframes *)

(** An array element is an object, the value [undefined], or a hole (an
    index below [length] that the array does not hold).  [props] are the
    properties an assignment [a[i] = v] creates when [i] is no array index
    (a negative integer or [NaN]); spread, [map] and [length] ignore them.
    Lengths stay far below [2^32 - 1], the bound of array indices. *)
Inductive slot :=
  | Hole
  | Undefined
  | Obj (f : KeyFrame).

Record JSArray := mkArray {
  elems : list slot;
  props : gmap index KeyFrame
}.

Definition array_of (l : list KeyFrame) : JSArray := mkArray (Obj <$> l) ∅.

Definition slot_value (s : slot) : option KeyFrame :=
  match s with
  | Obj f => Some f
  | _ => None
  end.

(** [a[i]]: [None] stands for [undefined]. *)
Definition get (a : JSArray) (i : index) : option KeyFrame :=
  match i with
  | Int z => if decide (0 ≤ z) then s ← elems a !! Z.to_nat z; slot_value s
             else props a !! i
  | NotANumber => props a !! i
  end.

(** [a[i] = f], for [i] an array index (an integer from 0 below
    [2^32 - 1]), a negative integer or [NaN].  At an integer from
    [2^32 - 1] on the language creates a plain property and leaves
    [length] as it is: the arrays of the program are far shorter, and a
    statement about an index beyond the end bounds it by [array_index]. *)
Definition set (a : JSArray) (i : index) (f : KeyFrame) : JSArray :=
  match i with
  | Int z =>
      if decide (0 ≤ z) then
        let n := Z.to_nat z in
        if decide (n < length (elems a))%nat
        then mkArray (<[n := Obj f]> (elems a)) (props a)
        else mkArray (elems a ++ replicate (n - length (elems a)) Hole ++ [Obj f])
                     (props a)
      else mkArray (elems a) (<[i := f]> (props a))
  | NotANumber => mkArray (elems a) (<[i := f]> (props a))
  end.

(** The elements [...a] contributes to an array literal: the iterator
    yields [undefined] at a hole. *)
Definition iterate (a : JSArray) : list slot :=
  (λ s, match s with Hole => Undefined | _ => s end) <$> elems a.

(** [a.length] *)
Definition length_of (a : JSArray) : nat := length (elems a).

(** [a.map(cb)]: holes are skipped and stay holes; the first exception of
    [cb] ends the call. *)
Fixpoint map_slots (cb : option KeyFrame → outcome KeyFrame) (l : list slot)
  : outcome (list slot) :=
  match l with
  | [] => Returns []
  | Hole :: l' => l'' ← map_slots cb l'; Returns (Hole :: l'')
  | s :: l' => f ← cb (slot_value s); l'' ← map_slots cb l'; Returns (Obj f :: l'')
  end.

Definition map_array (cb : option KeyFrame → outcome KeyFrame) (a : JSArray)
  : outcome JSArray :=
  l ← map_slots cb (elems a); Returns (mkArray l ∅).

(** [v || d] for [v] an object or [undefined]: an object is truthy. *)
Definition or_else {A} (v : option A) (d : A) : A := default d v.

(** ** The component state *)

(** The five [useState] cells of [Animate]. *)
Record State := mkState {
  frames : JSArray;
  currentFrame : index;
  animationName : string;
  interval : number;
  isPlaying : bool
}.

Definition setFrames (v : JSArray) (s : State) : State :=
  mkState v (currentFrame s) (animationName s) (interval s) (isPlaying s).
Definition setCurrentFrame (v : index) (s : State) : State :=
  mkState (frames s) v (animationName s) (interval s) (isPlaying s).
Definition setAnimationName (v : string) (s : State) : State :=
  mkState (frames s) (currentFrame s) v (interval s) (isPlaying s).
Definition setInterval (v : number) (s : State) : State :=
  mkState (frames s) (currentFrame s) (animationName s) v (isPlaying s).
Definition setIsPlaying (v : bool) (s : State) : State :=
  mkState (frames s) (currentFrame s) (animationName s) (interval s) v.

(** The initial values passed to [useState]. *)
Definition initial_state : State :=
  mkState (array_of [defaultFrame]) (Int 0) "wave" (num 10) false.

(** [frames[i][part][axis]] for a position [i] of the sequence *)
Definition read (s : State) (i : nat) (part : Joint.t) (axis : Axis.t) : option number :=
  f ← get (frames s) (Int (Z.of_nat i)); angle f part axis.

(** ** The exported document and its surroundings *)

Module Doc.
(** [{ interval, loop, steps }] *)
Record Animation := mkAnimation {
  interval : number;
  loop : bool;
  steps : JSArray
}.
(** [{ animations: { [animationName]: ... } }] *)
Record t := mk { animations : gmap string Animation }.
End Doc.

(** The options object handed to [yaml.dump]. *)
Record DumpOptions := mkOptions {
  indent : option nat;
  lineWidth : option Z;
  noRefs : option bool;
  quotingType : option string
}.
Definition no_options : DumpOptions := mkOptions None None None None.

(** The imported library [js-yaml]: [dump] returns the text or throws. *)
Class js_yaml := { yaml_dump : Doc.t → DumpOptions → outcome string }.

(** What the page keeps of an export: the files handed to the browser by
    [a.click()] (name and text), and the arguments of [console.error]. *)
Record Page := mkPage {
  downloads : list (string * string);
  console_error : list exn
}.

(** [new Blob([yamlStr])], [a.download = name], [a.click()]; the calls
    into the DOM are taken never to throw. *)
Definition download (name yamlStr : string) (p : Page) : Page :=
  mkPage (downloads p ++ [(name, yamlStr)]) (console_error p).

(** [try { body } catch (error) { console.error(..., error) }] *)
Definition try_catch_log (body : outcome Page) (p : Page) : outcome Page :=
  match body with
  | Returns p' => Returns p'
  | Throws e => Returns (mkPage (downloads p) (console_error p ++ [e]))
  end.

(** ** src/pages/Animate.tsx *)

Module AnimateTsx.

Definition addKeyFrame (s : State) : State :=
  let frames' :=
    mkArray (iterate (frames s) ++ [Obj (spread (get (frames s) (currentFrame s)))]) ∅ in
  setCurrentFrame (Int (Z.of_nat (length_of (frames s)))) (setFrames frames' s).

Definition updateCurrentFrame (part : Joint.t) (axis : Axis.t) (value : number)
    (s : State) : outcome State :=
  let newFrames := mkArray (iterate (frames s)) ∅ in
  match get newFrames (currentFrame s) with
  | None => Throws TypeError
  | Some f =>
      let f' := <[part := <[axis := value]> (spread (f !! part))]> f in
      Returns (setFrames (set newFrames (currentFrame s) f') s)
  end.

(** The object [animation] built by [exportAnimation]. *)
Definition animation (s : State) : Doc.t :=
  Doc.mk {[ animationName s := Doc.mkAnimation (interval s) true (frames s) ]}.

Section export.
Context `{!js_yaml}.

Definition exportAnimation (s : State) (p : Page) : outcome Page :=
  yamlStr ← yaml_dump (animation s) no_options;
  Returns (download (animationName s +:+ ".yml") yamlStr p).
End export.

(** [onChange] of the interval field *)
Definition onIntervalChange (value : number) (s : State) : State :=
  setInterval value s.

Definition currentFrameData (s : State) : KeyFrame :=
  or_else (get (frames s) (currentFrame s)) defaultFrame.

(** The keyframe the returned tree hands to [ArmorStand] and lists with
    [Object.entries]. *)
Definition render (s : State) : outcome KeyFrame :=
  Returns (currentFrameData s).

End AnimateTsx.

(** ** part_000 *)

Module Part000.

Definition addKeyFrame (s : State) : State :=
  let frames' :=
    mkArray (iterate (frames s) ++ [Obj (spread (get (frames s) (currentFrame s)))]) ∅ in
  setCurrentFrame (Int (Z.of_nat (length_of (frames s)))) (setFrames frames' s).

Definition updateCurrentFrame (part : Joint.t) (axis : Axis.t) (value : number)
    (s : State) : outcome State :=
  let newFrames := mkArray (iterate (frames s)) ∅ in
  match get newFrames (currentFrame s) with
  | None => Throws TypeError
  | Some f =>
      let f' := <[part := <[axis := value]> (spread (f !! part))]> f in
      Returns (setFrames (set newFrames (currentFrame s) f') s)
  end.

Definition animation (s : State) : Doc.t :=
  Doc.mk {[ animationName s := Doc.mkAnimation (interval s) true (frames s) ]}.

Section export.
Context `{!js_yaml}.

Definition exportAnimation (s : State) (p : Page) : outcome Page :=
  yamlStr ← yaml_dump (animation s) no_options;
  Returns (download (animationName s +:+ ".yml") yamlStr p).
End export.

Definition onIntervalChange (value : number) (s : State) : State :=
  setInterval value s.

(** [frames[currentFrame]] goes to [ArmorStand] and to [Object.entries]
    as it is; [Object.entries(undefined)] throws. *)
Definition render (s : State) : outcome KeyFrame :=
  match get (frames s) (currentFrame s) with
  | Some f => Returns f
  | None => Throws TypeError
  end.

End Part000.

(** An object literal [{ k1: v1, k2: v2, ... }] whose values are defined.
    A field whose value is [undefined] is left out: it reads as [undefined]
    either way, but the literal of the source holds it as an own property,
    so the result stands for the literal only where every value is defined
    or where reads alone matter. *)
Definition object {K} `{Countable K} {V} (fields : list (K * option V)) : gmap K V :=
  list_to_map (omap (λ kv, (λ v, (kv.1, v)) <$> kv.2) fields).

(** [o.k] for [o] an object or [undefined]. *)
Definition field {K} `{Countable K} {V} (o : option (gmap K V)) (k : K)
  : outcome (option V) :=
  match o with
  | Some m => Returns (m !! k)
  | None => Throws TypeError
  end.

Definition double_quote : string := String (Ascii.ascii_of_nat 34) EmptyString.

(** ** part_001, first file *)

Module Part001a.

Definition addKeyFrame (s : State) : State :=
  let copy := spread (Some (or_else (get (frames s) (currentFrame s)) defaultFrame)) in
  let frames' := mkArray (iterate (frames s) ++ [Obj copy]) ∅ in
  setCurrentFrame (Int (Z.of_nat (length_of (frames s)))) (setFrames frames' s).

Definition updateCurrentFrame (part : Joint.t) (axis : Axis.t) (value : number)
    (s : State) : outcome State :=
  let newFrames := mkArray (iterate (frames s)) ∅ in
  let newFrames :=
    match get newFrames (currentFrame s) with
    | None => set newFrames (currentFrame s) (spread (Some defaultFrame))
    | Some _ => newFrames
    end in
  match get newFrames (currentFrame s) with
  | None => Throws TypeError
  | Some f =>
      let f' := <[part := <[axis := value]> (spread (f !! part))]> f in
      Returns (setFrames (set newFrames (currentFrame s) f') s)
  end.

(** [{ x: frame.part.x, y: frame.part.y, z: frame.part.z }] *)
Definition clean_part (frame : option KeyFrame) (part : Joint.t) : outcome Angles :=
  a ← field frame part;
  vx ← field a Axis.x;
  vy ← field a Axis.y;
  vz ← field a Axis.z;
  Returns (object [(Axis.x, vx); (Axis.y, vy); (Axis.z, vz)]).

(** The callback of [frames.map] *)
Definition clean (frame : option KeyFrame) : outcome KeyFrame :=
  h ← clean_part frame Joint.head;
  la ← clean_part frame Joint.left_arm;
  ra ← clean_part frame Joint.right_arm;
  ll ← clean_part frame Joint.left_leg;
  rl ← clean_part frame Joint.right_leg;
  Returns (object [(Joint.head, Some h); (Joint.left_arm, Some la);
                   (Joint.right_arm, Some ra); (Joint.left_leg, Some ll);
                   (Joint.right_leg, Some rl)]).

Definition options : DumpOptions :=
  mkOptions (Some 2%nat) (Some (-1)) (Some true) (Some double_quote).

(** The object [animation] built inside the [try] block. *)
Definition animation (s : State) : outcome Doc.t :=
  cleanedFrames ← map_array clean (frames s);
  Returns (Doc.mk {[ animationName s :=
    Doc.mkAnimation (Math_max (num 1) (Math_floor (interval s))) true cleanedFrames ]}).

Section export.
Context `{!js_yaml}.

Definition exportAnimation (s : State) (p : Page) : outcome Page :=
  try_catch_log
    (doc ← animation s;
     yamlStr ← yaml_dump doc options;
     Returns (download "animations.yml" yamlStr p))
    p.
End export.

Definition onIntervalChange (value : number) (s : State) : State :=
  setInterval (Math_max (num 1) value) s.

Definition currentFrameData (s : State) : KeyFrame :=
  or_else (get (frames s) (currentFrame s)) defaultFrame.

Definition render (s : State) : outcome KeyFrame :=
  Returns (currentFrameData s).

End Part001a.

(** ** part_001, second file *)

Module Part001b.

Definition addKeyFrame (s : State) : State :=
  let copy := spread (Some (or_else (get (frames s) (currentFrame s)) defaultFrame)) in
  let frames' := mkArray (iterate (frames s) ++ [Obj copy]) ∅ in
  setCurrentFrame (Int (Z.of_nat (length_of (frames s)))) (setFrames frames' s).

Definition updateCurrentFrame (part : Joint.t) (axis : Axis.t) (value : number)
    (s : State) : outcome State :=
  let newFrames := mkArray (iterate (frames s)) ∅ in
  let newFrames :=
    match get newFrames (currentFrame s) with
    | None => set newFrames (currentFrame s) (spread (Some defaultFrame))
    | Some _ => newFrames
    end in
  match get newFrames (currentFrame s) with
  | None => Throws TypeError
  | Some f =>
      let f' := <[part := <[axis := value]> (spread (f !! part))]> f in
      Returns (setFrames (set newFrames (currentFrame s) f') s)
  end.

(** [{ ...frame.part }] *)
Definition clean_part (frame : option KeyFrame) (part : Joint.t) : outcome Angles :=
  a ← field frame part;
  Returns (spread a).

Definition clean (frame : option KeyFrame) : outcome KeyFrame :=
  h ← clean_part frame Joint.head;
  la ← clean_part frame Joint.left_arm;
  ra ← clean_part frame Joint.right_arm;
  ll ← clean_part frame Joint.left_leg;
  rl ← clean_part frame Joint.right_leg;
  Returns (object [(Joint.head, Some h); (Joint.left_arm, Some la);
                   (Joint.right_arm, Some ra); (Joint.left_leg, Some ll);
                   (Joint.right_leg, Some rl)]).

Definition options : DumpOptions :=
  mkOptions (Some 2%nat) (Some (-1)) (Some true) None.

Definition animation (s : State) : outcome Doc.t :=
  cleanedFrames ← map_array clean (frames s);
  Returns (Doc.mk {[ animationName s :=
    Doc.mkAnimation (Math_max (num 1) (Math_floor (interval s))) true cleanedFrames ]}).

Section export.
Context `{!js_yaml}.

Definition exportAnimation (s : State) (p : Page) : outcome Page :=
  try_catch_log
    (doc ← animation s;
     yamlStr ← yaml_dump doc options;
     Returns (download (animationName s +:+ ".yml") yamlStr p))
    p.
End export.

Definition onIntervalChange (value : number) (s : State) : State :=
  setInterval (Math_max (num 1) value) s.

Definition currentFrameData (s : State) : KeyFrame :=
  or_else (get (frames s) (currentFrame s)) defaultFrame.

Definition render (s : State) : outcome KeyFrame :=
  Returns (currentFrameData s).

End Part001b.

(** ** src/components/ArmorStand.tsx *)

Module ArmorStand.

(** The three arguments of [rotation.set] for one part, in degrees, before
    [toRad]; [None] is [undefined], which [toRad] turns into [NaN]. *)
Definition rotation (frame : option KeyFrame) (part : Joint.t)
  : outcome (option number * option number * option number) :=
  a ← field frame part;
  vx ← field a Axis.x;
  vy ← field a Axis.y;
  vz ← field a Axis.z;
  Returns (vx, vy, vz).

(** The [useFrame] callback once the five mesh refs are set. *)
Definition useFrame (frame : option KeyFrame)
  : outcome (list (option number * option number * option number)) :=
  h ← rotation frame Joint.head;
  la ← rotation frame Joint.left_arm;
  ra ← rotation frame Joint.right_arm;
  ll ← rotation frame Joint.left_leg;
  rl ← rotation frame Joint.right_leg;
  Returns [h; la; ra; ll; rl].

End ArmorStand.

(** ** The four revisions side by side *)

Inductive revision := animate_tsx | part_000 | part_001a | part_001b.

Definition addKeyFrame (r : revision) : State → State :=
  match r with
  | animate_tsx => AnimateTsx.addKeyFrame
  | part_000 => Part000.addKeyFrame
  | part_001a => Part001a.addKeyFrame
  | part_001b => Part001b.addKeyFrame
  end.

Definition updateCurrentFrame (r : revision)
  : Joint.t → Axis.t → number → State → outcome State :=
  match r with
  | animate_tsx => AnimateTsx.updateCurrentFrame
  | part_000 => Part000.updateCurrentFrame
  | part_001a => Part001a.updateCurrentFrame
  | part_001b => Part001b.updateCurrentFrame
  end.

Definition exportAnimation `{!js_yaml} (r : revision) : State → Page → outcome Page :=
  match r with
  | animate_tsx => AnimateTsx.exportAnimation
  | part_000 => Part000.exportAnimation
  | part_001a => Part001a.exportAnimation
  | part_001b => Part001b.exportAnimation
  end.

(** The document a revision hands to [yaml.dump]. *)
Definition animation (r : revision) (s : State) : outcome Doc.t :=
  match r with
  | animate_tsx => Returns (AnimateTsx.animation s)
  | part_000 => Returns (Part000.animation s)
  | part_001a => Part001a.animation s
  | part_001b => Part001b.animation s
  end.

Definition onIntervalChange (r : revision) : number → State → State :=
  match r with
  | animate_tsx => AnimateTsx.onIntervalChange
  | part_000 => Part000.onIntervalChange
  | part_001a => Part001a.onIntervalChange
  | part_001b => Part001b.onIntervalChange
  end.

Definition render (r : revision) : State → outcome KeyFrame :=
  match r with
  | animate_tsx => AnimateTsx.render
  | part_000 => Part000.render
  | part_001a => Part001a.render
  | part_001b => Part001b.render
  end.

(** The options and the download name each revision uses. *)
Definition dump_options (r : revision) : DumpOptions :=
  match r with
  | animate_tsx | part_000 => no_options
  | part_001a => Part001a.options
  | part_001b => Part001b.options
  end.

Definition download_name (r : revision) (s : State) : string :=
  match r with
  | part_001a => "animations.yml"
  | _ => animationName s +:+ ".yml"
  end.

(** ** Playback and the event loop *)

(** The variables the callback [animate] closes over: the [let frameIndex]
    of its [playAnimation] call, and the [frames] of the render whose
    handler was clicked. *)
Record Closure := mkClosure {
  frameIndex : index;
  closure_frames : JSArray
}.

(** The mounted component and the page around it.  [scheduled] are the
    callbacks registered with [requestAnimationFrame] and not yet run or
    cancelled, each with its handle; handles count up from 1.  [uncaught]
    are the exceptions that left an event handler. *)
Record World := mkWorld {
  state : State;
  animationRef : option nat;
  scheduled : list (nat * Closure);
  next_handle : nat;
  page : Page;
  uncaught : list exn
}.

Definition initial_world : World :=
  mkWorld initial_state None [] 1 (mkPage [] []) [].

Definition with_state (f : State → State) (w : World) : World :=
  mkWorld (f (state w)) (animationRef w) (scheduled w) (next_handle w)
          (page w) (uncaught w).

(** [animationRef.current = requestAnimationFrame(animate)] *)
Definition requestAnimationFrame (c : Closure) (w : World) : World :=
  mkWorld (state w) (Some (next_handle w))
          (scheduled w ++ [(next_handle w, c)]) (S (next_handle w))
          (page w) (uncaught w).

Definition cancelAnimationFrame (h : nat) (w : World) : World :=
  mkWorld (state w) (animationRef w)
          (filter (λ hc, hc.1 ≠ h) (scheduled w)) (next_handle w)
          (page w) (uncaught w).

(** The body of [animate], run by the browser at a display refresh. *)
Definition animate (c : Closure) (w : World) : World :=
  let frameIndex' := succ_rem (frameIndex c) (length_of (closure_frames c)) in
  requestAnimationFrame (mkClosure frameIndex' (closure_frames c))
    (with_state (setCurrentFrame frameIndex') w).

(** [playAnimation], the same text in the four revisions. *)
Definition playAnimation (w : World) : World :=
  if isPlaying (state w) then
    let w :=
      match animationRef w with
      | Some h => if decide (h = 0%nat) then w else cancelAnimationFrame h w
      | None => w
      end in
    with_state (setIsPlaying false) w
  else
    let w := with_state (setIsPlaying true) w in
    requestAnimationFrame (mkClosure (currentFrame (state w)) (frames (state w))) w.

(** A display refresh: the callbacks scheduled so far run in order; what
    they schedule waits for the next refresh. *)
Definition refresh (w : World) : World :=
  foldl (λ w hc, animate hc.2 w)
        (mkWorld (state w) (animationRef w) [] (next_handle w) (page w) (uncaught w))
        (scheduled w).

Inductive event :=
  | ClickAddKeyframe
  | ChangeAngle (part : Joint.t) (axis : Axis.t) (value : number)
  | ChangeTimeline (i : index)
  | ChangeName (name : string)
  | ChangeInterval (value : number)
  | ClickExport
  | ClickPlay
  | Refresh.

Definition raise (e : exn) (w : World) : World :=
  mkWorld (state w) (animationRef w) (scheduled w) (next_handle w)
          (page w) (uncaught w ++ [e]).

Section step.
Context `{!js_yaml}.
Variable r : revision.

(** One event, handled with the state of the latest render.  A handler
    that throws has set no state. *)
Definition step (w : World) (ev : event) : World :=
  match ev with
  | ClickAddKeyframe => with_state (addKeyFrame r) w
  | ChangeAngle part axis value =>
      match updateCurrentFrame r part axis value (state w) with
      | Returns s => with_state (λ _, s) w
      | Throws e => raise e w
      end
  | ChangeTimeline i => with_state (setCurrentFrame i) w
  | ChangeName name => with_state (setAnimationName name) w
  | ChangeInterval value => with_state (onIntervalChange r value) w
  | ClickExport =>
      match exportAnimation r (state w) (page w) with
      | Returns p =>
          mkWorld (state w) (animationRef w) (scheduled w) (next_handle w)
                  p (uncaught w)
      | Throws e => raise e w
      end
  | ClickPlay => playAnimation w
  | Refresh => refresh w
  end.

Definition run (w : World) (evs : list event) : World := foldl step w evs.

Definition reachable (w : World) : Prop := ∃ evs, w = run initial_world evs.
End step.

(** [n] display refreshes in a row. *)
Definition refreshes (n : nat) (w : World) : World := Nat.iter n refresh w.

(** ** Vocabulary of the specification *)

(** The keyframe written by an update of [f]. *)
Definition updated (f : KeyFrame) (part : Joint.t) (axis : Axis.t) (value : number)
  : KeyFrame :=
  <[part := <[axis := value]> (spread (f !! part))]> f.

(** Every position of the sequence holds a keyframe object. *)
Definition dense (s : State) : Prop :=
  ∀ n : nat, (n < length_of (frames s))%nat → is_Some (get (frames s) (Int (Z.of_nat n))).

(** [updateJoint(poseIndex, joint, axis, value)] of the specification: the
    update of the keyframe at [poseIndex], that is [updateCurrentFrame] once
    [poseIndex] is the active index. *)
Definition updateJoint (r : revision) (poseIndex : nat) (part : Joint.t)
    (axis : Axis.t) (value : number) (s : State) : outcome State :=
  updateCurrentFrame r part axis value (setCurrentFrame (Int (Z.of_nat poseIndex)) s).

Record write := mkWrite {
  w_pose : nat;
  w_part : Joint.t;
  w_axis : Axis.t;
  w_value : number
}.

(** A sequence of [updateJoint] calls, first to last. *)
Fixpoint updateJoints (r : revision) (ws : list write) (s : State) : outcome State :=
  match ws with
  | [] => Returns s
  | w :: ws' =>
      s' ← updateJoint r (w_pose w) (w_part w) (w_axis w) (w_value w) s;
      updateJoints r ws' s'
  end.

(** The value of the last write of [ws] to the entry [(n, part, axis)]. *)
Fixpoint last_written (ws : list write) (n : nat) (part : Joint.t) (axis : Axis.t)
  : option number :=
  match ws with
  | [] => None
  | w :: ws' =>
      match last_written ws' n part axis with
      | Some v => Some v
      | None =>
          if decide ((w_pose w, w_part w, w_axis w) = (n, part, axis))
          then Some (w_value w) else None
      end
  end.


(** Two neutral keyframes, the second one active. *)
Definition two_frames : State :=
  mkState (array_of [defaultFrame; defaultFrame]) (Int 1) "wave" (num 10) false.

(** What holds between the [isPlaying] cell, [animationRef] and the
    callbacks the browser still holds: while playing exactly one callback
    is scheduled, under the handle stored in [animationRef.current], over a
    non-empty sequence; while stopped none is. *)
Definition loop_invariant (w : World) : Prop :=
  next_handle w ≠ 0%nat
  ∧ length_of (frames (state w)) ≠ 0%nat
  ∧ if isPlaying (state w)
    then ∃ h c, scheduled w = [(h, c)] ∧ animationRef w = Some h ∧ h ≠ 0%nat
                ∧ length_of (closure_frames c) ≠ 0%nat
    else scheduled w = [].

(** A stopped editor with [n] keyframes and the active index [i]. *)
Definition stopped_at (w : World) (i : Z) (n : nat) : Prop :=
  isPlaying (state w) = false
  ∧ scheduled w = []
  ∧ currentFrame (state w) = Int i
  ∧ length_of (frames (state w)) = n.

#[global] Instance event_eq_Refresh_dec (ev : event) : Decision (ev = Refresh).
Proof. destruct ev; (by left) || (by right). Defined.

#[global] Instance event_eq_ClickPlay_dec (ev : event) : Decision (ev = ClickPlay).
Proof. destruct ev; (by left) || (by right). Defined.

(** The number of display refreshes among [evs]. *)
Definition advances (evs : list event) : nat :=
  length (filter (λ ev, ev = Refresh) evs).

(** Two stand-ins for the library, used to run examples: a [dump] that
    returns a fixed text and one that throws. *)
Definition yaml_text : js_yaml := {| yaml_dump := λ _ _, Returns "animations: {}" |}.
Definition yaml_failing : js_yaml := {| yaml_dump := λ _ _, Throws YAMLException |}.

(** While the loop runs, its callback carries the index of the last
    advance and the sequence captured at the click, whatever else the
    events do to the state. *)
Definition looping (w : World) (z : Z) (snapshot : JSArray) : Prop :=
  isPlaying (state w) = true
  ∧ ∃ h, scheduled w = [(h, mkClosure (Int z) snapshot)].

(** Sample worlds: a stopped editor with three keyframes, the second one
    active; and the editor of [Animate.tsx] after a keyframe was added,
    play was clicked and one display refresh went by. *)
Definition three_frames_stopped : World :=
  mkWorld (mkState (array_of [defaultFrame; defaultFrame; defaultFrame])
                   (Int 1) "wave" (num 10) false)
          None [] 1 (mkPage [] []) [].

Definition playing_world : World :=
  @run yaml_text animate_tsx initial_world [ClickAddKeyframe; ClickPlay; Refresh].

(** An assumption on the timeline control, which the source does not
    establish: it delivers whole numbers from 0 to [frames.length - 1] only.
    The range input of the first file of [part_001] is given [min={0}] and
    [max={frames.length - 1}]; the other three files hand
    [max={frames.length - 1}] to a [Slider] component that is not part of
    the source, and pass its value to [setCurrentFrame] as it comes.  The
    other events carry any value. *)
Definition from_widgets (w : World) (ev : event) : Prop :=
  match ev with
  | ChangeTimeline i =>
      ∃ z, i = Int z ∧ 0 ≤ z < Z.of_nat (length_of (frames (state w)))
  | _ => True
  end.

Inductive ui_reachable `{!js_yaml} (r : revision) : World → Prop :=
| ui_initial : ui_reachable r initial_world
| ui_event w ev :
    ui_reachable r w → from_widgets w ev → ui_reachable r (step r w ev).

(** The state as its TypeScript types describe it: [frames] is a non-empty
    [KeyFrame[]] without holes, [currentFrame] one of its positions, and a
    running playback loop counts inside the sequence it captured, which is
    no longer than the current one. *)
Definition well_typed (w : World) : Prop :=
  (∃ l, frames (state w) = array_of l ∧ Forall is_KeyFrame l)
  ∧ (∃ z, currentFrame (state w) = Int z
          ∧ 0 ≤ z < Z.of_nat (length_of (frames (state w))))
  ∧ ∀ h c, (h, c) ∈ scheduled w →
      (∃ z, frameIndex c = Int z ∧ 0 ≤ z < Z.of_nat (length_of (closure_frames c)))
      ∧ (length_of (closure_frames c) ≤ length_of (frames (state w)))%nat.

(** ** The keyframe handlers over a store of objects

    Arrays, keyframes and angle triples are objects held by reference:
    [{ ...frame }] copies the five references of a keyframe, not the angle
    objects they point to, and the first element of the initial array is
    the object [defaultFrame] itself.  This second embedding of
    [addKeyFrame] and [updateCurrentFrame] keeps the references, so that
    what the handlers share and what they write can be stated. *)

Module Store.

Abbreviation ref := nat.

Inductive element :=
| EHole
| EUndefined
| ERef (l : ref).

Inductive object :=
| OAngles (a : gmap Axis.t number)
| OFrame (f : gmap Joint.t ref)
| OArray (es : list element) (ps : gmap index ref).

Abbreviation store := (list object).

(** [new]: the object gets the next free reference. *)
Definition alloc (o : object) (h : store) : ref * store := (length h, h ++ [o]).

Definition angles_at (h : store) (l : ref) : gmap Axis.t number :=
  match h !! l with
  | Some (OAngles a) => a
  | _ => ∅
  end.

Definition fields_at (h : store) (l : ref) : gmap Joint.t ref :=
  match h !! l with
  | Some (OFrame f) => f
  | _ => ∅
  end.

Definition elems_at (h : store) (l : ref) : list element :=
  match h !! l with
  | Some (OArray es _) => es
  | _ => []
  end.

Definition props_at (h : store) (l : ref) : gmap index ref :=
  match h !! l with
  | Some (OArray _ ps) => ps
  | _ => ∅
  end.

Definition element_ref (e : element) : option ref :=
  match e with
  | ERef l => Some l
  | _ => None
  end.

(** [arr[i]], a reference or [undefined]. *)
Definition get (h : store) (arr : ref) (i : index) : option ref :=
  match i with
  | Int z => if decide (0 ≤ z) then e ← elems_at h arr !! Z.to_nat z; element_ref e
             else props_at h arr !! i
  | NotANumber => props_at h arr !! i
  end.

(** [arr[i] = l]: the one assignment of the handlers that writes into an
    existing object; as for [set] on values, [i] is an array index, a
    negative integer or [NaN]. *)
Definition set (h : store) (arr : ref) (i : index) (l : ref) : store :=
  match h !! arr with
  | Some (OArray es ps) =>
      let o :=
        match i with
        | Int z =>
            if decide (0 ≤ z) then
              let n := Z.to_nat z in
              if decide (n < length es)%nat
              then OArray (<[n := ERef l]> es) ps
              else OArray (es ++ replicate (n - length es) EHole ++ [ERef l]) ps
            else OArray es (<[i := l]> ps)
        | NotANumber => OArray es (<[i := l]> ps)
        end in
      <[arr := o]> h
  | _ => h
  end.

(** The elements [...arr] yields. *)
Definition iterate (h : store) (arr : ref) : list element :=
  (λ e, match e with EHole => EUndefined | _ => e end) <$> elems_at h arr.

(** [{ ...o }] for [o] a keyframe reference or [undefined]: a new object
    with the same five references. *)
Definition spread_frame (h : store) (o : option ref) : gmap Joint.t ref :=
  match o with
  | Some l => fields_at h l
  | None => ∅
  end.

(** [{ ...o }] for [o] a reference to angles or [undefined]. *)
Definition spread_angles (h : store) (o : option ref) : gmap Axis.t number :=
  match o with
  | Some l => angles_at h l
  | None => ∅
  end.

(** [addKeyFrame] of [Animate.tsx] and [part_000]; the result is the array
    passed to [setFrames]. *)
Definition addKeyFrame_unguarded (frames : ref) (currentFrame : index) (h : store)
  : ref * store :=
  let '(copy, h) := alloc (OFrame (spread_frame h (get h frames currentFrame))) h in
  alloc (OArray (iterate h frames ++ [ERef copy]) ∅) h.

(** [addKeyFrame] of the two files of [part_001]; [defaultFrame] is the
    reference of the module constant. *)
Definition addKeyFrame_guarded (defaultFrame : ref) (frames : ref)
    (currentFrame : index) (h : store) : ref * store :=
  let source := or_else (get h frames currentFrame) defaultFrame in
  let '(copy, h) := alloc (OFrame (spread_frame h (Some source))) h in
  alloc (OArray (iterate h frames ++ [ERef copy]) ∅) h.

(** The assignment [newFrames[currentFrame] = { ...newFrames[currentFrame],
    [part]: { ...newFrames[currentFrame][part], [axis]: value } }]. *)
Definition assign_updated (part : Joint.t) (axis : Axis.t) (value : number)
    (newFrames : ref) (currentFrame : index) (h : store) : outcome (ref * store) :=
  match get h newFrames currentFrame with
  | None => Throws TypeError
  | Some l =>
      let fields := spread_frame h (Some l) in
      let '(angles, h) :=
        alloc (OAngles (<[axis := value]> (spread_angles h (fields !! part)))) h in
      let '(frame, h) := alloc (OFrame (<[part := angles]> fields)) h in
      Returns (newFrames, set h newFrames currentFrame frame)
  end.

Definition updateCurrentFrame_unguarded (part : Joint.t) (axis : Axis.t)
    (value : number) (frames : ref) (currentFrame : index) (h : store)
  : outcome (ref * store) :=
  let '(newFrames, h) := alloc (OArray (iterate h frames) ∅) h in
  assign_updated part axis value newFrames currentFrame h.

Definition updateCurrentFrame_guarded (defaultFrame : ref) (part : Joint.t)
    (axis : Axis.t) (value : number) (frames : ref) (currentFrame : index)
    (h : store) : outcome (ref * store) :=
  let '(newFrames, h) := alloc (OArray (iterate h frames) ∅) h in
  let h :=
    match get h newFrames currentFrame with
    | None =>
        let '(d, h) := alloc (OFrame (spread_frame h (Some defaultFrame))) h in
        set h newFrames currentFrame d
    | Some _ => h
    end in
  assign_updated part axis value newFrames currentFrame h.

Definition addKeyFrame (r : revision) (defaultFrame : ref)
  : ref → index → store → ref * store :=
  match r with
  | animate_tsx | part_000 => addKeyFrame_unguarded
  | part_001a | part_001b => addKeyFrame_guarded defaultFrame
  end.

Definition updateCurrentFrame (r : revision) (defaultFrame : ref)
  : Joint.t → Axis.t → number → ref → index → store → outcome (ref * store) :=
  match r with
  | animate_tsx | part_000 => updateCurrentFrame_unguarded
  | part_001a | part_001b => updateCurrentFrame_guarded defaultFrame
  end.

(** The store once the module is loaded and [useState([defaultFrame])] has
    run: five angle objects, [defaultFrame] at reference 5, and the initial
    array at reference 6 with [defaultFrame] as its only element. *)
Definition initial : store :=
  [OAngles zero_angles; OAngles zero_angles; OAngles zero_angles;
   OAngles zero_angles; OAngles zero_angles;
   OFrame {[ Joint.head := 0%nat; Joint.left_arm := 1%nat; Joint.right_arm := 2%nat;
             Joint.left_leg := 3%nat; Joint.right_leg := 4%nat ]};
   OArray [ERef 5%nat] ∅].

Definition defaultFrame_ref : ref := 5%nat.
Definition initial_frames : ref := 6%nat.

(** The values a reference stands for. *)
Definition frame_value (h : store) (l : ref) : KeyFrame :=
  angles_at h <$> fields_at h l.

Definition slot_of (h : store) (e : element) : slot :=
  match e with
  | EHole => Hole
  | EUndefined => Undefined
  | ERef l => Obj (frame_value h l)
  end.

Definition array_value (h : store) (l : ref) : JSArray :=
  mkArray (slot_of h <$> elems_at h l) (frame_value h <$> props_at h l).

(** No object of the store refers outside the store. *)
Definition closed_object (n : nat) (o : object) : Prop :=
  match o with
  | OAngles _ => True
  | OFrame f => ∀ j a, f !! j = Some a → (a < n)%nat
  | OArray es ps =>
      (∀ l, ERef l ∈ es → (l < n)%nat) ∧ (∀ i l, ps !! i = Some l → (l < n)%nat)
  end.

Definition closed (h : store) : Prop :=
  ∀ l o, h !! l = Some o → closed_object (length h) o.

End Store.

(** ** Further vocabulary *)

(** The revisions whose handlers carry no guard for a missing keyframe. *)
Definition unguarded (r : revision) : Prop := r = animate_tsx ∨ r = part_000.

(** The two files of [part_001]. *)
Definition guarded (r : revision) : Prop := r = part_001a ∨ r = part_001b.

(** [k] clicks on "Add Keyframe" in a row. *)
Definition addKeyFrames (r : revision) (k : nat) (s : State) : State :=
  Nat.iter k (addKeyFrame r) s.

(** The exported [interval] is in normal form: not a number, plus infinity,
    or a whole number from 1 on. *)
Definition normal_interval (n : number) : Prop :=
  match n with
  | NaN | PosInfinity => True
  | NegInfinity => False
  | Finite q => ∃ z : Z, q = inject_Z z ∧ 1 ≤ z
  end.

(** What [Math.max(1, v)] leaves in the [interval] cell. *)
Definition at_least_one (n : number) : Prop :=
  match n with
  | NaN | PosInfinity => True
  | NegInfinity => False
  | Finite q => (1 <= q)%Q
  end.

(** The editing events run over the store of objects: the array held by
    the [frames] cell, the active index, and the store. *)
Inductive edit :=
| EditAdd
| EditAngle (part : Joint.t) (axis : Axis.t) (value : number)
| EditSelect (i : index).

Record Cells := mkCells {
  cell_frames : Store.ref;
  cell_index : index;
  cell_store : Store.store
}.

Definition initial_cells : Cells :=
  mkCells Store.initial_frames (Int 0) Store.initial.

(** One editing event over the store.  A handler that throws has set no
    cell; the objects it allocated before are unreachable and left out. *)
Definition edit_store (r : revision) (c : Cells) (e : edit) : Cells :=
  match e with
  | EditAdd =>
      let '(fr, h) := Store.addKeyFrame r Store.defaultFrame_ref (cell_frames c)
                        (cell_index c) (cell_store c) in
      mkCells fr (Int (Z.of_nat (length (Store.elems_at (cell_store c) (cell_frames c))))) h
  | EditAngle part axis value =>
      match Store.updateCurrentFrame r Store.defaultFrame_ref part axis value
              (cell_frames c) (cell_index c) (cell_store c) with
      | Returns (fr, h) => mkCells fr (cell_index c) h
      | Throws _ => c
      end
  | EditSelect i => mkCells (cell_frames c) i (cell_store c)
  end.

(** The same event over the values. *)
Definition edit_state (r : revision) (s : State) (e : edit) : State :=
  match e with
  | EditAdd => addKeyFrame r s
  | EditAngle part axis value =>
      match updateCurrentFrame r part axis value s with
      | Returns s' => s'
      | Throws _ => s
      end
  | EditSelect i => setCurrentFrame i s
  end.

(** A sample run of widget events in [part_000]: a keyframe is added, then
    the timeline slider is moved back to 0. *)
Definition widget_sample : World :=
  @step yaml_text part_000
    (@step yaml_text part_000 initial_world ClickAddKeyframe)
    (ChangeTimeline (Int 0)).

(** The state of the first file of [part_001] after the index 3 was forced
    on the one-keyframe editor and two angles were edited there: positions
    1 and 2, holes after the first edit, hold [undefined] after the second.
    And the state after the first edit alone. *)
Definition holes_state : State :=
  match Part001a.updateCurrentFrame Joint.head Axis.x (num 30)
          (setCurrentFrame (Int 3) initial_state) with
  | Returns s => s
  | Throws _ => initial_state
  end.

Definition undefined_state : State :=
  match Part001a.updateCurrentFrame Joint.head Axis.y (num 5) holes_state with
  | Returns s => s
  | Throws _ => initial_state
  end.

(** The cells over the store hold what the state holds as values. *)
Definition represents (c : Cells) (s : State) : Prop :=
  frames s = Store.array_value (cell_store c) (cell_frames c)
  ∧ currentFrame s = cell_index c.

(** The cells are sound: the store is closed, keeps the objects of the
    initial store as they were, and holds the array of the [frames] cell. *)
Definition sound_cells (c : Cells) : Prop :=
  Store.closed (cell_store c)
  ∧ (cell_frames c < length (cell_store c))%nat
  ∧ Store.initial `prefix_of` cell_store c.

(** The array indices of the language among the naturals: those below
    [2^32 - 1].  An assignment at one of them beyond the end extends the
    array. *)
Definition array_index (n : nat) : Prop := Z.of_nat n < 2 ^ 32 - 1.

(** An index that is no array index: a negative integer or [NaN]. *)
Definition off_array (i : index) : Prop :=
  match i with
  | Int z => z < 0
  | NotANumber => True
  end.

(** * Properties *)

(** ** Arrays *)

#[local] Arguments get : simpl never.
#[local] Arguments set : simpl never.

Lemma lookup_iterate (a : JSArray) (n : nat) :
  (iterate a !! n) ≫= slot_value = (elems a !! n) ≫= slot_value.
Proof.
  unfold iterate. rewrite list_lookup_fmap.
  destruct (elems a !! n) as [[]|]; reflexivity.
Qed.

Lemma length_iterate (a : JSArray) : length (iterate a) = length_of a.
Proof. unfold iterate, length_of. by rewrite length_fmap. Qed.

Lemma get_nat (a : JSArray) (n : nat) :
  get a (Int (Z.of_nat n)) = (elems a !! n) ≫= slot_value.
Proof.
  unfold get. destruct (decide (0 ≤ Z.of_nat n)); [|lia].
  by rewrite Nat2Z.id.
Qed.

Lemma get_nat_lt (a : JSArray) (n : nat) (f : KeyFrame) :
  get a (Int (Z.of_nat n)) = Some f → (n < length_of a)%nat.
Proof.
  rewrite get_nat. unfold length_of.
  destruct (elems a !! n) eqn:E; [|done].
  intros _. by eapply lookup_lt_Some.
Qed.

Lemma get_iterate (a : JSArray) (p : gmap index KeyFrame) (n : nat) :
  get (mkArray (iterate a) p) (Int (Z.of_nat n)) = get a (Int (Z.of_nat n)).
Proof. rewrite !get_nat. apply lookup_iterate. Qed.

Lemma get_append_old (l : list slot) (p : gmap index KeyFrame) (s : slot) (n : nat) :
  (n < length l)%nat →
  get (mkArray (l ++ [s]) p) (Int (Z.of_nat n)) = get (mkArray l p) (Int (Z.of_nat n)).
Proof. intros Hn. rewrite !get_nat. simpl. by rewrite lookup_app_l. Qed.

Lemma get_append_new (l : list slot) (p : gmap index KeyFrame) (f : KeyFrame) :
  get (mkArray (l ++ [Obj f]) p) (Int (Z.of_nat (length l))) = Some f.
Proof.
  rewrite get_nat. simpl.
  rewrite lookup_app_r by lia. by rewrite Nat.sub_diag.
Qed.

(** Reading [a[i]] right after [a[i] = f] yields [f], wherever [i] lies. *)
Lemma get_set_eq (a : JSArray) (i : index) (f : KeyFrame) :
  get (set a i f) i = Some f.
Proof.
  unfold get, set.
  destruct i as [z|]; simpl; [|apply lookup_insert_eq].
  destruct (decide (0 ≤ z)); simpl.
  - destruct (decide (Z.to_nat z < length (elems a))%nat); simpl.
    + by rewrite list_lookup_insert_eq.
    + rewrite lookup_app_r by lia.
      rewrite lookup_app_r by (rewrite length_replicate; lia).
      rewrite length_replicate.
      by replace (_ - _ - _)%nat with 0%nat by lia.
  - apply lookup_insert_eq.
Qed.

Lemma set_nat_lt (a : JSArray) (n : nat) (f : KeyFrame) :
  (n < length_of a)%nat →
  set a (Int (Z.of_nat n)) f = mkArray (<[n := Obj f]> (elems a)) (props a).
Proof.
  intros Hn. unfold set. destruct (decide (0 ≤ Z.of_nat n)); [|lia].
  rewrite Nat2Z.id. by destruct (decide (n < length (elems a))%nat).
Qed.

Lemma get_set_nat_ne (a : JSArray) (n m : nat) (f : KeyFrame) :
  (n < length_of a)%nat → n ≠ m →
  get (set a (Int (Z.of_nat n)) f) (Int (Z.of_nat m)) = get a (Int (Z.of_nat m)).
Proof.
  intros Hn Hne. rewrite set_nat_lt by done. rewrite !get_nat. simpl.
  by rewrite list_lookup_insert_ne.
Qed.

Lemma length_set_nat_lt (a : JSArray) (n : nat) (f : KeyFrame) :
  (n < length_of a)%nat → length_of (set a (Int (Z.of_nat n)) f) = length_of a.
Proof. intros Hn. rewrite set_nat_lt by done. unfold length_of. simpl. by rewrite length_insert. Qed.

(** An assignment never shortens the array. *)
Lemma length_set_ge (a : JSArray) (i : index) (f : KeyFrame) :
  (length_of a ≤ length_of (set a i f))%nat.
Proof.
  unfold length_of, set. destruct i as [z|]; simpl; [|done].
  destruct (decide (0 ≤ z)); simpl; [|done].
  destruct (decide (Z.to_nat z < length (elems a))%nat); simpl.
  - by rewrite length_insert.
  - rewrite length_app. lia.
Qed.

Lemma get_array_of (l : list KeyFrame) (n : nat) :
  get (array_of l) (Int (Z.of_nat n)) = l !! n.
Proof.
  rewrite get_nat. unfold array_of. simpl. rewrite list_lookup_fmap.
  by destruct (l !! n).
Qed.

Lemma iterate_array_of (l : list KeyFrame) : iterate (array_of l) = Obj <$> l.
Proof.
  unfold iterate, array_of. simpl. rewrite <- list_fmap_compose.
  by apply list_fmap_ext.
Qed.

(** ** Angles of a keyframe *)

Lemma angle_insert (f : KeyFrame) (part : Joint.t) (axis : Axis.t) (value : number) :
  angle (<[part := <[axis := value]> (spread (f !! part))]> f) part axis = Some value.
Proof. unfold angle. rewrite lookup_insert_eq. simpl. apply lookup_insert_eq. Qed.

Lemma angle_insert_ne (f : KeyFrame) (part part' : Joint.t) (axis axis' : Axis.t)
    (value : number) :
  (part', axis') ≠ (part, axis) →
  angle (<[part := <[axis := value]> (spread (f !! part))]> f) part' axis'
  = angle f part' axis'.
Proof.
  intros Hne. unfold angle.
  destruct (decide (part = part')) as [<-|Hp].
  - rewrite lookup_insert_eq. simpl.
    rewrite lookup_insert_ne by congruence.
    unfold spread. destruct (f !! part); simpl; [done|apply lookup_empty].
  - by rewrite lookup_insert_ne.
Qed.

(** ** updateCurrentFrame *)

Lemma Part000_updateCurrentFrame_eq :
  Part000.updateCurrentFrame = AnimateTsx.updateCurrentFrame.
Proof. reflexivity. Qed.

Lemma Part001b_updateCurrentFrame_eq :
  Part001b.updateCurrentFrame = Part001a.updateCurrentFrame.
Proof. reflexivity. Qed.

(** On a position that holds a keyframe the four revisions agree: the
    array is copied and the position receives the rebuilt keyframe. *)
Lemma updateCurrentFrame_in_range (r : revision) (s : State) (n : nat) (f : KeyFrame)
    (part : Joint.t) (axis : Axis.t) (value : number) :
  currentFrame s = Int (Z.of_nat n) →
  get (frames s) (Int (Z.of_nat n)) = Some f →
  updateCurrentFrame r part axis value s
  = Returns (setFrames (mkArray (<[n := Obj (updated f part axis value)]> (iterate (frames s))) ∅) s).
Proof.
  intros Hi Hf.
  assert (Hlt : (n < length_of (frames s))%nat) by by eapply get_nat_lt.
  assert (Hlt' : (n < length_of (mkArray (iterate (frames s)) ∅))%nat)
    by (unfold length_of; simpl; by rewrite length_iterate).
  assert (Hg : get (mkArray (iterate (frames s)) ∅) (Int (Z.of_nat n)) = Some f)
    by by rewrite get_iterate.
  destruct r; simpl;
    unfold AnimateTsx.updateCurrentFrame, Part000.updateCurrentFrame,
           Part001a.updateCurrentFrame, Part001b.updateCurrentFrame;
    rewrite Hi, !Hg; by rewrite set_nat_lt.
Qed.

(** The guarded revisions never throw. *)
Lemma Part001a_updateCurrentFrame_returns (part : Joint.t) (axis : Axis.t)
    (value : number) (s : State) :
  ∃ s', Part001a.updateCurrentFrame part axis value s = Returns s'.
Proof.
  unfold Part001a.updateCurrentFrame.
  destruct (get (mkArray (iterate (frames s)) ∅) (currentFrame s)) eqn:E.
  - rewrite E. eauto.
  - rewrite get_set_eq. eauto.
Qed.

(** The unguarded revisions throw exactly where the copy holds no keyframe. *)
Lemma AnimateTsx_updateCurrentFrame_throws (part : Joint.t) (axis : Axis.t)
    (value : number) (s : State) :
  get (mkArray (iterate (frames s)) ∅) (currentFrame s) = None →
  AnimateTsx.updateCurrentFrame part axis value s = Throws TypeError.
Proof. intros E. unfold AnimateTsx.updateCurrentFrame. by rewrite E. Qed.

Lemma read_setFrames (a : JSArray) (s : State) (n : nat) (part : Joint.t) (axis : Axis.t) :
  read (setFrames a s) n part axis = (get a (Int (Z.of_nat n))) ≫= λ f, angle f part axis.
Proof. reflexivity. Qed.

Lemma updateJoint_effect (r : revision) (s : State) (i : nat) (f : KeyFrame)
    (part : Joint.t) (axis : Axis.t) (value : number) :
  get (frames s) (Int (Z.of_nat i)) = Some f →
  ∃ s', updateJoint r i part axis value s = Returns s'
    ∧ read s' i part axis = Some value
    ∧ (∀ i' part' axis', (i', part', axis') ≠ (i, part, axis) →
         read s' i' part' axis' = read s i' part' axis')
    ∧ length_of (frames s') = length_of (frames s)
    ∧ (∀ n : nat, is_Some (get (frames s) (Int (Z.of_nat n))) →
         is_Some (get (frames s') (Int (Z.of_nat n))))
    ∧ animationName s' = animationName s
    ∧ interval s' = interval s
    ∧ isPlaying s' = isPlaying s.
Proof.
  intros Hf.
  assert (Hlt : (i < length (iterate (frames s)))%nat)
    by (rewrite length_iterate; by eapply get_nat_lt).
  unfold updateJoint.
  erewrite updateCurrentFrame_in_range by (simpl; eauto).
  eexists. split; [reflexivity|]. simpl.
  split; [|split; [|split; [|split]]].
  - rewrite read_setFrames. rewrite get_nat. simpl.
    rewrite list_lookup_insert_eq by done. simpl. apply angle_insert.
  - intros i' part' axis' Hne. rewrite read_setFrames. unfold read. simpl.
    destruct (decide (i = i')) as [<-|Hi].
    + rewrite get_nat. simpl. rewrite list_lookup_insert_eq by done. simpl.
      rewrite Hf. simpl. apply angle_insert_ne. congruence.
    + rewrite !get_nat. simpl. rewrite list_lookup_insert_ne by done.
      by rewrite lookup_iterate.
  - unfold length_of. simpl. by rewrite length_insert, length_iterate.
  - intros n Hn. destruct (decide (i = n)) as [<-|Hi].
    + rewrite get_nat. simpl. rewrite list_lookup_insert_eq by done. by eexists.
    + rewrite get_nat in *. simpl. rewrite list_lookup_insert_ne by done.
      by rewrite lookup_iterate.
  - done.
Qed.

Lemma updateJoints_effect (r : revision) (ws : list write) (s : State) :
  dense s →
  Forall (λ w, (w_pose w < length_of (frames s))%nat) ws →
  ∃ s', updateJoints r ws s = Returns s'
    ∧ ∀ n part axis,
        read s' n part axis
        = match last_written ws n part axis with
          | Some v => Some v
          | None => read s n part axis
          end.
Proof.
  revert s. induction ws as [|w ws IH]; intros s Hd Hws.
  - eexists. split; [reflexivity|]. done.
  - apply Forall_cons in Hws as [Hw Hws].
    destruct (Hd _ Hw) as [f Hf].
    destruct (updateJoint_effect r s (w_pose w) f (w_part w) (w_axis w) (w_value w) Hf)
      as (s1 & Hs1 & Hrd & Hoth & Hlen & Hsome & _).
    destruct (IH s1) as (s' & Hs' & Hread).
    + intros n Hn. apply Hsome, Hd. by rewrite <- Hlen.
    + by rewrite Hlen.
    + exists s'. split.
      * simpl. rewrite Hs1. exact Hs'.
      * intros n part axis. rewrite Hread. simpl.
        destruct (last_written ws n part axis); [done|].
        destruct (decide _) as [E|E].
        -- injection E as <- <- <-. done.
        -- apply Hoth. congruence.
Qed.

Lemma dense_array_of (l : list KeyFrame) (i : index) (name : string) (t : number)
    (p : bool) :
  dense (mkState (array_of l) i name t p).
Proof.
  intros n Hn. simpl in *. rewrite get_array_of.
  apply lookup_lt_is_Some. unfold length_of, array_of in Hn. simpl in Hn.
  by rewrite length_fmap in Hn.
Qed.

(** C3. In each revision, an update of the keyframe at an in-range active
    index [i] returns a state whose entry [(i, part, axis)] is the written
    value while every other entry of every keyframe, the length of the
    sequence and the other state cells are as before; and after any sequence
    [ws] of [updateJoint] calls at in-range positions every entry reads the
    last value written to it, or its old value if none was. *)
Theorem updateCurrentFrame_last_write_wins (r : revision) (s : State) (i : nat)
    (part : Joint.t) (axis : Axis.t) (value : number) (ws : list write) :
  dense s →
  (i < length_of (frames s))%nat →
  currentFrame s = Int (Z.of_nat i) →
  Forall (λ w, (w_pose w < length_of (frames s))%nat) ws →
  (∃ s', updateCurrentFrame r part axis value s = Returns s'
     ∧ read s' i part axis = Some value
     ∧ (∀ i' part' axis', (i', part', axis') ≠ (i, part, axis) →
          read s' i' part' axis' = read s i' part' axis')
     ∧ length_of (frames s') = length_of (frames s)
     ∧ currentFrame s' = currentFrame s
     ∧ animationName s' = animationName s
     ∧ interval s' = interval s
     ∧ isPlaying s' = isPlaying s)
  ∧ (∃ s', updateJoints r ws s = Returns s'
       ∧ ∀ n part' axis',
           read s' n part' axis'
           = match last_written ws n part' axis' with
             | Some v => Some v
             | None => read s n part' axis'
             end).
Proof.
  intros Hd Hi Hcur Hws. split.
  - destruct (Hd i Hi) as [f Hf].
    destruct (updateJoint_effect r s i f part axis value Hf)
      as (s' & Hs' & H1 & H2 & H3 & _ & H4 & H5 & H6).
    unfold updateJoint in Hs'.
    replace (setCurrentFrame (Int (Z.of_nat i)) s) with s in Hs'
      by (destruct s; simpl in *; by subst).
    exists s'. repeat split; try done.
    erewrite updateCurrentFrame_in_range in Hs' by eauto.
    injection Hs' as <-. done.
  - by apply updateJoints_effect.
Qed.

Lemma updateCurrentFrame_last_write_wins_witness :
  let ws := [mkWrite 1 Joint.head Axis.x (num 30);
             mkWrite 0 Joint.left_arm Axis.z (num (-45));
             mkWrite 1 Joint.head Axis.x (num 90)] in
  (∃ s', updateCurrentFrame part_001a Joint.head Axis.y (num 15) two_frames = Returns s'
     ∧ read s' 1 Joint.head Axis.y = Some (num 15)
     ∧ (∀ i' part' axis', (i', part', axis') ≠ (1%nat, Joint.head, Axis.y) →
          read s' i' part' axis' = read two_frames i' part' axis')
     ∧ length_of (frames s') = length_of (frames two_frames)
     ∧ currentFrame s' = currentFrame two_frames
     ∧ animationName s' = animationName two_frames
     ∧ interval s' = interval two_frames
     ∧ isPlaying s' = isPlaying two_frames)
  ∧ (∃ s', updateJoints part_001a ws two_frames = Returns s'
       ∧ ∀ n part' axis',
           read s' n part' axis'
           = match last_written ws n part' axis' with
             | Some v => Some v
             | None => read two_frames n part' axis'
             end).
Proof.
  apply (updateCurrentFrame_last_write_wins part_001a two_frames 1 Joint.head Axis.y
           (num 15)).
  - apply dense_array_of.
  - vm_compute. lia.
  - reflexivity.
  - repeat constructor.
Defined.

Example updateJoints_example :
  ∃ s', updateJoints animate_tsx
          [mkWrite 1 Joint.head Axis.x (num 30);
           mkWrite 0 Joint.left_arm Axis.z (num (-45));
           mkWrite 1 Joint.head Axis.x (num 90)] two_frames = Returns s'
    ∧ read s' 1 Joint.head Axis.x = Some (num 90)
    ∧ read s' 0 Joint.left_arm Axis.z = Some (num (-45))
    ∧ read s' 0 Joint.head Axis.x = Some (num 0).
Proof. eexists. split; [vm_compute; reflexivity|]. vm_compute. done. Qed.

(** ** addKeyFrame *)

(** With a keyframe at the active index the four revisions append the same
    copy. *)
Lemma addKeyFrame_in_range (r : revision) (s : State) (f : KeyFrame) :
  get (frames s) (currentFrame s) = Some f →
  addKeyFrame r s
  = setCurrentFrame (Int (Z.of_nat (length_of (frames s))))
      (setFrames (mkArray (iterate (frames s) ++ [Obj f]) ∅) s).
Proof.
  intros Hf.
  destruct r; simpl;
    unfold AnimateTsx.addKeyFrame, Part000.addKeyFrame,
           Part001a.addKeyFrame, Part001b.addKeyFrame;
    by rewrite Hf.
Qed.

(** [addKeyFrame] always grows the sequence by one, whatever the index. *)
Lemma length_addKeyFrame (r : revision) (s : State) :
  length_of (frames (addKeyFrame r s)) = S (length_of (frames s)).
Proof.
  destruct r; simpl; unfold length_of; simpl;
    rewrite length_app, length_iterate; unfold length_of; simpl; lia.
Qed.

(** With [n] keyframes and a keyframe [f] at the active index [i],
    [addKeyFrame] returns [n+1] keyframes, the first [n] as before and the
    last equal to [f], with [n] as the active index; and an update of the
    new keyframe then writes entry [(n, part, axis)] and leaves [f] at
    position [i] and every angle of the first [n] keyframes as they were. *)
Lemma addKeyFrame_then_update (r : revision) (s : State) (i : nat)
    (f : KeyFrame) (part : Joint.t) (axis : Axis.t) (value : number) :
  currentFrame s = Int (Z.of_nat i) →
  get (frames s) (Int (Z.of_nat i)) = Some f →
  let n := length_of (frames s) in
  let s' := addKeyFrame r s in
  length_of (frames s') = S n
  ∧ (∀ k : nat, (k < n)%nat →
       get (frames s') (Int (Z.of_nat k)) = get (frames s) (Int (Z.of_nat k)))
  ∧ get (frames s') (Int (Z.of_nat n)) = Some f
  ∧ currentFrame s' = Int (Z.of_nat n)
  ∧ animationName s' = animationName s
  ∧ interval s' = interval s
  ∧ isPlaying s' = isPlaying s
  ∧ ∃ s'', updateCurrentFrame r part axis value s' = Returns s''
      ∧ read s'' n part axis = Some value
      ∧ get (frames s'') (Int (Z.of_nat i)) = Some f
      ∧ (∀ (k : nat) part' axis', (k < n)%nat →
           read s'' k part' axis' = read s k part' axis')
      ∧ length_of (frames s'') = S n.
Proof.
  intros Hcur Hf n s'.
  assert (Hin : (i < n)%nat) by by eapply get_nat_lt.
  assert (Hs' : s' = setCurrentFrame (Int (Z.of_nat n))
                       (setFrames (mkArray (iterate (frames s) ++ [Obj f]) ∅) s)).
  { unfold s'. apply addKeyFrame_in_range. by rewrite Hcur. }
  assert (Hlen : length (iterate (frames s)) = n) by apply length_iterate.
  assert (Hold : ∀ k : nat, (k < n)%nat →
            get (frames s') (Int (Z.of_nat k)) = get (frames s) (Int (Z.of_nat k))).
  { intros k Hk. rewrite Hs'. simpl.
    rewrite get_append_old by lia. apply get_iterate. }
  assert (Hnew : get (frames s') (Int (Z.of_nat n)) = Some f).
  { rewrite Hs'. simpl. rewrite <- Hlen at 1. apply get_append_new. }
  split; [apply length_addKeyFrame|].
  split; [exact Hold|]. split; [exact Hnew|].
  rewrite Hs' at 1 2 3 4. simpl. repeat (split; [reflexivity|]).
  destruct (updateJoint_effect r s' n f part axis value Hnew)
    as (s'' & Hs'' & H1 & H2 & H3 & _).
  unfold updateJoint in Hs''.
  replace (setCurrentFrame (Int (Z.of_nat n)) s') with s' in Hs''
    by (rewrite Hs'; reflexivity).
  exists s''. split; [exact Hs''|]. split; [exact H1|].
  assert (Hs''f : frames s'' = mkArray (<[n := Obj (updated f part axis value)]>
                                          (iterate (frames s'))) ∅).
  { erewrite updateCurrentFrame_in_range in Hs''; [|by rewrite Hs'|exact Hnew].
    by injection Hs'' as <-. }
  split; [|split].
  - rewrite Hs''f, get_nat. simpl.
    rewrite list_lookup_insert_ne by lia.
    rewrite lookup_iterate, <- get_nat, Hold by done. exact Hf.
  - intros k part' axis' Hk. rewrite H2 by (intros [= -> _ _]; lia).
    unfold read. by rewrite Hold.
  - rewrite H3. apply length_addKeyFrame.
Qed.


(** ** The playback loop *)

Lemma refresh_idle (w : World) : scheduled w = [] → refresh w = w.
Proof. intros H. destruct w. simpl in *. subst. reflexivity. Qed.

Lemma refresh_one (w : World) (h : nat) (c : Closure) :
  scheduled w = [(h, c)] →
  refresh w =
    let frameIndex' := succ_rem (frameIndex c) (length_of (closure_frames c)) in
    mkWorld (setCurrentFrame frameIndex' (state w)) (Some (next_handle w))
            [(next_handle w, mkClosure frameIndex' (closure_frames c))]
            (S (next_handle w)) (page w) (uncaught w).
Proof. intros H. unfold refresh. rewrite H. reflexivity. Qed.

Lemma succ_rem_in_range (z : Z) (n : nat) :
  0 ≤ z → n ≠ 0%nat → succ_rem (Int z) n = Int ((z + 1) mod Z.of_nat n).
Proof.
  intros Hz Hn. unfold succ_rem. destruct (decide (n = 0%nat)); [done|].
  f_equal. apply Z.rem_mod_nonneg; lia.
Qed.

Lemma playAnimation_start (w : World) :
  isPlaying (state w) = false →
  playAnimation w =
    mkWorld (setIsPlaying true (state w)) (Some (next_handle w))
            (scheduled w ++ [(next_handle w,
                              mkClosure (currentFrame (state w)) (frames (state w)))])
            (S (next_handle w)) (page w) (uncaught w).
Proof. intros H. unfold playAnimation. rewrite H. reflexivity. Qed.

Lemma playAnimation_stop (w : World) (h : nat) (c : Closure) :
  isPlaying (state w) = true →
  scheduled w = [(h, c)] → animationRef w = Some h → h ≠ 0%nat →
  playAnimation w =
    mkWorld (setIsPlaying false (state w)) (Some h) [] (next_handle w)
            (page w) (uncaught w).
Proof.
  intros Hp Hs Hr Hh. unfold playAnimation. rewrite Hp, Hr.
  destruct (decide (h = 0%nat)); [done|].
  unfold with_state, cancelAnimationFrame. simpl. rewrite Hs, Hr.
  rewrite filter_cons. simpl. destruct (decide (h ≠ h)); [done|].
  by rewrite filter_nil.
Qed.

(** The state handlers keep [isPlaying] and never shorten [frames]. *)
Lemma addKeyFrame_isPlaying (r : revision) (s : State) :
  isPlaying (addKeyFrame r s) = isPlaying s.
Proof. by destruct r. Qed.

Lemma updateCurrentFrame_keeps (r : revision) (part : Joint.t) (axis : Axis.t)
    (value : number) (s s' : State) :
  updateCurrentFrame r part axis value s = Returns s' →
  isPlaying s' = isPlaying s
  ∧ currentFrame s' = currentFrame s
  ∧ animationName s' = animationName s
  ∧ interval s' = interval s
  ∧ (length_of (frames s) ≤ length_of (frames s'))%nat.
Proof.
  pose proof (length_iterate (frames s)) as Hcopy.
  set (copy := mkArray (iterate (frames s)) ∅).
  assert (Hlen : ∀ a, (length_of copy ≤ length_of a)%nat →
                      (length_of (frames s) ≤ length_of a)%nat).
  { intros a. unfold length_of at 1. simpl. lia. }
  assert (Hunguarded : ∀ a, (length_of copy ≤ length_of a)%nat →
    match get a (currentFrame s) with
    | None => Throws TypeError
    | Some f =>
        Returns (setFrames (set a (currentFrame s)
                   (<[part := <[axis := value]> (spread (f !! part))]> f)) s)
    end = Returns s' →
    isPlaying s' = isPlaying s ∧ currentFrame s' = currentFrame s
    ∧ animationName s' = animationName s ∧ interval s' = interval s
    ∧ (length_of (frames s) ≤ length_of (frames s'))%nat).
  { intros a Ha Heq. destruct (get a (currentFrame s)); [|done].
    injection Heq as <-. simpl. repeat split.
    apply Hlen. etrans; [exact Ha|]. apply length_set_ge. }
  destruct r; simpl;
    unfold AnimateTsx.updateCurrentFrame, Part000.updateCurrentFrame,
           Part001a.updateCurrentFrame, Part001b.updateCurrentFrame;
    fold copy; apply Hunguarded;
    try done; destruct (get copy (currentFrame s)); try done;
    apply length_set_ge.
Qed.

Lemma onIntervalChange_keeps (r : revision) (value : number) (s : State) :
  isPlaying (onIntervalChange r value s) = isPlaying s
  ∧ frames (onIntervalChange r value s) = frames s
  ∧ currentFrame (onIntervalChange r value s) = currentFrame s.
Proof. by destruct r. Qed.

Section loop.
Context `{!js_yaml}.
Variable r : revision.

Lemma step_length (w : World) (ev : event) :
  (length_of (frames (state w)) ≤ length_of (frames (state (step r w ev))))%nat.
Proof.
  destruct ev; simpl; try lia.
  - rewrite length_addKeyFrame. lia.
  - destruct (updateCurrentFrame r part axis value (state w)) eqn:E; simpl; [|lia].
    by apply updateCurrentFrame_keeps in E as (_ & _ & _ & _ & ?).
  - by destruct (onIntervalChange_keeps r value (state w)) as (_ & -> & _).
  - destruct (exportAnimation r (state w) (page w)); simpl; lia.
  - unfold playAnimation. destruct (isPlaying (state w)); simpl; [|lia].
    destruct (animationRef w); [|simpl; lia].
    destruct (decide _); simpl; lia.
  - unfold refresh.
    assert (∀ l w0, frames (state (foldl (λ w hc, animate hc.2 w) w0 l))
                    = frames (state w0)) as ->; [|simpl; lia].
    induction l as [|hc l IH]; intros w0; [done|]. simpl. by rewrite IH.
Qed.

Lemma loop_invariant_initial : loop_invariant initial_world.
Proof. repeat split; done. Qed.

Lemma loop_invariant_step (w : World) (ev : event) :
  loop_invariant w → loop_invariant (step r w ev).
Proof.
  intros (Hn & Hf & Hl).
  assert (Hf' : length_of (frames (state (step r w ev))) ≠ 0%nat)
    by (pose proof (step_length w ev); lia).
  split; [|split; [exact Hf'|]]; clear Hf'.
  - destruct ev; simpl; try done.
    + by destruct (updateCurrentFrame r part axis value (state w)).
    + by destruct (exportAnimation r (state w) (page w)).
    + unfold playAnimation. destruct (isPlaying (state w)); simpl; [|done].
      destruct (animationRef w); [|done]. by destruct (decide _).
    + destruct (isPlaying (state w)).
      * destruct Hl as (h & c & Hs & _). by rewrite (refresh_one w h c Hs).
      * by rewrite refresh_idle.
  - destruct ev; simpl.
    + by rewrite addKeyFrame_isPlaying.
    + destruct (updateCurrentFrame r part axis value (state w)) eqn:E; simpl; [|done].
      apply updateCurrentFrame_keeps in E as (-> & _). done.
    + done.
    + done.
    + by destruct (onIntervalChange_keeps r value (state w)) as (-> & _).
    + by destruct (exportAnimation r (state w) (page w)).
    + destruct (isPlaying (state w)) eqn:Hp.
      * destruct Hl as (h & c & Hs & Hr & Hh & _).
        by rewrite (playAnimation_stop w h c).
      * rewrite playAnimation_start by done. simpl. rewrite Hl. simpl.
        eexists _, _. repeat split; done.
    + destruct (isPlaying (state w)) eqn:Hp.
      * destruct Hl as (h & c & Hs & Hr & Hh & Hc).
        rewrite (refresh_one w h c Hs). simpl. rewrite Hp.
        eexists _, _. repeat split; done.
      * rewrite refresh_idle by done. by rewrite Hp.
Qed.

Lemma loop_invariant_run (w : World) (evs : list event) :
  loop_invariant w → loop_invariant (run r w evs).
Proof.
  revert w. induction evs as [|ev evs IH]; intros w Hw; [done|].
  simpl. apply IH. by apply loop_invariant_step.
Qed.

Lemma loop_invariant_reachable (w : World) : reachable r w → loop_invariant w.
Proof. intros [evs ->]. apply loop_invariant_run, loop_invariant_initial. Qed.
End loop.

Section playback.
Context `{!js_yaml}.
Variable r : revision.

Lemma step_isPlaying (w : World) (ev : event) :
  ev ≠ ClickPlay → isPlaying (state w) = false → scheduled w = [] →
  isPlaying (state (step r w ev)) = false ∧ scheduled (step r w ev) = []
  ∧ (ev = Refresh → step r w ev = w).
Proof.
  intros Hev Hp Hs. destruct ev; simpl; try done.
  - by rewrite addKeyFrame_isPlaying.
  - destruct (updateCurrentFrame r part axis value (state w)) eqn:E; simpl; [|done].
    apply updateCurrentFrame_keeps in E as (-> & _). done.
  - by destruct (onIntervalChange_keeps r value (state w)) as (-> & _).
  - by destruct (exportAnimation r (state w) (page w)).
  - by rewrite refresh_idle.
Qed.

Lemma run_stopped (w : World) (evs : list event) :
  ClickPlay ∉ evs → isPlaying (state w) = false → scheduled w = [] →
  isPlaying (state (run r w evs)) = false ∧ scheduled (run r w evs) = [].
Proof.
  revert w. induction evs as [|ev evs IH]; intros w Hevs Hp Hs; [done|].
  apply not_elem_of_cons in Hevs as [Hev Hevs].
  destruct (step_isPlaying w ev) as (Hp' & Hs' & _); [congruence|done|done|].
  simpl. by apply IH.
Qed.

Lemma refreshes_idle (n : nat) (w : World) : scheduled w = [] → refreshes n w = w.
Proof.
  intros Hs. induction n as [|n IH]; [done|].
  unfold refreshes in *. simpl. rewrite IH. by apply refresh_idle.
Qed.

Lemma step_looping (w : World) (ev : event) (z : Z) (snapshot : JSArray) :
  ev ≠ ClickPlay → 0 ≤ z → length_of snapshot ≠ 0%nat →
  looping w z snapshot →
  if decide (ev = Refresh)
  then looping (step r w ev) ((z + 1) mod Z.of_nat (length_of snapshot)) snapshot
       ∧ currentFrame (state (step r w ev))
         = Int ((z + 1) mod Z.of_nat (length_of snapshot))
  else looping (step r w ev) z snapshot.
Proof.
  intros Hev Hz Hn (Hp & h & Hs).
  destruct ev; simpl; try done; unfold looping; simpl.
  - rewrite addKeyFrame_isPlaying. eauto.
  - destruct (updateCurrentFrame r part axis value (state w)) eqn:E; simpl; [|eauto].
    apply updateCurrentFrame_keeps in E as (-> & _). eauto.
  - eauto.
  - eauto.
  - destruct (onIntervalChange_keeps r value (state w)) as (-> & _). eauto.
  - destruct (exportAnimation r (state w) (page w)); simpl; eauto.
  - rewrite (refresh_one w h _ Hs). cbn [frameIndex closure_frames].
    rewrite succ_rem_in_range by done. simpl. eauto.
Qed.



Lemma run_refreshes (n : nat) (w : World) :
  run r w (replicate n Refresh) = refreshes n w.
Proof.
  revert w. induction n as [|n IH]; intros w; [done|].
  unfold refreshes in *. rewrite Nat.iter_succ_r. simpl. by rewrite IH.
Qed.

Lemma advances_replicate (n : nat) : advances (replicate n Refresh) = n.
Proof.
  unfold advances. induction n as [|n IH]; [done|].
  rewrite replicate_S, filter_cons_True by done. simpl. by rewrite IH.
Qed.

Lemma ClickPlay_not_in_replicate (n : nat) : ClickPlay ∉ replicate n Refresh.
Proof. intros [? _]%elem_of_replicate. done. Qed.

Lemma start_looping (w : World) (i : Z) (n : nat) :
  stopped_at w i n →
  looping (step r w ClickPlay) i (frames (state w))
  ∧ currentFrame (state (step r w ClickPlay)) = Int i.
Proof.
  intros (Hp & Hs & Hc & Hn). simpl.
  rewrite playAnimation_start by done. unfold looping. simpl.
  rewrite Hs, Hc. eauto.
Qed.
End playback.

(** C5. Started from a stopped editor with [n >= 1] keyframes and the
    active index [i], [0 <= i < n], the playback loop shows after [k]
    advances the index [(i + k) mod n]; each further advance moves it by one
    modulo [n]; and after exactly [n] advances it is [i] again. *)
Theorem playback_cycles (w : World) (i : Z) (n k : nat) :
  stopped_at w i n →
  0 ≤ i < Z.of_nat n →
  let w1 := playAnimation w in
  currentFrame (state (refreshes k w1)) = Int ((i + Z.of_nat k) mod Z.of_nat n)
  ∧ currentFrame (state (refresh (refreshes k w1)))
    = Int (((i + Z.of_nat k) mod Z.of_nat n + 1) mod Z.of_nat n)
  ∧ currentFrame (state (refreshes n w1)) = Int i
  ∧ isPlaying (state (refreshes k w1)) = true.
Proof.
  intros Hst Hi w1.
  pose proof Hst as (_ & _ & _ & Hn).
  assert (Hafter : ∀ m : nat,
            looping (refreshes m w1)
                    ((i + Z.of_nat m) mod Z.of_nat n) (frames (state w))
            ∧ currentFrame (state (refreshes m w1))
              = Int ((i + Z.of_nat m) mod Z.of_nat n)).
  { destruct (@start_looping yaml_text animate_tsx w i n Hst) as [Hl Hc].
    change (step animate_tsx w ClickPlay) with w1 in Hl, Hc.
    induction m as [|m [IHl IHc]].
    - simpl. rewrite Z.add_0_r, Z.mod_small by lia. done.
    - pose proof (@step_looping yaml_text animate_tsx (refreshes m w1) Refresh
                    ((i + Z.of_nat m) mod Z.of_nat n) (frames (state w))) as Hs.
      rewrite Hn in Hs. simpl in Hs.
      destruct Hs as [Hl' Hc']; [done|apply Z.mod_pos_bound; lia|lia|done|].
      rewrite Zplus_mod_idemp_l in Hl', Hc'.
      replace (i + Z.of_nat m + 1) with (i + Z.of_nat (S m)) in Hl', Hc' by lia.
      done. }
  destruct (Hafter k) as [[Hp _] Hk].
  destruct (Hafter (S k)) as [_ HSk].
  destruct (Hafter n) as [_ Hnn].
  split; [exact Hk|]. split; [|split; [|exact Hp]].
  - change (refresh (refreshes k w1)) with (refreshes (S k) w1).
    rewrite HSk, Zplus_mod_idemp_l. do 2 f_equal. lia.
  - rewrite Hnn. f_equal.
    rewrite <- Zplus_mod_idemp_r, Z.mod_same, Z.add_0_r by lia.
    apply Z.mod_small. lia.
Qed.

Lemma playback_cycles_witness :
  let w := mkWorld (mkState (array_of [defaultFrame; defaultFrame; defaultFrame])
                            (Int 2) "wave" (num 10) false)
                   None [] 1 (mkPage [] []) [] in
  let w1 := playAnimation w in
  currentFrame (state (refreshes 4 w1)) = Int ((2 + Z.of_nat 4) mod Z.of_nat 3)
  ∧ currentFrame (state (refresh (refreshes 4 w1)))
    = Int (((2 + Z.of_nat 4) mod Z.of_nat 3 + 1) mod Z.of_nat 3)
  ∧ currentFrame (state (refreshes 3 w1)) = Int 2
  ∧ isPlaying (state (refreshes 4 w1)) = true.
Proof.
  apply (playback_cycles
           (mkWorld (mkState (array_of [defaultFrame; defaultFrame; defaultFrame])
                             (Int 2) "wave" (num 10) false)
                    None [] 1 (mkPage [] []) []) 2 3 4).
  - repeat split.
  - lia.
Defined.

Section loop_claims.
Context `{!js_yaml}.

(** C8. In every reachable world that is playing, the stop click
    leaves no callback scheduled and clears [isPlaying]; any number of
    display refreshes after it leaves the state, and so the active index,
    as it was at the stop; and this stays so along every later run of
    events without a new play click. *)
Theorem stop_cancels_pending_advance (r : revision) (w : World) (n : nat)
    (evs : list event) :
  reachable r w →
  isPlaying (state w) = true →
  ClickPlay ∉ evs →
  let w' := step r w ClickPlay in
  isPlaying (state w') = false
  ∧ scheduled w' = []
  ∧ currentFrame (state w') = currentFrame (state w)
  ∧ state (refreshes n w') = state w'
  ∧ scheduled (run r w' evs) = []
  ∧ step r (run r w' evs) Refresh = run r w' evs.
Proof.
  intros Hr Hp Hevs w'.
  apply loop_invariant_reachable in Hr as (_ & _ & Hl).
  rewrite Hp in Hl. destruct Hl as (h & c & Hs & Href & Hh & _).
  assert (Hw' : w' = mkWorld (setIsPlaying false (state w)) (Some h) []
                             (next_handle w) (page w) (uncaught w))
    by by apply (playAnimation_stop w h c).
  assert (Hp' : isPlaying (state w') = false) by by rewrite Hw'.
  assert (Hs' : scheduled w' = []) by by rewrite Hw'.
  destruct (run_stopped r w' evs Hevs Hp' Hs') as [Hp'' Hs''].
  repeat split; try done.
  - by rewrite Hw'.
  - by rewrite refreshes_idle.
  - simpl. by apply refresh_idle.
Qed.

(** C9. The editor starts with exactly one neutral keyframe; no event
    shortens the sequence; and in every reachable world the sequence has
    at least one keyframe, as has the sequence captured by every scheduled
    callback, so that the remainder taken by the next advance has a
    non-zero divisor and is an integer. *)
Theorem frames_never_empty (r : revision) (w : World) (ev : event) :
  reachable r w →
  frames initial_state = array_of [defaultFrame]
  ∧ (1 ≤ length_of (frames (state w)))%nat
  ∧ (length_of (frames (state w)) ≤ length_of (frames (state (step r w ev))))%nat
  ∧ (1 ≤ length_of (frames (state (step r w ev))))%nat
  ∧ ∀ h c, (h, c) ∈ scheduled w →
      (1 ≤ length_of (closure_frames c))%nat
      ∧ ∀ z, frameIndex c = Int z →
          succ_rem (frameIndex c) (length_of (closure_frames c))
          = Int (Z.rem (z + 1) (Z.of_nat (length_of (closure_frames c)))).
Proof.
  intros Hr. apply loop_invariant_reachable in Hr as (_ & Hf & Hl).
  pose proof (step_length r w ev) as Hstep.
  split; [done|]. split; [lia|]. split; [done|]. split; [lia|].
  intros h c Hin.
  destruct (isPlaying (state w)).
  - destruct Hl as (h' & c' & Hs & _ & _ & Hc).
    rewrite Hs in Hin. apply list_elem_of_singleton in Hin as [= -> ->].
    split; [lia|]. intros z ->. simpl.
    by destruct (decide (length_of (closure_frames c') = 0%nat)).
  - rewrite Hl in Hin. by apply elem_of_nil in Hin.
Qed.

End loop_claims.

Lemma stop_cancels_pending_advance_witness :
  let evs := [Refresh; ClickAddKeyframe; Refresh] in
  let w' := @step yaml_text animate_tsx playing_world ClickPlay in
  isPlaying (state w') = false
  ∧ scheduled w' = []
  ∧ currentFrame (state w') = currentFrame (state playing_world)
  ∧ state (refreshes 2 w') = state w'
  ∧ scheduled (@run yaml_text animate_tsx w' evs) = []
  ∧ @step yaml_text animate_tsx (@run yaml_text animate_tsx w' evs) Refresh
    = @run yaml_text animate_tsx w' evs.
Proof.
  apply (@stop_cancels_pending_advance yaml_text animate_tsx playing_world 2
           [Refresh; ClickAddKeyframe; Refresh]).
  - eexists. reflexivity.
  - reflexivity.
  - intros Hin. repeat (apply elem_of_cons in Hin as [Hin|Hin]; [discriminate|]).
    by apply elem_of_nil in Hin.
Defined.

Lemma frames_never_empty_witness :
  let w := playing_world in
  let ev := ChangeAngle Joint.head Axis.x (num 30) in
  frames initial_state = array_of [defaultFrame]
  ∧ (1 ≤ length_of (frames (state w)))%nat
  ∧ (length_of (frames (state w))
     ≤ length_of (frames (state (@step yaml_text animate_tsx w ev))))%nat
  ∧ (1 ≤ length_of (frames (state (@step yaml_text animate_tsx w ev))))%nat
  ∧ ∀ h c, (h, c) ∈ scheduled w →
      (1 ≤ length_of (closure_frames c))%nat
      ∧ ∀ z, frameIndex c = Int z →
          succ_rem (frameIndex c) (length_of (closure_frames c))
          = Int (Z.rem (z + 1) (Z.of_nat (length_of (closure_frames c)))).
Proof.
  apply (@frames_never_empty yaml_text animate_tsx playing_world
           (ChangeAngle Joint.head Axis.x (num 30))).
  eexists. reflexivity.
Defined.



Example playback_skips_appended_keyframe :
  let w := @run yaml_text part_001b three_frames_stopped
             [ClickPlay; Refresh; ClickAddKeyframe] in
  currentFrame (state w) = Int 3
  ∧ length_of (frames (state w)) = 4%nat
  ∧ currentFrame (state (refresh w)) = Int 0
  ∧ currentFrame (state (refreshes 9 w)) = Int 2.
Proof. vm_compute. done. Qed.

(** ** The exporter *)

Lemma object_axes (a : Angles) :
  object [(Axis.x, a !! Axis.x); (Axis.y, a !! Axis.y); (Axis.z, a !! Axis.z)] = a.
Proof.
  apply map_eq. intros k. unfold object. simpl.
  destruct (a !! Axis.x) eqn:Hx, (a !! Axis.y) eqn:Hy, (a !! Axis.z) eqn:Hz;
    simpl; destruct k; by simplify_map_eq.
Qed.

Lemma object_joints (f : KeyFrame) (h la ra ll rl : Angles) :
  f !! Joint.head = Some h → f !! Joint.left_arm = Some la →
  f !! Joint.right_arm = Some ra → f !! Joint.left_leg = Some ll →
  f !! Joint.right_leg = Some rl →
  object [(Joint.head, Some h); (Joint.left_arm, Some la); (Joint.right_arm, Some ra);
          (Joint.left_leg, Some ll); (Joint.right_leg, Some rl)] = f.
Proof.
  intros. apply map_eq. intros k. unfold object. simpl.
  destruct k; by simplify_map_eq.
Qed.

(** On a keyframe of the interface both cleaning callbacks rebuild it. *)
Lemma Part001a_clean_KeyFrame (f : KeyFrame) :
  is_KeyFrame f → Part001a.clean (Some f) = Returns f.
Proof.
  intros Hf.
  destruct (Hf Joint.head) as (h & Hh & _), (Hf Joint.left_arm) as (la & Hla & _),
    (Hf Joint.right_arm) as (ra & Hra & _), (Hf Joint.left_leg) as (ll & Hll & _),
    (Hf Joint.right_leg) as (rl & Hrl & _).
  unfold Part001a.clean, Part001a.clean_part. simpl.
  rewrite Hh, Hla, Hra, Hll, Hrl. simpl. rewrite !object_axes.
  f_equal. by apply object_joints.
Qed.

Lemma Part001b_clean_KeyFrame (f : KeyFrame) :
  is_KeyFrame f → Part001b.clean (Some f) = Returns f.
Proof.
  intros Hf.
  destruct (Hf Joint.head) as (h & Hh & _), (Hf Joint.left_arm) as (la & Hla & _),
    (Hf Joint.right_arm) as (ra & Hra & _), (Hf Joint.left_leg) as (ll & Hll & _),
    (Hf Joint.right_leg) as (rl & Hrl & _).
  unfold Part001b.clean, Part001b.clean_part. simpl.
  rewrite Hh, Hla, Hra, Hll, Hrl. simpl.
  f_equal. by apply object_joints.
Qed.

Lemma map_array_id (cb : option KeyFrame → outcome KeyFrame) (l : list KeyFrame) :
  Forall (λ f, cb (Some f) = Returns f) l →
  map_array cb (array_of l) = Returns (array_of l).
Proof.
  intros Hl.
  assert (map_slots cb (Obj <$> l) = Returns (Obj <$> l)) as Hm.
  { induction Hl as [|f l Hf _ IH]; [done|].
    cbn [fmap list_fmap map_slots slot_value]. rewrite Hf. simpl.
    fold (fmap (M:=list) Obj l). by rewrite IH. }
  unfold map_array, array_of. cbn [elems]. by rewrite Hm.
Qed.

Lemma animation_KeyFrames (r : revision) (s : State) (l : list KeyFrame) :
  frames s = array_of l → Forall is_KeyFrame l →
  animation r s
  = Returns (Doc.mk {[ animationName s :=
      Doc.mkAnimation
        match r with
        | animate_tsx | part_000 => interval s
        | _ => Math_max (num 1) (Math_floor (interval s))
        end true (array_of l) ]}).
Proof.
  intros Hfr Hl.
  destruct r; simpl;
    unfold AnimateTsx.animation, Part000.animation, Part001a.animation,
           Part001b.animation; rewrite Hfr; try done.
  - rewrite map_array_id; [done|].
    eapply Forall_impl; [exact Hl|]. apply Part001a_clean_KeyFrame.
  - rewrite map_array_id; [done|].
    eapply Forall_impl; [exact Hl|]. apply Part001b_clean_KeyFrame.
Qed.

(** [Math.max(1, Math.floor(q))] on a finite number. *)
Lemma Math_max_floor_finite (q : Q) :
  Math_max (num 1) (Math_floor (Finite q)) = num (Z.max 1 (Qfloor q)).
Proof.
  unfold Math_max, Math_floor, num.
  destruct (Qle_bool (inject_Z 1) (inject_Z (Qfloor q))) eqn:E.
  - apply Qle_bool_iff in E. rewrite <- Zle_Qle in E.
    by rewrite Z.max_r.
  - assert (¬ (1 ≤ Qfloor q)) as Hn.
    { intros Hle. rewrite Zle_Qle in Hle. apply Qle_bool_iff in Hle. congruence. }
    rewrite Z.max_l by lia. done.
Qed.

Lemma is_KeyFrame_defaultFrame : is_KeyFrame defaultFrame.
Proof.
  intros j. exists zero_angles. split; [by destruct j|].
  intros ax. exists (num 0). by destruct ax.
Qed.

Section exporter.
Context `{!js_yaml}.

Lemma exportAnimation_dump (r : revision) (s : State) (p : Page) (doc : Doc.t) :
  animation r s = Returns doc →
  exportAnimation r s p
  = match yaml_dump doc (dump_options r) with
    | Returns text => Returns (download (download_name r s) text p)
    | Throws e =>
        match r with
        | animate_tsx | part_000 => Throws e
        | _ => Returns (mkPage (downloads p) (console_error p ++ [e]))
        end
    end.
Proof.
  intros Hdoc.
  destruct r; simpl in *;
    unfold AnimateTsx.exportAnimation, Part000.exportAnimation,
           Part001a.exportAnimation, Part001b.exportAnimation;
    [injection Hdoc as <-|injection Hdoc as <-|rewrite Hdoc|rewrite Hdoc];
    simpl; by destruct (yaml_dump _ _).
Qed.

(** C2. For a state whose sequence is a non-empty list [l] of keyframes
    of the interface, each revision hands [yaml.dump] a document with
    exactly one animation, keyed by the animation name, whose [loop] is
    [true] and whose [steps] are the keyframes of [l] in order; the text
    [yaml.dump] returns for it is what is downloaded; and for the initial
    editor (name "wave", interval 10, one neutral keyframe) the document
    is [{ wave: { interval: 10, loop: true, steps: [neutral] } }]. *)
Theorem exportAnimation_document (r : revision) (s : State) (l : list KeyFrame)
    (p : Page) :
  frames s = array_of l →
  Forall is_KeyFrame l →
  l ≠ [] →
  (∃ doc entry,
     animation r s = Returns doc
     ∧ Doc.animations doc = {[ animationName s := entry ]}
     ∧ dom (Doc.animations doc) = {[ animationName s ]}
     ∧ Doc.loop entry = true
     ∧ Doc.steps entry = array_of l
     ∧ length_of (Doc.steps entry) = length l
     ∧ length_of (Doc.steps entry) ≠ 0%nat
     ∧ (∀ n : nat, get (Doc.steps entry) (Int (Z.of_nat n)) = l !! n)
     ∧ (∀ text, yaml_dump doc (dump_options r) = Returns text →
          exportAnimation r s p = Returns (download (download_name r s) text p)))
  ∧ animation r initial_state
    = Returns (Doc.mk {[ "wave" := Doc.mkAnimation (num 10) true
                                      (array_of [defaultFrame]) ]}).
Proof.
  intros Hfr Hl Hne. split.
  - pose proof (animation_KeyFrames r s l Hfr Hl) as Hdoc.
    eexists _, _. split; [exact Hdoc|]. cbn [Doc.animations Doc.loop Doc.steps].
    split; [reflexivity|]. split; [apply dom_singleton_L|].
    split; [reflexivity|]. split; [reflexivity|].
    assert (Hlen : length_of (array_of l) = length l)
      by (unfold length_of, array_of; simpl; apply length_fmap).
    split; [exact Hlen|].
    split; [cbn [Doc.steps]; rewrite Hlen; by destruct l|].
    split; [apply get_array_of|].
    intros text Htext. rewrite (exportAnimation_dump r s p _ Hdoc).
    by rewrite Htext.
  - rewrite (animation_KeyFrames r initial_state [defaultFrame]);
      [|done|repeat constructor; apply is_KeyFrame_defaultFrame].
    by destruct r.
Qed.
End exporter.

Lemma exportAnimation_document_witness :
  let s := initial_state in
  let p := mkPage [] [] in
  (∃ doc entry,
     animation part_001a s = Returns doc
     ∧ Doc.animations doc = {[ animationName s := entry ]}
     ∧ dom (Doc.animations doc) = {[ animationName s ]}
     ∧ Doc.loop entry = true
     ∧ Doc.steps entry = array_of [defaultFrame]
     ∧ length_of (Doc.steps entry) = length [defaultFrame]
     ∧ length_of (Doc.steps entry) ≠ 0%nat
     ∧ (∀ n : nat, get (Doc.steps entry) (Int (Z.of_nat n)) = [defaultFrame] !! n)
     ∧ (∀ text, @yaml_dump yaml_text doc (dump_options part_001a) = Returns text →
          @exportAnimation yaml_text part_001a s p
          = Returns (download (download_name part_001a s) text p)))
  ∧ animation part_001a initial_state
    = Returns (Doc.mk {[ "wave" := Doc.mkAnimation (num 10) true
                                      (array_of [defaultFrame]) ]}).
Proof.
  apply (@exportAnimation_document yaml_text part_001a initial_state [defaultFrame]
           (mkPage [] [])).
  - reflexivity.
  - repeat constructor. apply is_KeyFrame_defaultFrame.
  - discriminate.
Defined.

(** The guarded exporters always write [Math.max(1, Math.floor(interval))],
    a whole number not below 1 whenever the stored interval is finite. *)
Lemma Part001_interval_normalised (r : revision) (s : State) (doc : Doc.t) :
  r = part_001a ∨ r = part_001b →
  animation r s = Returns doc →
  ∃ entry, Doc.animations doc = {[ animationName s := entry ]}
    ∧ Doc.interval entry = Math_max (num 1) (Math_floor (interval s))
    ∧ ∀ q, interval s = Finite q →
        Doc.interval entry = num (Z.max 1 (Qfloor q)) ∧ 1 ≤ Z.max 1 (Qfloor q).
Proof.
  intros [-> | ->]; simpl;
    unfold Part001a.animation, Part001b.animation;
    destruct (map_array _ (frames s)); simpl; intros [= <-];
    (eexists; split; [reflexivity|]; split; [reflexivity|]);
    intros q ->; simpl; (split; [apply Math_max_floor_finite|lia]).
Qed.

Section export_state.
Context `{!js_yaml}.

(** No revision's exporter sets a state cell, sets [animationRef] or
    touches the scheduled callbacks. *)
Lemma step_export_state (r : revision) (w : World) :
  state (step r w ClickExport) = state w
  ∧ animationRef (step r w ClickExport) = animationRef w
  ∧ scheduled (step r w ClickExport) = scheduled w.
Proof. simpl. by destruct (exportAnimation r (state w) (page w)). Qed.

(** The unguarded exporters pass an exception of [yaml.dump] on to their
    caller; nothing is downloaded or logged by them. *)
Lemma unguarded_export_throws (r : revision) (s : State) (p : Page) (e : exn) :
  r = animate_tsx ∨ r = part_000 →
  (∀ doc, animation r s = Returns doc → yaml_dump doc (dump_options r) = Throws e) →
  exportAnimation r s p = Throws e.
Proof.
  intros [-> | ->] Hdump; simpl in *;
    unfold AnimateTsx.exportAnimation, Part000.exportAnimation;
    by rewrite (Hdump _ eq_refl).
Qed.

(** The guarded exporters return in every case; a failure of [yaml.dump]
    ends in [console.error] with no download. *)
Lemma guarded_export_returns (r : revision) (s : State) (p : Page) :
  r = part_001a ∨ r = part_001b →
  ∃ p', exportAnimation r s p = Returns p'
    ∧ ((∃ text, p' = download (download_name r s) text p)
       ∨ (∃ e, p' = mkPage (downloads p) (console_error p ++ [e]))).
Proof.
  intros Hr.
  destruct (animation r s) as [doc|e] eqn:Hdoc.
  - rewrite (exportAnimation_dump r s p doc Hdoc).
    destruct (yaml_dump doc (dump_options r)) as [text|e]; [eauto|].
    destruct Hr as [-> | ->]; eauto.
  - destruct Hr as [-> | ->]; simpl in *;
      unfold Part001a.exportAnimation, Part001b.exportAnimation;
      rewrite Hdoc; simpl; eauto.
Qed.

Lemma guarded_export_failure (r : revision) (s : State) (p : Page) (doc : Doc.t)
    (e : exn) :
  r = part_001a ∨ r = part_001b →
  animation r s = Returns doc →
  yaml_dump doc (dump_options r) = Throws e →
  exportAnimation r s p = Returns (mkPage (downloads p) (console_error p ++ [e])).
Proof.
  intros Hr Hdoc Hdump. rewrite (exportAnimation_dump r s p doc Hdoc), Hdump.
  by destruct Hr as [-> | ->].
Qed.
End export_state.

(** C1. [Animate.tsx] and [part_000] write the stored interval into the
    document as it is: for every state the entry's [interval] is the
    state's, so a stored 0 or -5 is exported as 0 or -5, not as 1; the
    interval field of these revisions stores 0 or -5 when typed.  The two
    files of [part_001] export 1 for both. *)
Theorem exportAnimation_interval_as_stored :
  (∀ s, animation animate_tsx s
        = Returns (Doc.mk {[ animationName s :=
                     Doc.mkAnimation (interval s) true (frames s) ]}))
  ∧ (∀ s, animation part_000 s
          = Returns (Doc.mk {[ animationName s :=
                       Doc.mkAnimation (interval s) true (frames s) ]}))
  ∧ interval (state (@step yaml_text animate_tsx initial_world (ChangeInterval (num 0))))
    = num 0
  ∧ animation animate_tsx (setInterval (num 0) initial_state)
    = Returns (Doc.mk {[ "wave" := Doc.mkAnimation (num 0) true
                                      (array_of [defaultFrame]) ]})
  ∧ animation animate_tsx (setInterval (num (-5)) initial_state)
    = Returns (Doc.mk {[ "wave" := Doc.mkAnimation (num (-5)) true
                                      (array_of [defaultFrame]) ]})
  ∧ num 0 ≠ num 1 ∧ num (-5) ≠ num 1
  ∧ animation part_001a (setInterval (num 0) initial_state)
    = Returns (Doc.mk {[ "wave" := Doc.mkAnimation (num 1) true
                                      (array_of [defaultFrame]) ]})
  ∧ animation part_001b (setInterval (num (-5)) initial_state)
    = Returns (Doc.mk {[ "wave" := Doc.mkAnimation (num 1) true
                                      (array_of [defaultFrame]) ]}).
Proof.
  repeat split; done.
Qed.

(** ** Rendering a missing keyframe *)

Lemma get_out_of_range (a : JSArray) (z : Z) :
  props a = ∅ → z < 0 ∨ Z.of_nat (length_of a) ≤ z → get a (Int z) = None.
Proof.
  intros Hp Hz. unfold get. destruct (decide (0 ≤ z)).
  - rewrite lookup_ge_None_2; [done|]. unfold length_of in Hz. lia.
  - rewrite Hp. apply lookup_empty.
Qed.

Lemma useFrame_defaultFrame :
  ArmorStand.useFrame (Some defaultFrame)
  = Returns (replicate 5 (Some (num 0), Some (num 0), Some (num 0))).
Proof. reflexivity. Qed.

(** With the fallback of [currentFrameData], a missing keyframe renders the
    neutral pose, and [ArmorStand] reads fifteen zero angles from it. *)
Lemma render_falls_back (r : revision) (s : State) (z : Z) :
  r ≠ part_000 →
  currentFrame s = Int z →
  props (frames s) = ∅ →
  z < 0 ∨ Z.of_nat (length_of (frames s)) ≤ z →
  render r s = Returns defaultFrame
  ∧ (f ← render r s; ArmorStand.useFrame (Some f))
    = Returns (replicate 5 (Some (num 0), Some (num 0), Some (num 0))).
Proof.
  intros Hr Hc Hp Hz.
  assert (render r s = Returns defaultFrame) as ->; [|done].
  destruct r; try done; simpl;
    unfold AnimateTsx.render, AnimateTsx.currentFrameData,
           Part001a.render, Part001a.currentFrameData,
           Part001b.render, Part001b.currentFrameData;
    by rewrite Hc, get_out_of_range.
Qed.

Lemma set_props_empty (a : JSArray) (i : index) (f g : KeyFrame) :
  props a = ∅ → get a i = Some g → props (set a i f) = ∅.
Proof.
  intros Hp Hg. unfold get, set in *.
  destruct i as [z|]; [|by rewrite Hp, lookup_empty in Hg].
  destruct (decide (0 ≤ z)); [|by rewrite Hp, lookup_empty in Hg].
  by destruct (decide _).
Qed.

Lemma unguarded_update_props (r : revision) (part : Joint.t) (axis : Axis.t)
    (value : number) (s s' : State) :
  r = animate_tsx ∨ r = part_000 →
  updateCurrentFrame r part axis value s = Returns s' →
  props (frames s') = ∅.
Proof.
  intros Hr.
  assert (updateCurrentFrame r = AnimateTsx.updateCurrentFrame) as ->
    by by destruct Hr as [-> | ->].
  unfold AnimateTsx.updateCurrentFrame.
  destruct (get _ (currentFrame s)) eqn:G; [|done].
  intros [= <-]. simpl. by eapply set_props_empty.
Qed.

(** Without the fallback, a missing keyframe makes rendering throw. *)
Lemma Part000_render_without_keyframe (s : State) :
  get (frames s) (currentFrame s) = None →
  render part_000 s = Throws TypeError
  ∧ ArmorStand.useFrame (get (frames s) (currentFrame s)) = Throws TypeError.
Proof. intros E. simpl. unfold Part000.render. by rewrite E. Qed.

(** No handler of [Animate.tsx] or [part_000] leaves a property outside the
    elements on the array it stores. *)
Lemma unguarded_props_empty `{!js_yaml} (r : revision) (w : World) :
  r = animate_tsx ∨ r = part_000 →
  reachable r w → props (frames (state w)) = ∅.
Proof.
  intros Hr [evs ->]. revert evs. apply (rev_ind (λ evs, _)); [done|].
  intros ev evs IH. unfold run in *. rewrite foldl_snoc.
  set (w := foldl (step r) initial_world evs) in *.
  destruct ev; simpl; try done.
  - by destruct Hr as [-> | ->].
  - destruct (updateCurrentFrame r part axis value (state w)) eqn:E; [|done].
    simpl. by eapply unguarded_update_props.
  - by destruct Hr as [-> | ->].
  - by destruct (exportAnimation r (state w) (page w)).
  - unfold playAnimation. destruct (isPlaying (state w)); simpl; [|done].
    destruct (animationRef w); [|done]. by destruct (decide _).
  - unfold refresh.
    assert (∀ l w0, frames (state (foldl (λ w hc, animate hc.2 w) w0 l))
                    = frames (state w0)) as ->; [|done].
    induction l as [|hc l IHl]; intros w0; [done|]. simpl. by rewrite IHl.
Qed.

(** C6. [part_000] hands [frames[currentFrame]] to [Object.entries] and to
    [ArmorStand] without a fallback: with one keyframe and the active index
    1 or -1 rendering throws a [TypeError], and so would [ArmorStand] on the
    missing frame.  The other three revisions render the neutral pose there
    and [ArmorStand] reads zero angles from it. *)
Theorem Part000_render_throws_out_of_range :
  render part_000 (setCurrentFrame (Int 1) initial_state) = Throws TypeError
  ∧ render part_000 (setCurrentFrame (Int (-1)) initial_state) = Throws TypeError
  ∧ ArmorStand.useFrame (get (frames initial_state) (Int 1)) = Throws TypeError
  ∧ render animate_tsx (setCurrentFrame (Int 1) initial_state) = Returns defaultFrame
  ∧ render part_001a (setCurrentFrame (Int 1) initial_state) = Returns defaultFrame
  ∧ render part_001b (setCurrentFrame (Int (-1)) initial_state) = Returns defaultFrame
  ∧ ArmorStand.useFrame (Some defaultFrame)
    = Returns (replicate 5 (Some (num 0), Some (num 0), Some (num 0))).
Proof. repeat split. Qed.


(** ** The store: what the handlers share and what they write *)

#[local] Arguments Store.get : simpl never.
#[local] Arguments Store.set : simpl never.

Lemma lookup_old (h h' : Store.store) (l : Store.ref) :
  h `prefix_of` h' → (l < length h)%nat → h' !! l = h !! l.
Proof. intros [k ->] Hl. by apply lookup_app_l. Qed.

Lemma prefix_length_le (h h' : Store.store) : h `prefix_of` h' → (length h ≤ length h')%nat.
Proof. intros [k ->]. rewrite length_app. lia. Qed.

Lemma alloc_prefix (o : Store.object) (h : Store.store) : h `prefix_of` (Store.alloc o h).2.
Proof. by exists [o]. Qed.

(** An assignment into an array allocated after [h0] leaves [h0] as it is. *)
Lemma store_set_prefix (h0 h : Store.store) (arr : Store.ref) (i : index) (l : Store.ref) :
  h0 `prefix_of` h → (length h0 ≤ arr)%nat → h0 `prefix_of` Store.set h arr i l.
Proof.
  intros [k ->] Harr. unfold Store.set.
  destruct ((h0 ++ k) !! arr) as [[]|]; try by eexists.
  rewrite insert_app_r_alt by done. by eexists.
Qed.

Lemma store_length_set (h : Store.store) (arr : Store.ref) (i : index) (l : Store.ref) :
  length (Store.set h arr i l) = length h.
Proof. unfold Store.set. destruct (h !! arr) as [[]|]; try done. apply length_insert. Qed.

(** *** Values are stable when a closed store grows *)

Lemma angles_at_old (h h' : Store.store) (l : Store.ref) :
  h `prefix_of` h' → (l < length h)%nat → Store.angles_at h' l = Store.angles_at h l.
Proof. intros Hp Hl. unfold Store.angles_at. by rewrite (lookup_old h h'). Qed.

Lemma fields_at_old (h h' : Store.store) (l : Store.ref) :
  h `prefix_of` h' → (l < length h)%nat → Store.fields_at h' l = Store.fields_at h l.
Proof. intros Hp Hl. unfold Store.fields_at. by rewrite (lookup_old h h'). Qed.

Lemma elems_at_old (h h' : Store.store) (l : Store.ref) :
  h `prefix_of` h' → (l < length h)%nat → Store.elems_at h' l = Store.elems_at h l.
Proof. intros Hp Hl. unfold Store.elems_at. by rewrite (lookup_old h h'). Qed.

Lemma props_at_old (h h' : Store.store) (l : Store.ref) :
  h `prefix_of` h' → (l < length h)%nat → Store.props_at h' l = Store.props_at h l.
Proof. intros Hp Hl. unfold Store.props_at. by rewrite (lookup_old h h'). Qed.

Lemma fields_at_closed (h : Store.store) (l : Store.ref) (j : Joint.t) (a : Store.ref) :
  Store.closed h → Store.fields_at h l !! j = Some a → (a < length h)%nat.
Proof.
  intros Hc. unfold Store.fields_at. destruct (h !! l) as [[]|] eqn:E; try done.
  intros Hj. by apply (Hc l _ E j a).
Qed.

Lemma elems_at_closed (h : Store.store) (arr l : Store.ref) :
  Store.closed h → Store.ERef l ∈ Store.elems_at h arr → (l < length h)%nat.
Proof.
  intros Hc. unfold Store.elems_at. destruct (h !! arr) as [[]|] eqn:E;
    try (by intros ?%elem_of_nil).
  intros Hin. by apply (Hc arr _ E).
Qed.

Lemma props_at_closed (h : Store.store) (arr : Store.ref) (i : index) (l : Store.ref) :
  Store.closed h → Store.props_at h arr !! i = Some l → (l < length h)%nat.
Proof.
  intros Hc. unfold Store.props_at. destruct (h !! arr) as [[]|] eqn:E; try done.
  intros Hin. by eapply (Hc arr _ E).
Qed.

Lemma store_get_closed (h : Store.store) (arr : Store.ref) (i : index) (l : Store.ref) :
  Store.closed h → Store.get h arr i = Some l → (l < length h)%nat.
Proof.
  intros Hc. unfold Store.get.
  assert (∀ n, (Store.elems_at h arr !! n) ≫= Store.element_ref = Some l → (l < length h)%nat).
  { intros n. destruct (Store.elems_at h arr !! n) as [[]|] eqn:E; try done.
    intros [= ->]. eapply elems_at_closed; [done|].
    by eapply list_elem_of_lookup_2. }
  destruct i as [z|]; [destruct (decide (0 ≤ z))|]; eauto using props_at_closed.
Qed.

(** The value of a frame whose references lie in [h]. *)
Lemma fmap_angles_at_old (h h' : Store.store) (f : gmap Joint.t Store.ref) :
  h `prefix_of` h' → (∀ j a, f !! j = Some a → (a < length h)%nat) →
  Store.angles_at h' <$> f = Store.angles_at h <$> f.
Proof.
  intros Hp Hf. apply map_eq. intros j. rewrite !lookup_fmap.
  destruct (f !! j) as [a|] eqn:E; [|done]. simpl.
  by rewrite (angles_at_old h h') by eauto.
Qed.

Lemma frame_value_old (h h' : Store.store) (l : Store.ref) :
  Store.closed h → h `prefix_of` h' → (l < length h)%nat →
  Store.frame_value h' l = Store.frame_value h l.
Proof.
  intros Hc Hp Hl. unfold Store.frame_value. rewrite (fields_at_old h h') by done.
  apply fmap_angles_at_old; [done|]. intros j a. by apply fields_at_closed.
Qed.

Lemma slot_of_old (h h' : Store.store) (es : list Store.element) :
  Store.closed h → h `prefix_of` h' → (∀ l, Store.ERef l ∈ es → (l < length h)%nat) →
  Store.slot_of h' <$> es = Store.slot_of h <$> es.
Proof.
  intros Hc Hp Hes. apply list_fmap_ext. intros n e Hn.
  destruct e as [| |l]; try done. simpl.
  rewrite (frame_value_old h h'); [done..|].
  apply Hes. by eapply list_elem_of_lookup_2.
Qed.

(** Everything reachable from a reference of [h] reads the same in a store
    that extends [h]: an array held by an earlier render, or by the
    callback of the playback loop, keeps its keyframes and their angles. *)
Lemma array_value_old (h h' : Store.store) (arr : Store.ref) :
  Store.closed h → h `prefix_of` h' → (arr < length h)%nat →
  Store.array_value h' arr = Store.array_value h arr.
Proof.
  intros Hc Hp Hl. unfold Store.array_value.
  rewrite (elems_at_old h h'), (props_at_old h h') by done.
  f_equal.
  - apply slot_of_old; [done..|]. intros l. by apply elems_at_closed.
  - apply map_eq. intros i. rewrite !lookup_fmap.
    destruct (Store.props_at h arr !! i) as [l|] eqn:E; [|done]. simpl.
    rewrite (frame_value_old h h'); [done..|]. by eapply props_at_closed.
Qed.

(** *** The two embeddings agree *)

Lemma get_array_value (h : Store.store) (arr : Store.ref) (i : index) :
  get (Store.array_value h arr) i = Store.frame_value h <$> Store.get h arr i.
Proof.
  unfold get, Store.get, Store.array_value. simpl.
  assert (∀ n, (Store.slot_of h <$> Store.elems_at h arr) !! n ≫= slot_value
               = Store.frame_value h <$> (Store.elems_at h arr !! n ≫= Store.element_ref)) as He.
  { intros n. rewrite list_lookup_fmap.
    by destruct (Store.elems_at h arr !! n) as [[]|]. }
  destruct i as [z|]; [destruct (decide (0 ≤ z))|];
    by rewrite ?He, ?lookup_fmap.
Qed.

Lemma iterate_array_value (h : Store.store) (arr : Store.ref) :
  iterate (Store.array_value h arr) = Store.slot_of h <$> Store.iterate h arr.
Proof.
  unfold iterate, Store.iterate, Store.array_value. simpl.
  rewrite <- !list_fmap_compose. apply list_fmap_ext. by intros n [].
Qed.

Lemma iterate_closed (h : Store.store) (arr l : Store.ref) :
  Store.closed h → Store.ERef l ∈ Store.iterate h arr → (l < length h)%nat.
Proof.
  intros Hc. unfold Store.iterate. intros (e & He & Hin)%list_elem_of_fmap.
  destruct e; try done. injection He as ->. by eapply elems_at_closed.
Qed.


(** *** Closed stores stay closed *)

Lemma closed_object_mono (n m : nat) (o : Store.object) :
  (n ≤ m)%nat → Store.closed_object n o → Store.closed_object m o.
Proof.
  intros Hnm. destruct o as [a|f|es ps]; simpl; [done| |].
  - intros Hf j a Hj. specialize (Hf j a Hj). lia.
  - intros [He Hp]. split.
    + intros l Hl. specialize (He l Hl). lia.
    + intros i l Hl. specialize (Hp i l Hl). lia.
Qed.

Lemma closed_alloc (h : Store.store) (o : Store.object) :
  Store.closed h → Store.closed_object (length h) o → Store.closed (h ++ [o]).
Proof.
  intros Hc Ho l o' Hl. rewrite length_app. simpl.
  apply lookup_app_Some in Hl as [Hl|[_ Hl]].
  - eapply closed_object_mono; [|by eapply Hc]. lia.
  - apply list_lookup_singleton_Some in Hl as [_ <-].
    eapply closed_object_mono; [|done]. lia.
Qed.

Lemma closed_set (h : Store.store) (arr : Store.ref) (i : index) (l : Store.ref) :
  Store.closed h → (l < length h)%nat → Store.closed (Store.set h arr i l).
Proof.
  intros Hc Hl. unfold Store.set.
  destruct (h !! arr) as [[a|f|es ps]|] eqn:E; try done.
  destruct (Hc arr _ E) as [Hes Hps].
  intros x o Hx. rewrite length_insert.
  destruct (decide (arr = x)) as [<-|Hne]; [|rewrite list_lookup_insert_ne in Hx by done; by eapply Hc].
  rewrite list_lookup_insert_eq in Hx by by eapply lookup_lt_Some.
  injection Hx as <-.
  assert (Hprops : Store.closed_object (length h) (Store.OArray es (<[i := l]> ps))).
  { split; [done|]. intros i' l' Hi'.
    apply lookup_insert_Some in Hi' as [[_ <-]|[_ Hi']]; eauto. }
  destruct i as [z|]; [|done]. destruct (decide (0 ≤ z)); [|done].
  destruct (decide _); (split; [|done]); intros l' Hl'.
  - apply list_elem_of_lookup in Hl' as [n Hn].
    destruct (decide (Z.to_nat z = n)) as [<-|Hne].
    + rewrite list_lookup_insert_eq in Hn by done. by injection Hn as <-.
    + rewrite list_lookup_insert_ne in Hn by done.
      apply Hes. by eapply list_elem_of_lookup_2.
  - rewrite !elem_of_app in Hl'. destruct Hl' as [Hl'|[Hl'|Hl']].
    + by apply Hes.
    + by apply elem_of_replicate in Hl' as [? _].
    + apply list_elem_of_singleton in Hl'. by injection Hl' as ->.
Qed.

(** *** The in-place assignment seen through the values *)

Lemma angles_at_set (h : Store.store) (arr : Store.ref) (i : index) (l x : Store.ref) :
  Store.angles_at (Store.set h arr i l) x = Store.angles_at h x.
Proof.
  unfold Store.set. destruct (h !! arr) as [[a|f|es ps]|] eqn:E; try done.
  unfold Store.angles_at. destruct (decide (arr = x)) as [<-|Hne].
  - rewrite list_lookup_insert_eq by by eapply lookup_lt_Some.
    rewrite E. destruct i as [z|]; [|done].
    destruct (decide (0 ≤ z)); [|done]. by destruct (decide _).
  - by rewrite list_lookup_insert_ne.
Qed.

Lemma fields_at_set (h : Store.store) (arr : Store.ref) (i : index) (l x : Store.ref) :
  Store.fields_at (Store.set h arr i l) x = Store.fields_at h x.
Proof.
  unfold Store.set. destruct (h !! arr) as [[a|f|es ps]|] eqn:E; try done.
  unfold Store.fields_at. destruct (decide (arr = x)) as [<-|Hne].
  - rewrite list_lookup_insert_eq by by eapply lookup_lt_Some.
    rewrite E. destruct i as [z|]; [|done].
    destruct (decide (0 ≤ z)); [|done]. by destruct (decide _).
  - by rewrite list_lookup_insert_ne.
Qed.

(** The assignment changes no keyframe and no angle: it only redirects one
    position of the array. *)
Lemma frame_value_set (h : Store.store) (arr : Store.ref) (i : index) (l x : Store.ref) :
  Store.frame_value (Store.set h arr i l) x = Store.frame_value h x.
Proof.
  unfold Store.frame_value. rewrite fields_at_set.
  apply map_fmap_ext. intros j a _. apply angles_at_set.
Qed.

Lemma array_value_set (h : Store.store) (arr : Store.ref) (i : index) (l : Store.ref)
    (es : list Store.element) (ps : gmap index Store.ref) :
  h !! arr = Some (Store.OArray es ps) →
  Store.array_value (Store.set h arr i l) arr
  = set (Store.array_value h arr) i (Store.frame_value h l).
Proof.
  intros E.
  assert (Hlt : (arr < length h)%nat) by by eapply lookup_lt_Some.
  assert (Hslot : ∀ es' : list Store.element,
            Store.slot_of (Store.set h arr i l) <$> es' = Store.slot_of h <$> es').
  { intros es'. apply list_fmap_ext. intros n [| |x] _; try done. simpl.
    by rewrite frame_value_set. }
  assert (Hprop : ∀ ps' : gmap index Store.ref,
            Store.frame_value (Store.set h arr i l) <$> ps'
            = Store.frame_value h <$> ps').
  { intros ps'. apply map_fmap_ext. intros k x _. apply frame_value_set. }
  unfold Store.array_value. rewrite Hslot, Hprop.
  unfold Store.elems_at, Store.props_at, Store.set. rewrite E.
  rewrite list_lookup_insert_eq by done.
  unfold set. simpl.
  destruct i as [z|]; [|by rewrite fmap_insert].
  destruct (decide (0 ≤ z)); [|by rewrite fmap_insert].
  rewrite length_fmap.
  destruct (decide (Z.to_nat z < length es)%nat).
  - by rewrite list_fmap_insert.
  - by rewrite !fmap_app, fmap_replicate.
Qed.

(** *** The handlers: old objects untouched, same values as the first
    embedding *)

Lemma prefix_app_r_2 (h0 h : Store.store) (k : Store.store) :
  h0 `prefix_of` h → h0 `prefix_of` h ++ k.
Proof. intros [k' ->]. exists (k' ++ k). by rewrite app_assoc. Qed.

Lemma store_assign_updated (part : Joint.t) (axis : Axis.t) (value : number)
    (newFrames : Store.ref) (i : index) (h0 h : Store.store)
    (es : list Store.element) (ps : gmap index Store.ref) :
  Store.closed h → h0 `prefix_of` h → (length h0 ≤ newFrames)%nat →
  h !! newFrames = Some (Store.OArray es ps) →
  match Store.assign_updated part axis value newFrames i h with
  | Returns (fr', h') =>
      fr' = newFrames ∧ h0 `prefix_of` h' ∧ Store.closed h' ∧ (fr' < length h')%nat
      ∧ ∃ f, get (Store.array_value h newFrames) i = Some f
          ∧ Store.array_value h' fr'
            = set (Store.array_value h newFrames) i (updated f part axis value)
  | Throws e => e = TypeError ∧ get (Store.array_value h newFrames) i = None
  end.
Proof.
  intros Hc Hp Hnew E.
  assert (Hlt : (newFrames < length h)%nat) by by eapply lookup_lt_Some.
  unfold Store.assign_updated.
  destruct (Store.get h newFrames i) as [l|] eqn:G;
    [|by rewrite get_array_value, G].
  assert (Hl : (l < length h)%nat) by by eapply store_get_closed.
  simpl.
  set (fields := Store.fields_at h l).
  set (A := Store.OAngles (<[axis := value]> (Store.spread_angles h (fields !! part)))).
  set (F := Store.OFrame (<[part := length h]> fields)).
  replace (length (h ++ [A])) with (S (length h)) by (rewrite length_app; simpl; lia).
  set (h2 := (h ++ [A]) ++ [F]).
  assert (Hfields : ∀ j a, fields !! j = Some a → (a < length h)%nat)
    by (intros j a; by apply fields_at_closed).
  assert (Hp2 : h `prefix_of` h2) by (apply prefix_app_r_2; by exists [A]).
  assert (Hlen2 : length h2 = S (S (length h)))
    by (unfold h2; rewrite !length_app; simpl; lia).
  assert (Hc2 : Store.closed h2).
  { apply closed_alloc; [apply closed_alloc; done|].
    rewrite length_app. simpl. intros j a Hj.
    apply lookup_insert_Some in Hj as [[_ <-]|[_ Hj]]; [lia|].
    specialize (Hfields j a Hj). lia. }
  assert (E2 : h2 !! newFrames = Some (Store.OArray es ps))
    by by rewrite (lookup_old h h2).
  split; [done|]. split; [|split; [|split]].
  - apply store_set_prefix; [|done]. by etrans.
  - apply closed_set; [done|lia].
  - rewrite store_length_set. lia.
  - exists (Store.frame_value h l). split; [by rewrite get_array_value, G|].
    rewrite (array_value_set h2 newFrames i _ es ps E2).
    rewrite (array_value_old h h2) by done. f_equal.
    unfold Store.frame_value at 1, Store.fields_at at 1.
    assert (h2 !! S (length h) = Some F) as ->.
    { unfold h2. rewrite lookup_app_r by (rewrite length_app; simpl; lia).
      rewrite length_app. simpl. by replace (_ - _)%nat with 0%nat by lia. }
    unfold F. rewrite fmap_insert.
    rewrite (fmap_angles_at_old h h2) by done.
    unfold Store.angles_at at 1.
    assert (h2 !! length h = Some A) as ->.
    { unfold h2. rewrite lookup_app_l by (rewrite length_app; simpl; lia).
      rewrite lookup_app_r by lia. by rewrite Nat.sub_diag. }
    unfold A, updated, Store.frame_value. fold fields.
    rewrite lookup_fmap. by destruct (fields !! part).
Qed.

Lemma store_iterate_old (h h' : Store.store) (arr : Store.ref) :
  h `prefix_of` h' → (arr < length h)%nat → Store.iterate h' arr = Store.iterate h arr.
Proof. intros Hp Hl. unfold Store.iterate. by rewrite (elems_at_old h h'). Qed.

(** The copy of the array made by [[...frames]]. *)
Lemma store_copy_array (h : Store.store) (frames : Store.ref) :
  Store.closed h → (frames < length h)%nat →
  let h1 := h ++ [Store.OArray (Store.iterate h frames) ∅] in
  Store.closed h1
  ∧ h1 !! length h = Some (Store.OArray (Store.iterate h frames) ∅)
  ∧ Store.array_value h1 (length h) = mkArray (iterate (Store.array_value h frames)) ∅.
Proof.
  intros Hc Hl h1.
  assert (E : h1 !! length h = Some (Store.OArray (Store.iterate h frames) ∅))
    by (unfold h1; rewrite lookup_app_r by lia; by rewrite Nat.sub_diag).
  assert (Hp : h `prefix_of` h1) by by eexists.
  split; [|split; [done|]].
  - apply closed_alloc; [done|]. split; [|done].
    intros l. by apply iterate_closed.
  - unfold Store.array_value at 1, Store.elems_at, Store.props_at. rewrite E.
    rewrite fmap_empty, iterate_array_value. f_equal.
    apply slot_of_old; [done..|]. intros l. by apply iterate_closed.
Qed.

(** The guard [if (!newFrames[currentFrame]) newFrames[currentFrame] =
    { ...defaultFrame }] on the fresh copy. *)
Lemma store_guard (d nf : Store.ref) (i : index) (h h1 : Store.store)
    (es : list Store.element) (ps : gmap index Store.ref) :
  Store.closed h1 → h `prefix_of` h1 → (length h ≤ nf)%nat →
  h1 !! nf = Some (Store.OArray es ps) →
  (d < length h1)%nat → Store.frame_value h1 d = defaultFrame →
  let h2 :=
    match Store.get h1 nf i with
    | None =>
        let '(d', h) := Store.alloc (Store.OFrame (Store.spread_frame h1 (Some d))) h1 in
        Store.set h nf i d'
    | Some _ => h1
    end in
  Store.closed h2 ∧ h `prefix_of` h2
  ∧ (∃ es' ps', h2 !! nf = Some (Store.OArray es' ps'))
  ∧ Store.array_value h2 nf
    = match get (Store.array_value h1 nf) i with
      | None => set (Store.array_value h1 nf) i (spread (Some defaultFrame))
      | Some _ => Store.array_value h1 nf
      end.
Proof.
  intros Hc1 Hp Hnf E1 Hd Hdv. rewrite get_array_value.
  assert (Hnf1 : (nf < length h1)%nat) by by eapply lookup_lt_Some.
  destruct (Store.get h1 nf i) as [l|] eqn:G; simpl; [by eauto 10|].
  set (D := Store.OFrame (Store.fields_at h1 d)).
  assert (Hp1 : h1 `prefix_of` h1 ++ [D]) by by eexists.
  assert (Hc1D : Store.closed (h1 ++ [D])).
  { apply closed_alloc; [done|]. intros j a. by apply fields_at_closed. }
  assert (E1D : (h1 ++ [D]) !! nf = Some (Store.OArray es ps))
    by by rewrite (lookup_old h1 (h1 ++ [D])).
  split; [|split; [|split]].
  - apply closed_set; [done|]. rewrite length_app. simpl. lia.
  - apply store_set_prefix; [by etrans|done].
  - unfold Store.set. rewrite E1D.
    rewrite list_lookup_insert_eq by (rewrite length_app; lia).
    destruct i as [z|]; [destruct (decide (0 ≤ z)); [destruct (decide _)|]|]; eauto.
  - rewrite (array_value_set _ _ _ _ _ _ E1D).
    rewrite (array_value_old h1 (h1 ++ [D])) by done. f_equal.
    unfold Store.frame_value at 1, Store.fields_at at 1.
    rewrite lookup_app_r by lia. rewrite Nat.sub_diag. simpl.
    rewrite (fmap_angles_at_old h1 (h1 ++ [D])); [done|done|].
    intros j a. by apply fields_at_closed.
Qed.

(** [updateCurrentFrame] over the store: every object that existed before
    the call is as it was, and the array it returns holds the values the
    first embedding computes. *)
Lemma store_updateCurrentFrame (r : revision) (d : Store.ref) (part : Joint.t)
    (axis : Axis.t) (value : number) (fr : Store.ref) (h : Store.store) (s : State) :
  Store.closed h → (fr < length h)%nat → (d < length h)%nat →
  Store.frame_value h d = defaultFrame →
  frames s = Store.array_value h fr →
  match Store.updateCurrentFrame r d part axis value fr (currentFrame s) h,
        updateCurrentFrame r part axis value s with
  | Returns (fr', h'), Returns s' =>
      h `prefix_of` h' ∧ Store.closed h' ∧ (fr' < length h')%nat
      ∧ frames s' = Store.array_value h' fr'
  | Throws e, Throws e' => e = e'
  | _, _ => False
  end.
Proof.
  intros Hc Hfr Hd Hdv Hs.
  destruct (store_copy_array h fr Hc Hfr) as (Hc1 & E1 & Hv1).
  set (h1 := h ++ [Store.OArray (Store.iterate h fr) ∅]) in *.
  assert (Hp1 : h `prefix_of` h1) by by eexists.
  assert (Hassign : ∀ h2 es ps,
    Store.closed h2 → h `prefix_of` h2 →
    h2 !! length h = Some (Store.OArray es ps) →
    match Store.assign_updated part axis value (length h) (currentFrame s) h2,
          match get (Store.array_value h2 (length h)) (currentFrame s) with
          | None => Throws TypeError
          | Some f =>
              Returns (setFrames (set (Store.array_value h2 (length h)) (currentFrame s)
                                      (updated f part axis value)) s)
          end with
    | Returns (fr', h'), Returns s' =>
        h `prefix_of` h' ∧ Store.closed h' ∧ (fr' < length h')%nat
        ∧ frames s' = Store.array_value h' fr'
    | Throws e, Throws e' => e = e'
    | _, _ => False
    end).
  { intros h2 es ps Hc2 Hp2 E2.
    pose proof (store_assign_updated part axis value (length h) (currentFrame s)
                  h h2 es ps Hc2 Hp2 (Nat.le_refl _) E2) as Ha.
    destruct (Store.assign_updated _ _ _ _ _ h2) as [[fr' h']|e].
    - destruct Ha as (-> & Hp' & Hc' & Hl' & f & Hf & Hv'). rewrite Hf.
      simpl. by rewrite Hv'.
    - destruct Ha as [-> Hf]. by rewrite Hf. }
  assert (Hunguarded :
    match Store.updateCurrentFrame_unguarded part axis value fr (currentFrame s) h,
          AnimateTsx.updateCurrentFrame part axis value s with
    | Returns (fr', h'), Returns s' =>
        h `prefix_of` h' ∧ Store.closed h' ∧ (fr' < length h')%nat
        ∧ frames s' = Store.array_value h' fr'
    | Throws e, Throws e' => e = e'
    | _, _ => False
    end).
  { unfold AnimateTsx.updateCurrentFrame, Store.updateCurrentFrame_unguarded.
    simpl. fold h1. rewrite Hs, <- Hv1. by eapply Hassign. }
  assert (Hguarded :
    match Store.updateCurrentFrame_guarded d part axis value fr (currentFrame s) h,
          Part001a.updateCurrentFrame part axis value s with
    | Returns (fr', h'), Returns s' =>
        h `prefix_of` h' ∧ Store.closed h' ∧ (fr' < length h')%nat
        ∧ frames s' = Store.array_value h' fr'
    | Throws e, Throws e' => e = e'
    | _, _ => False
    end).
  { unfold Part001a.updateCurrentFrame, Store.updateCurrentFrame_guarded.
    simpl. fold h1. rewrite Hs, <- Hv1.
    destruct (store_guard d (length h) (currentFrame s) h h1 _ _ Hc1 Hp1
                (Nat.le_refl _) E1) as (Hc2 & Hp2 & (es & ps & E2) & Hv2).
    { apply prefix_length_le in Hp1. lia. }
    { by rewrite (frame_value_old h h1). }
    simpl in Hc2, Hp2, E2, Hv2.
    change (spread (Some defaultFrame)) with defaultFrame in Hv2.
    rewrite <- Hv2. by eapply Hassign. }
  by destruct r.
Qed.

(** The keyframe object appended by [addKeyFrame] has fields [fields],
    whose references lie in [h]. *)
Lemma store_append_copy (fr : Store.ref) (h : Store.store)
    (fields : gmap Joint.t Store.ref) :
  Store.closed h → (fr < length h)%nat →
  (∀ j a, fields !! j = Some a → (a < length h)%nat) →
  let h1 := h ++ [Store.OFrame fields] in
  let h2 := h1 ++ [Store.OArray (Store.iterate h1 fr ++ [Store.ERef (length h)]) ∅] in
  h `prefix_of` h2 ∧ Store.closed h2 ∧ (length h1 < length h2)%nat
  ∧ Store.get h2 (length h1) (Int (Z.of_nat (length_of (Store.array_value h fr))))
    = Some (length h)
  ∧ Store.fields_at h2 (length h) = fields
  ∧ Store.array_value h2 (length h1)
    = mkArray (iterate (Store.array_value h fr)
               ++ [Obj (Store.angles_at h <$> fields)]) ∅.
Proof.
  intros Hc Hfr Hfields h1 h2.
  assert (Hp1 : h `prefix_of` h1) by by eexists.
  assert (Hp12 : h1 `prefix_of` h2) by by eexists.
  assert (Hp2 : h `prefix_of` h2) by by etrans.
  assert (Hlen1 : length h1 = S (length h)) by (unfold h1; rewrite length_app; simpl; lia).
  assert (Hc1 : Store.closed h1) by by apply closed_alloc.
  assert (Hit : Store.iterate h1 fr = Store.iterate h fr) by by apply store_iterate_old.
  assert (Hc2 : Store.closed h2).
  { apply closed_alloc; [done|]. split; [|done]. intros l Hl.
    apply elem_of_app in Hl as [Hl|Hl].
    - by apply (iterate_closed h1 fr).
    - apply list_elem_of_singleton in Hl. injection Hl as ->. lia. }
  assert (E2 : h2 !! length h1
               = Some (Store.OArray (Store.iterate h1 fr ++ [Store.ERef (length h)]) ∅))
    by (unfold h2; rewrite lookup_app_r by lia; by rewrite Nat.sub_diag).
  assert (Ecopy : h2 !! length h = Some (Store.OFrame fields)).
  { rewrite (lookup_old h1 h2) by (done || lia).
    unfold h1. rewrite lookup_app_r by lia. by rewrite Nat.sub_diag. }
  assert (Hn : length_of (Store.array_value h fr) = length (Store.iterate h1 fr)).
  { unfold length_of, Store.array_value. simpl. rewrite Hit.
    unfold Store.iterate. by rewrite !length_fmap. }
  split; [done|]. split; [done|].
  split; [unfold h2; rewrite length_app; simpl; lia|].
  split; [|split].
  - unfold Store.get. destruct (decide _); [|lia]. rewrite Nat2Z.id.
    unfold Store.elems_at. rewrite E2, Hn.
    rewrite lookup_app_r by lia. by rewrite Nat.sub_diag.
  - unfold Store.fields_at. by rewrite Ecopy.
  - unfold Store.array_value at 1, Store.elems_at, Store.props_at.
    rewrite E2, fmap_empty, fmap_app. f_equal. f_equal.
    + rewrite Hit, iterate_array_value. apply slot_of_old; [done..|].
      intros l. by apply iterate_closed.
    + simpl. do 2 f_equal. unfold Store.frame_value, Store.fields_at.
      rewrite Ecopy. by apply fmap_angles_at_old.
Qed.

(** [addKeyFrame] over the store: every object that existed before is as
    it was; the appended keyframe is a new object holding the references of
    its source; the returned array has the values the first embedding
    computes. *)
Lemma store_addKeyFrame (r : revision) (d fr : Store.ref) (h : Store.store) (s : State) :
  Store.closed h → (fr < length h)%nat → (d < length h)%nat →
  Store.frame_value h d = defaultFrame →
  frames s = Store.array_value h fr →
  ∀ fr' h', Store.addKeyFrame r d fr (currentFrame s) h = (fr', h') →
  h `prefix_of` h' ∧ Store.closed h' ∧ (fr' < length h')%nat
  ∧ frames (addKeyFrame r s) = Store.array_value h' fr'
  ∧ Store.get h' fr' (Int (Z.of_nat (length_of (frames s)))) = Some (length h)
  ∧ ∀ src, Store.get h fr (currentFrame s) = Some src →
      Store.fields_at h' (length h) = Store.fields_at h src.
Proof.
  intros Hc Hfr Hd Hdv Hs fr' h'.
  assert (Hcase :
    ∀ fields : gmap Joint.t Store.ref,
      (∀ j a, fields !! j = Some a → (a < length h)%nat) →
      (∀ src, Store.get h fr (currentFrame s) = Some src →
              fields = Store.fields_at h src) →
      frames (addKeyFrame r s)
      = mkArray (iterate (Store.array_value h fr)
                 ++ [Obj (Store.angles_at h <$> fields)]) ∅ →
      Store.addKeyFrame r d fr (currentFrame s) h
      = (length (h ++ [Store.OFrame fields]),
         (h ++ [Store.OFrame fields])
         ++ [Store.OArray (Store.iterate (h ++ [Store.OFrame fields]) fr
                           ++ [Store.ERef (length h)]) ∅]) →
      Store.addKeyFrame r d fr (currentFrame s) h = (fr', h') →
      h `prefix_of` h' ∧ Store.closed h' ∧ (fr' < length h')%nat
      ∧ frames (addKeyFrame r s) = Store.array_value h' fr'
      ∧ Store.get h' fr' (Int (Z.of_nat (length_of (frames s)))) = Some (length h)
      ∧ ∀ src, Store.get h fr (currentFrame s) = Some src →
          Store.fields_at h' (length h) = Store.fields_at h src).
  { intros fields Hfields Hsrc Hval -> [= <- <-].
    destruct (store_append_copy fr h fields Hc Hfr Hfields)
      as (Hp & Hc' & Hlt & Hget & Hfl & Hv).
    rewrite Hs. repeat split; try done.
    - by rewrite Hval, Hv.
    - intros src Hsrc'. rewrite Hfl. by apply Hsrc. }
  assert (Hget : get (frames s) (currentFrame s)
                 = Store.frame_value h <$> Store.get h fr (currentFrame s))
    by (rewrite Hs; apply get_array_value).
  destruct r; simpl.
  1,2: apply (Hcase (Store.spread_frame h (Store.get h fr (currentFrame s))));
       [ intros j a; destruct (Store.get h fr (currentFrame s)) eqn:G; [|done];
         by apply fields_at_closed
       | by intros src ->
       | unfold AnimateTsx.addKeyFrame, Part000.addKeyFrame; simpl;
         rewrite Hget, Hs; by destruct (Store.get h fr (currentFrame s))
       | done ].
  1,2: apply (Hcase (Store.fields_at h
                       (or_else (Store.get h fr (currentFrame s)) d)));
       [ intros j a; by apply fields_at_closed
       | by intros src ->
       | unfold Part001a.addKeyFrame, Part001b.addKeyFrame; simpl;
         rewrite Hget, Hs, <- Hdv; by destruct (Store.get h fr (currentFrame s))
       | done ].
Qed.

Lemma store_initial :
  Store.closed Store.initial
  ∧ (Store.initial_frames < length Store.initial)%nat
  ∧ (Store.defaultFrame_ref < length Store.initial)%nat
  ∧ Store.frame_value Store.initial Store.defaultFrame_ref = defaultFrame
  ∧ frames initial_state = Store.array_value Store.initial Store.initial_frames
  ∧ Store.get Store.initial Store.initial_frames (Int 0) = Some Store.defaultFrame_ref.
Proof.
  split; [|repeat split; try (unfold Store.initial_frames, Store.defaultFrame_ref; simpl; lia);
           by vm_compute].
  intros l o Hl.
  assert (Hin : o ∈ Store.initial) by by eapply list_elem_of_lookup_2.
  unfold Store.initial in Hin.
  repeat (apply elem_of_cons in Hin as [->|Hin]); try done.
  - intros j a Hj. simpl. destruct j; simplify_map_eq; lia.
  - split; [|done]. intros x Hx. apply list_elem_of_singleton in Hx.
    injection Hx as ->. simpl. lia.
  - by apply elem_of_nil in Hin.
Qed.

(** C4. With [n] keyframes and a keyframe [f] at the active index [i],
    [addKeyFrame] returns [n+1] keyframes, the first [n] as before and the
    last equal to [f], with [n] as the active index, and an update of the
    new keyframe writes entry [(n, part, axis)] and leaves [f] at position
    [i] and every angle of the first [n] keyframes as they were.  Over the
    store of objects: the appended keyframe is a new object, it holds the
    same five references to angle objects as its source, and the update of
    it changes no object that existed before [addKeyFrame], so the source
    keyframe and the array of the earlier state read as before. *)
Theorem addKeyFrame_appends_independent_copy (r : revision) (s : State) (i : nat)
    (f : KeyFrame) (part : Joint.t) (axis : Axis.t) (value : number)
    (h : Store.store) (fr d src : Store.ref) :
  currentFrame s = Int (Z.of_nat i) →
  get (frames s) (Int (Z.of_nat i)) = Some f →
  Store.closed h → (fr < length h)%nat → (d < length h)%nat →
  Store.frame_value h d = defaultFrame →
  frames s = Store.array_value h fr →
  Store.get h fr (Int (Z.of_nat i)) = Some src →
  let n := length_of (frames s) in
  let s' := addKeyFrame r s in
  (length_of (frames s') = S n
   ∧ (∀ k : nat, (k < n)%nat →
        get (frames s') (Int (Z.of_nat k)) = get (frames s) (Int (Z.of_nat k)))
   ∧ get (frames s') (Int (Z.of_nat n)) = Some f
   ∧ currentFrame s' = Int (Z.of_nat n)
   ∧ animationName s' = animationName s
   ∧ interval s' = interval s
   ∧ isPlaying s' = isPlaying s)
  ∧ ∃ s'' fr1 h1 fr2 h2 copy,
      updateCurrentFrame r part axis value s' = Returns s''
      ∧ read s'' n part axis = Some value
      ∧ get (frames s'') (Int (Z.of_nat i)) = Some f
      ∧ (∀ (k : nat) part' axis', (k < n)%nat →
           read s'' k part' axis' = read s k part' axis')
      ∧ length_of (frames s'') = S n
      ∧ Store.addKeyFrame r d fr (Int (Z.of_nat i)) h = (fr1, h1)
      ∧ frames s' = Store.array_value h1 fr1
      ∧ Store.get h1 fr1 (Int (Z.of_nat n)) = Some copy
      ∧ copy ≠ src
      ∧ Store.fields_at h1 copy = Store.fields_at h src
      ∧ Store.updateCurrentFrame r d part axis value fr1 (Int (Z.of_nat n)) h1
        = Returns (fr2, h2)
      ∧ frames s'' = Store.array_value h2 fr2
      ∧ h `prefix_of` h2
      ∧ Store.frame_value h2 src = f
      ∧ Store.array_value h2 fr = frames s.
Proof.
  intros Hcur Hf Hc Hfr Hd Hdv Hs Hsrc n s'.
  destruct (addKeyFrame_then_update r s i f part axis value Hcur Hf)
    as (V1 & V2 & V3 & V4 & V5 & V6 & V7 & s'' & U1 & U2 & U3 & U4 & U5).
  fold n s' in V1, V2, V3, V4, V5, V6, V7, U1, U2, U3, U4, U5.
  split; [done|].
  destruct (Store.addKeyFrame r d fr (Int (Z.of_nat i)) h) as [fr1 h1] eqn:A.
  rewrite <- Hcur in A, Hsrc.
  destruct (store_addKeyFrame r d fr h s Hc Hfr Hd Hdv Hs fr1 h1 A)
    as (Hp1 & Hc1 & Hfr1 & Hs1 & Hget1 & Hshare).
  fold n s' in Hs1, Hget1.
  assert (Hsrclt : (src < length h)%nat) by by eapply store_get_closed.
  assert (Hd1 : (d < length h1)%nat) by (apply prefix_length_le in Hp1; lia).
  assert (Hdv1 : Store.frame_value h1 d = defaultFrame)
    by by rewrite (frame_value_old h h1).
  pose proof (store_updateCurrentFrame r d part axis value fr1 h1 s'
                Hc1 Hfr1 Hd1 Hdv1 Hs1) as Hupd.
  rewrite V4, U1 in Hupd.
  destruct (Store.updateCurrentFrame r d part axis value fr1 (Int (Z.of_nat n)) h1)
    as [[fr2 h2]|e] eqn:U; [|done].
  destruct Hupd as (Hp2 & Hc2 & Hfr2 & Hs2).
  assert (Hp : h `prefix_of` h2) by by etrans.
  exists s'', fr1, h1, fr2, h2, (length h).
  do 8 (split; [done|]).
  split; [lia|]. split; [by apply Hshare|].
  do 3 (split; [done|]). split.
  - rewrite (frame_value_old h h2) by done.
    rewrite Hs, get_array_value, <- Hcur, Hsrc in Hf. by injection Hf.
  - by rewrite (array_value_old h h2).
Qed.

Lemma addKeyFrame_appends_independent_copy_witness :
  let s := initial_state in
  let h := Store.initial in
  let fr := Store.initial_frames in
  let d := Store.defaultFrame_ref in
  let n := length_of (frames s) in
  let s' := addKeyFrame part_001a s in
  (length_of (frames s') = S n
   ∧ (∀ k : nat, (k < n)%nat →
        get (frames s') (Int (Z.of_nat k)) = get (frames s) (Int (Z.of_nat k)))
   ∧ get (frames s') (Int (Z.of_nat n)) = Some defaultFrame
   ∧ currentFrame s' = Int (Z.of_nat n)
   ∧ animationName s' = animationName s
   ∧ interval s' = interval s
   ∧ isPlaying s' = isPlaying s)
  ∧ ∃ s'' fr1 h1 fr2 h2 copy,
      updateCurrentFrame part_001a Joint.right_leg Axis.z (num 20) s' = Returns s''
      ∧ read s'' n Joint.right_leg Axis.z = Some (num 20)
      ∧ get (frames s'') (Int (Z.of_nat 0)) = Some defaultFrame
      ∧ (∀ (k : nat) part' axis', (k < n)%nat →
           read s'' k part' axis' = read s k part' axis')
      ∧ length_of (frames s'') = S n
      ∧ Store.addKeyFrame part_001a d fr (Int (Z.of_nat 0)) h = (fr1, h1)
      ∧ frames s' = Store.array_value h1 fr1
      ∧ Store.get h1 fr1 (Int (Z.of_nat n)) = Some copy
      ∧ copy ≠ d
      ∧ Store.fields_at h1 copy = Store.fields_at h d
      ∧ Store.updateCurrentFrame part_001a d Joint.right_leg Axis.z (num 20) fr1
          (Int (Z.of_nat n)) h1
        = Returns (fr2, h2)
      ∧ frames s'' = Store.array_value h2 fr2
      ∧ h `prefix_of` h2
      ∧ Store.frame_value h2 d = defaultFrame
      ∧ Store.array_value h2 fr = frames s.
Proof.
  destruct store_initial as (Hc & Hfr & Hd & Hdv & Hs & Hsrc).
  apply (addKeyFrame_appends_independent_copy part_001a initial_state 0 defaultFrame
           Joint.right_leg Axis.z (num 20) Store.initial Store.initial_frames
           Store.defaultFrame_ref Store.defaultFrame_ref); done.
Defined.

Example addKeyFrame_shares_angle_objects :
  let '(fr1, h1) := Store.addKeyFrame animate_tsx Store.defaultFrame_ref
                      Store.initial_frames (Int 0) Store.initial in
  Store.get h1 fr1 (Int 0) = Some 5%nat
  ∧ Store.get h1 fr1 (Int 1) = Some 7%nat
  ∧ Store.fields_at h1 5 !! Joint.head = Some 0%nat
  ∧ Store.fields_at h1 7 !! Joint.head = Some 0%nat
  ∧ match Store.updateCurrentFrame animate_tsx Store.defaultFrame_ref
            Joint.head Axis.x (num 30) fr1 (Int 1) h1 with
    | Returns (fr2, h2) =>
        (Store.get h2 fr2 (Int 1) ≫= λ l, Store.fields_at h2 l !! Joint.head)
        = Some 10%nat
        ∧ (Store.get h2 fr2 (Int 1) ≫= λ l, Store.fields_at h2 l !! Joint.left_arm)
          = Some 1%nat
        ∧ Store.angles_at h2 10 !! Axis.x = Some (num 30)
        ∧ Store.angles_at h2 0 !! Axis.x = Some (num 0)
        ∧ Store.frame_value h2 Store.defaultFrame_ref = defaultFrame
    | Throws _ => False
    end.
Proof. vm_compute. repeat split. Qed.

(** ** States reachable through the widgets are well typed *)

Lemma is_KeyFrame_updated (f : KeyFrame) (part : Joint.t) (axis : Axis.t)
    (value : number) :
  is_KeyFrame f → is_KeyFrame (updated f part axis value).
Proof.
  intros Hf j. unfold updated.
  destruct (decide (part = j)) as [<-|Hne].
  - rewrite lookup_insert_eq. eexists. split; [done|].
    destruct (Hf part) as (a & -> & Ha). simpl.
    intros ax. destruct (decide (axis = ax)) as [<-|Hax].
    + rewrite lookup_insert_eq. by eexists.
    + rewrite lookup_insert_ne by done. apply Ha.
  - rewrite lookup_insert_ne by done. apply Hf.
Qed.

Lemma length_of_array_of (l : list KeyFrame) : length_of (array_of l) = length l.
Proof. unfold length_of, array_of. simpl. apply length_fmap. Qed.

Section typed.
Context `{!js_yaml}.
Variable r : revision.

Lemma well_typed_step (w : World) (ev : event) :
  loop_invariant w → well_typed w → from_widgets w ev → well_typed (step r w ev).
Proof.
  intros (_ & _ & Hloop) ((l & Hfr & Hl) & (z & Hcur & Hz) & Hsched) Hev.
  rewrite Hfr, length_of_array_of in Hz.
  assert (Hget : get (frames (state w)) (currentFrame (state w)) = l !! Z.to_nat z)
    by (rewrite Hfr, Hcur, <- (Z2Nat.id z) at 1 by lia; apply get_array_of).
  destruct (lookup_lt_is_Some_2 l (Z.to_nat z)) as [f Hf]; [lia|].
  assert (Hkf : is_KeyFrame f) by (eapply Forall_lookup_1; eauto).
  assert (Hkeep : ∀ s', frames s' = frames (state w) →
                        currentFrame s' = currentFrame (state w) →
                        well_typed (with_state (λ _, s') w)).
  { intros s' Hf' Hc'. unfold well_typed. simpl. rewrite Hf', Hc'.
    split; [eauto|]. split; [|done].
    exists z. by rewrite Hfr, length_of_array_of. }
  destruct ev; cbn [step].
  - (* ClickAddKeyframe *)
    unfold well_typed, with_state. cbn [state scheduled].
    rewrite addKeyFrame_in_range with (f := f) by (by rewrite Hget). simpl.
    assert (Hnew : mkArray (iterate (frames (state w)) ++ [Obj f]) ∅ = array_of (l ++ [f])).
    { rewrite Hfr, iterate_array_of. unfold array_of. by rewrite fmap_app. }
    rewrite Hnew, !length_of_array_of, length_app. simpl.
    split; [|split].
    + eexists. split; [done|]. apply Forall_app. by split; [|constructor].
    + eexists. split; [done|]. rewrite Hfr, length_of_array_of. lia.
    + intros h c Hin. destruct (Hsched h c Hin) as [Hi Hle]. split; [done|].
      rewrite Hfr, length_of_array_of in Hle. lia.
  - (* ChangeAngle *)
    rewrite (updateCurrentFrame_in_range r (state w) (Z.to_nat z) f);
      [|by rewrite Z2Nat.id by lia|by rewrite Z2Nat.id, <- Hcur, Hget by lia].
    unfold well_typed, with_state. simpl.
    assert (Hnew : mkArray (<[Z.to_nat z := Obj (updated f part axis value)]>
                              (iterate (frames (state w)))) ∅
                   = array_of (<[Z.to_nat z := updated f part axis value]> l)).
    { rewrite Hfr, iterate_array_of. unfold array_of. by rewrite list_fmap_insert. }
    rewrite Hnew, !length_of_array_of, length_insert.
    split; [|split].
    + eexists. split; [done|]. apply Forall_insert; [done|].
      by apply is_KeyFrame_updated.
    + eauto.
    + intros h c Hin. destruct (Hsched h c Hin) as [Hi Hle]. split; [done|].
      by rewrite Hfr, length_of_array_of in Hle.
  - (* ChangeTimeline *)
    destruct Hev as (z' & -> & Hz'). unfold well_typed. simpl.
    split; [eauto|]. split; [eauto|done].
  - (* ChangeName *)
    by apply (Hkeep (setAnimationName name (state w))).
  - (* ChangeInterval *)
    destruct (onIntervalChange_keeps r value (state w)) as (_ & Hf' & Hc').
    by apply (Hkeep (onIntervalChange r value (state w))).
  - (* ClickExport *)
    destruct (exportAnimation r (state w) (page w)); unfold well_typed; simpl;
      (split; [eauto|]; split; [|done]); exists z;
      by rewrite Hfr, length_of_array_of.
  - (* ClickPlay *)
    destruct (isPlaying (state w)) eqn:Hp.
    + destruct Hloop as (h & c & Hs & Href & Hh & _).
      rewrite (playAnimation_stop w h c) by done.
      unfold well_typed. simpl. split; [eauto|]. split.
      * exists z. by rewrite Hfr, length_of_array_of.
      * by intros ?? ?%elem_of_nil.
    + rewrite playAnimation_start by done.
      unfold well_typed. simpl. rewrite Hloop. split; [eauto|]. split.
      * exists z. by rewrite Hfr, length_of_array_of.
      * intros h c Hin. apply list_elem_of_singleton in Hin as [= -> ->]. simpl.
        split; [|done]. exists z. by rewrite Hfr, length_of_array_of.
  - (* Refresh *)
    destruct (isPlaying (state w)) eqn:Hp.
    + destruct Hloop as (h & c & Hs & Href & Hh & Hn).
      destruct (Hsched h c) as [(k & Hk & Hkr) Hle]; [rewrite Hs; by left|].
      rewrite (refresh_one w h c Hs). cbn [frameIndex closure_frames].
      rewrite Hk, succ_rem_in_range by (lia || done).
      assert (Hmod : 0 ≤ (k + 1) mod Z.of_nat (length_of (closure_frames c))
                     < Z.of_nat (length_of (closure_frames c)))
        by (apply Z.mod_pos_bound; lia).
      unfold well_typed. simpl. split; [eauto|]. split.
      * eexists. split; [done|]. lia.
      * intros h' c' Hin. apply list_elem_of_singleton in Hin as [= -> ->]. simpl.
        split; [eauto|done].
    + rewrite refresh_idle by done. unfold well_typed.
      split; [eauto|]. split; [|done]. exists z. by rewrite Hfr, length_of_array_of.
Qed.

Lemma ui_reachable_reachable (w : World) : ui_reachable r w → reachable r w.
Proof.
  induction 1 as [|w ev _ [evs ->] _]; [by exists []|].
  exists (evs ++ [ev]). unfold run. by rewrite foldl_snoc.
Qed.

(** Every state the widgets can lead to has a dense, non-empty sequence of
    complete keyframes and an active index inside it: the hypotheses of the
    properties above hold in all of them. *)
Lemma ui_reachable_well_typed (w : World) : ui_reachable r w → well_typed w.
Proof.
  induction 1 as [|w ev Hw IH Hev].
  - split; [|split].
    + exists [defaultFrame]. split; [done|]. repeat constructor.
      apply is_KeyFrame_defaultFrame.
    + exists 0. split; [done|]. unfold length_of. simpl. lia.
    + by intros ?? ?%elem_of_nil.
  - apply well_typed_step; [|done..].
    by apply loop_invariant_reachable with (r := r), ui_reachable_reachable.
Qed.
End typed.

(** ** What the revisions do at an index without a keyframe *)

Example AnimateTsx_addKeyFrame_out_of_range :
  let s := AnimateTsx.addKeyFrame (setCurrentFrame (Int 3) initial_state) in
  frames s = mkArray [Obj defaultFrame; Obj ∅] ∅ ∧ currentFrame s = Int 1.
Proof. split; reflexivity. Qed.

Example AnimateTsx_updateCurrentFrame_out_of_range :
  AnimateTsx.updateCurrentFrame Joint.head Axis.x (num 30)
    (setCurrentFrame (Int 3) initial_state) = Throws TypeError.
Proof. reflexivity. Qed.

Example Part001a_addKeyFrame_out_of_range :
  let s := Part001a.addKeyFrame (setCurrentFrame (Int 3) initial_state) in
  frames s = array_of [defaultFrame; defaultFrame] ∧ currentFrame s = Int 1.
Proof. split; reflexivity. Qed.

Example Part001a_updateCurrentFrame_beyond_length :
  ∃ s, Part001a.updateCurrentFrame Joint.head Axis.x (num 30)
         (setCurrentFrame (Int 3) initial_state) = Returns s
    ∧ frames s = mkArray [Obj defaultFrame; Hole; Hole;
                          Obj (updated defaultFrame Joint.head Axis.x (num 30))] ∅
    ∧ (s' ← Part001a.updateCurrentFrame Joint.head Axis.y (num 5) s;
       Part001a.animation s') = Throws TypeError.
Proof. eexists. split; [reflexivity|]. split; [|reflexivity]. by vm_compute. Qed.

Example Part001a_updateCurrentFrame_negative_index :
  ∃ s, Part001a.updateCurrentFrame Joint.head Axis.x (num 30)
         (setCurrentFrame (Int (-1)) initial_state) = Returns s
    ∧ elems (frames s) = [Obj defaultFrame]
    ∧ props (frames s) !! Int (-1)
      = Some (updated defaultFrame Joint.head Axis.x (num 30))
    ∧ Part001a.currentFrameData s = updated defaultFrame Joint.head Axis.x (num 30).
Proof. eexists. split; [reflexivity|]. by vm_compute. Qed.

Example exportAnimation_rounds_interval_down :
  Part001b.animation (setInterval (Finite (5 # 2)) initial_state)
  = Returns (Doc.mk {[ "wave" := Doc.mkAnimation (num 2) true
                                    (array_of [defaultFrame]) ]})
  ∧ Math_max (num 1) (Math_floor NaN) = NaN
  ∧ Math_max (num 1) (Math_floor NegInfinity) = num 1
  ∧ Math_max (num 1) (Math_floor PosInfinity) = PosInfinity.
Proof. repeat split. Qed.

(** * Further properties of the handlers *)

(** ** An index without a keyframe *)

Lemma length_of_iterate_copy (a : JSArray) :
  length_of (mkArray (iterate a) ∅) = length_of a.
Proof. apply length_iterate. Qed.

Lemma get_set_nat_other (a : JSArray) (n m : nat) (f : KeyFrame) :
  n ≠ m → get (set a (Int (Z.of_nat n)) f) (Int (Z.of_nat m)) = get a (Int (Z.of_nat m)).
Proof.
  intros Hne. destruct (decide (n < length_of a)%nat) as [Hlt|Hge].
  - by apply get_set_nat_ne.
  - unfold set. destruct (decide (0 ≤ Z.of_nat n)); [|lia]. rewrite Nat2Z.id.
    unfold length_of in Hge. destruct (decide (n < length (elems a))%nat); [lia|].
    rewrite !get_nat. simpl.
    destruct (decide (m < length (elems a))%nat).
    + by rewrite lookup_app_l.
    + rewrite (lookup_ge_None_2 (elems a)) by lia.
      rewrite lookup_app_r by lia.
      destruct (decide (m - length (elems a) < n - length (elems a))%nat).
      * rewrite lookup_app_l by (rewrite length_replicate; lia).
        rewrite lookup_replicate_2 by lia. done.
      * rewrite lookup_app_r by (rewrite length_replicate; lia).
        rewrite length_replicate.
        rewrite lookup_ge_None_2; [done|]. simpl. lia.
Qed.

Lemma length_set_nat (a : JSArray) (n : nat) (f : KeyFrame) :
  length_of (set a (Int (Z.of_nat n)) f) = Nat.max (length_of a) (S n).
Proof.
  unfold set, length_of. destruct (decide (0 ≤ Z.of_nat n)); [|lia].
  rewrite Nat2Z.id. destruct (decide (n < length (elems a))%nat); simpl.
  - rewrite length_insert. lia.
  - rewrite !length_app, length_replicate. simpl. lia.
Qed.

(** X1. In both files of [part_001], [updateCurrentFrame] at any array
    index [n] (a whole number from 0 below [2^32 - 1], inside the sequence
    or beyond its end) returns: position [n] then holds the keyframe that
    was there, or the neutral one if none was, with the one angle replaced;
    every other array index reads as before; and the sequence is as long as
    before, or [n + 1] long if [n] lay beyond its end. *)
Theorem guarded_update_fills_missing_keyframe (r : revision) (s : State) (n : nat)
    (part : Joint.t) (axis : Axis.t) (value : number) :
  guarded r →
  array_index n →
  currentFrame s = Int (Z.of_nat n) →
  ∃ s', updateCurrentFrame r part axis value s = Returns s'
    ∧ get (frames s') (Int (Z.of_nat n))
      = Some (updated (or_else (get (frames s) (Int (Z.of_nat n))) defaultFrame)
                      part axis value)
    ∧ (∀ m : nat, m ≠ n → array_index m →
         get (frames s') (Int (Z.of_nat m)) = get (frames s) (Int (Z.of_nat m)))
    ∧ length_of (frames s') = Nat.max (length_of (frames s)) (S n)
    ∧ currentFrame s' = currentFrame s.
Proof.
  intros Hr _ Hcur.
  assert (updateCurrentFrame r = Part001a.updateCurrentFrame) as ->
    by by destruct Hr as [-> | ->].
  unfold Part001a.updateCurrentFrame. rewrite Hcur.
  set (copy := mkArray (iterate (frames s)) ∅).
  assert (Hcopy : ∀ m : nat, get copy (Int (Z.of_nat m)) = get (frames s) (Int (Z.of_nat m)))
    by (intros m; apply get_iterate).
  assert (Hlen : length_of copy = length_of (frames s)) by apply length_iterate.
  rewrite Hcopy.
  destruct (get (frames s) (Int (Z.of_nat n))) as [f|] eqn:G.
  - rewrite Hcopy, G. eexists. split; [done|]. simpl.
    split; [apply get_set_eq|]. split; [|split; [|done]].
    + intros m Hm _. by rewrite get_set_nat_other, Hcopy.
    + rewrite length_set_nat, Hlen. done.
  - rewrite get_set_eq. eexists. split; [done|]. simpl.
    split; [apply get_set_eq|]. split; [|split; [|done]].
    + intros m Hm _. by rewrite !get_set_nat_other, Hcopy.
    + rewrite !length_set_nat, Hlen. lia.
Qed.

Lemma guarded_update_fills_missing_keyframe_witness :
  let s := setCurrentFrame (Int (Z.of_nat 3)) initial_state in
  ∃ s', updateCurrentFrame part_001b Joint.head Axis.x (num 30) s = Returns s'
    ∧ get (frames s') (Int (Z.of_nat 3))
      = Some (updated (or_else (get (frames s) (Int (Z.of_nat 3))) defaultFrame)
                      Joint.head Axis.x (num 30))
    ∧ (∀ m : nat, m ≠ 3%nat → array_index m →
         get (frames s') (Int (Z.of_nat m)) = get (frames s) (Int (Z.of_nat m)))
    ∧ length_of (frames s') = Nat.max (length_of (frames s)) (S 3)
    ∧ currentFrame s' = currentFrame s.
Proof.
  apply (guarded_update_fills_missing_keyframe part_001b
           (setCurrentFrame (Int (Z.of_nat 3)) initial_state) 3 Joint.head Axis.x (num 30)).
  - by right.
  - reflexivity.
  - reflexivity.
Defined.

(** X2. In [Animate.tsx] and [part_000], [updateCurrentFrame] throws a
    [TypeError] exactly when the active index is no position that holds a
    keyframe (beyond the end, negative, [NaN], or an empty position); the
    event then leaves every state cell as it was and the exception leaves
    the handler. *)
Theorem unguarded_update_throws_iff_missing `{!js_yaml} (r : revision) (w : World)
    (part : Joint.t) (axis : Axis.t) (value : number) :
  unguarded r →
  (updateCurrentFrame r part axis value (state w) = Throws TypeError
   ↔ ¬ ∃ (n : nat) f, currentFrame (state w) = Int (Z.of_nat n)
                      ∧ get (frames (state w)) (Int (Z.of_nat n)) = Some f)
  ∧ (updateCurrentFrame r part axis value (state w) = Throws TypeError →
     step r w (ChangeAngle part axis value) = raise TypeError w
     ∧ state (step r w (ChangeAngle part axis value)) = state w).
Proof.
  intros Hr.
  assert (updateCurrentFrame r = AnimateTsx.updateCurrentFrame) as Hrw
    by by destruct Hr as [-> | ->].
  split.
  - rewrite Hrw. unfold AnimateTsx.updateCurrentFrame.
    set (copy := mkArray (iterate (frames (state w))) ∅).
    split.
    + intros Hthrow (n & f & Hcur & Hf).
      rewrite Hcur in Hthrow. unfold copy in Hthrow.
      by rewrite get_iterate, Hf in Hthrow.
    + intros Hno. destruct (get copy (currentFrame (state w))) as [f|] eqn:G; [|done].
      exfalso. apply Hno.
      unfold get, copy in G. simpl in G.
      destruct (currentFrame (state w)) as [z|] eqn:Hcur;
        [|by rewrite lookup_empty in G].
      destruct (decide (0 ≤ z)); [|by rewrite lookup_empty in G].
      exists (Z.to_nat z), f. split; [by rewrite Z2Nat.id|].
      rewrite <- (get_iterate _ ∅), get_nat. done.
  - intros Hthrow. simpl. by rewrite Hthrow.
Qed.

Lemma unguarded_update_throws_iff_missing_witness :
  let w := @step yaml_text animate_tsx initial_world (ChangeTimeline (Int 1)) in
  (updateCurrentFrame animate_tsx Joint.head Axis.x (num 30) (state w) = Throws TypeError
   ↔ ¬ ∃ (n : nat) f, currentFrame (state w) = Int (Z.of_nat n)
                      ∧ get (frames (state w)) (Int (Z.of_nat n)) = Some f)
  ∧ (updateCurrentFrame animate_tsx Joint.head Axis.x (num 30) (state w)
     = Throws TypeError →
     @step yaml_text animate_tsx w (ChangeAngle Joint.head Axis.x (num 30))
     = raise TypeError w
     ∧ state (@step yaml_text animate_tsx w (ChangeAngle Joint.head Axis.x (num 30)))
       = state w).
Proof.
  apply (@unguarded_update_throws_iff_missing yaml_text animate_tsx
           (@step yaml_text animate_tsx initial_world (ChangeTimeline (Int 1)))
           Joint.head Axis.x (num 30)).
  by left.
Defined.

(** X3. With no keyframe at the active index, [addKeyFrame] still appends
    one element and selects it.  In [Animate.tsx] and [part_000] the element
    is the empty object [{}], and rendering it makes [ArmorStand] throw on
    [frame.head.x]; in both files of [part_001] it is a copy of the neutral
    keyframe and renders as such. *)
Theorem addKeyFrame_without_keyframe (r : revision) (s : State) :
  get (frames s) (currentFrame s) = None →
  let n := length_of (frames s) in
  let s' := addKeyFrame r s in
  currentFrame s' = Int (Z.of_nat n)
  ∧ length_of (frames s') = S n
  ∧ (∀ m : nat, (m < n)%nat →
       get (frames s') (Int (Z.of_nat m)) = get (frames s) (Int (Z.of_nat m)))
  ∧ get (frames s') (Int (Z.of_nat n))
    = Some match r with
           | animate_tsx | part_000 => ∅
           | part_001a | part_001b => defaultFrame
           end
  ∧ (f ← render r s'; ArmorStand.useFrame (Some f))
    = match r with
      | animate_tsx | part_000 => Throws TypeError
      | part_001a | part_001b =>
          Returns (replicate 5 (Some (num 0), Some (num 0), Some (num 0)))
      end.
Proof.
  intros Hnone n s'.
  assert (Hs' : s' = setCurrentFrame (Int (Z.of_nat n))
            (setFrames (mkArray (iterate (frames s) ++
               [Obj match r with
                    | animate_tsx | part_000 => ∅
                    | part_001a | part_001b => defaultFrame
                    end]) ∅) s)).
  { unfold s'. destruct r; simpl;
      unfold AnimateTsx.addKeyFrame, Part000.addKeyFrame, Part001a.addKeyFrame,
             Part001b.addKeyFrame; by rewrite Hnone. }
  assert (Hlen : length (iterate (frames s)) = n) by apply length_iterate.
  assert (Hnew : get (frames s') (Int (Z.of_nat n))
                 = Some match r with
                        | animate_tsx | part_000 => ∅
                        | part_001a | part_001b => defaultFrame
                        end).
  { rewrite Hs'. simpl. rewrite <- Hlen at 1. apply get_append_new. }
  split; [by rewrite Hs'|]. split; [apply length_addKeyFrame|].
  split; [|split; [exact Hnew|]].
  - intros m Hm. rewrite Hs'. simpl. rewrite get_append_old by lia. apply get_iterate.
  - assert (Hcur : currentFrame s' = Int (Z.of_nat n)) by by rewrite Hs'.
    destruct r; simpl;
      unfold AnimateTsx.render, AnimateTsx.currentFrameData, Part000.render,
             Part001a.render, Part001a.currentFrameData,
             Part001b.render, Part001b.currentFrameData;
      rewrite Hcur, Hnew; reflexivity.
Qed.

Lemma addKeyFrame_without_keyframe_witness :
  let s := setCurrentFrame (Int 3) initial_state in
  let n := length_of (frames s) in
  let s' := addKeyFrame animate_tsx s in
  currentFrame s' = Int (Z.of_nat n)
  ∧ length_of (frames s') = S n
  ∧ (∀ m : nat, (m < n)%nat →
       get (frames s') (Int (Z.of_nat m)) = get (frames s) (Int (Z.of_nat m)))
  ∧ get (frames s') (Int (Z.of_nat n)) = Some ∅
  ∧ (f ← render animate_tsx s'; ArmorStand.useFrame (Some f)) = Throws TypeError.
Proof.
  apply (addKeyFrame_without_keyframe animate_tsx (setCurrentFrame (Int 3) initial_state)).
  reflexivity.
Defined.

(** ** ArmorStand *)

Lemma useFrame_complete (f : KeyFrame) :
  (∀ j, is_Some (f !! j)) →
  ArmorStand.useFrame (Some f)
  = Returns ((λ j, (angle f j Axis.x, angle f j Axis.y, angle f j Axis.z))
               <$> Joint.all).
Proof.
  intros Hall. unfold ArmorStand.useFrame, ArmorStand.rotation, angle. simpl.
  destruct (Hall Joint.head) as [? ->], (Hall Joint.left_arm) as [? ->],
    (Hall Joint.right_arm) as [? ->], (Hall Joint.left_leg) as [? ->],
    (Hall Joint.right_leg) as [? ->]. done.
Qed.

(** X4. The [useFrame] callback of [ArmorStand] throws a [TypeError]
    exactly when the frame lacks one of the five joints (or is [undefined]);
    otherwise it reads, joint by joint in the order head, left arm, right
    arm, left leg, right leg, the three angles of the frame, a missing axis
    reading as [undefined]. *)
Theorem useFrame_throws_iff_joint_missing (f : KeyFrame) :
  (ArmorStand.useFrame (Some f) = Throws TypeError ↔ ∃ j, f !! j = None)
  ∧ ((∀ j, is_Some (f !! j)) →
     ArmorStand.useFrame (Some f)
     = Returns ((λ j, (angle f j Axis.x, angle f j Axis.y, angle f j Axis.z))
                  <$> Joint.all))
  ∧ ArmorStand.useFrame None = Throws TypeError.
Proof.
  split; [|split; [apply useFrame_complete|done]].
  unfold ArmorStand.useFrame, ArmorStand.rotation, angle. simpl.
  split.
    + intros Hthrow.
      destruct (f !! Joint.head) eqn:?; [|by eexists].
      destruct (f !! Joint.left_arm) eqn:?; [|by eexists].
      destruct (f !! Joint.right_arm) eqn:?; [|by eexists].
      destruct (f !! Joint.left_leg) eqn:?; [|by eexists].
      destruct (f !! Joint.right_leg) eqn:?; [|by eexists].
      done.
    + intros [j Hj].
      destruct (f !! Joint.head) eqn:?; [|done].
      destruct (f !! Joint.left_arm) eqn:?; [|done].
      destruct (f !! Joint.right_arm) eqn:?; [|done].
      destruct (f !! Joint.left_leg) eqn:?; [|done].
      destruct (f !! Joint.right_leg) eqn:?; [|done].
      destruct j; congruence.
Qed.

(** ** The cleaning callbacks of the guarded exporters *)

(** X5. The callback of [frames.map] in the first file of [part_001]
    throws a [TypeError] exactly when the keyframe lacks one of the five
    joints (or is [undefined]); on a complete keyframe, one with all five
    joints and the three angles of each, it returns an equal keyframe. *)
Theorem Part001a_clean_throws_iff_joint_missing (f : KeyFrame) :
  (Part001a.clean (Some f) = Throws TypeError ↔ ∃ j, f !! j = None)
  ∧ (is_KeyFrame f → Part001a.clean (Some f) = Returns f)
  ∧ Part001a.clean None = Throws TypeError.
Proof.
  assert (Hall : (∀ j, is_Some (f !! j)) → ∃ g, Part001a.clean (Some f) = Returns g).
  { intros Hall.
    destruct (Hall Joint.head) as [h Hh], (Hall Joint.left_arm) as [la Hla],
      (Hall Joint.right_arm) as [ra Hra], (Hall Joint.left_leg) as [ll Hll],
      (Hall Joint.right_leg) as [rl Hrl].
    unfold Part001a.clean, Part001a.clean_part. simpl.
    rewrite Hh, Hla, Hra, Hll, Hrl. simpl. by eexists. }
  split; [|split; [apply Part001a_clean_KeyFrame|done]].
  split.
  - intros Hthrow.
    destruct (f !! Joint.head) eqn:?; [|by eexists].
    destruct (f !! Joint.left_arm) eqn:?; [|by eexists].
    destruct (f !! Joint.right_arm) eqn:?; [|by eexists].
    destruct (f !! Joint.left_leg) eqn:?; [|by eexists].
    destruct (f !! Joint.right_leg) eqn:?; [|by eexists].
    destruct Hall as [res Hres]; [intros j; destruct j; by eexists|congruence].
  - intros [j Hj]. unfold Part001a.clean, Part001a.clean_part. simpl.
    destruct (f !! Joint.head) eqn:?; [|done]. simpl.
    destruct (f !! Joint.left_arm) eqn:?; [|done]. simpl.
    destruct (f !! Joint.right_arm) eqn:?; [|done]. simpl.
    destruct (f !! Joint.left_leg) eqn:?; [|done]. simpl.
    destruct (f !! Joint.right_leg) eqn:?; [|done].
    destruct j; congruence.
Qed.

(** X6. The callback of [frames.map] in the second file of [part_001]
    never throws on a keyframe object: it returns a keyframe with all five
    joints, each the copy of the joint's angles or [{}] where the joint was
    missing, so every angle reads as in the argument.  On [undefined] it
    throws. *)
Theorem Part001b_clean_keeps_every_angle (f : KeyFrame) :
  (∃ g, Part001b.clean (Some f) = Returns g
     ∧ (∀ j, g !! j = Some (spread (f !! j)))
     ∧ ∀ j ax, angle g j ax = angle f j ax)
  ∧ Part001b.clean None = Throws TypeError.
Proof.
  split; [|done].
  unfold Part001b.clean, Part001b.clean_part. simpl.
  eexists. split; [done|].
  assert (Hg : ∀ j,
    object [(Joint.head, Some (spread (f !! Joint.head)));
            (Joint.left_arm, Some (spread (f !! Joint.left_arm)));
            (Joint.right_arm, Some (spread (f !! Joint.right_arm)));
            (Joint.left_leg, Some (spread (f !! Joint.left_leg)));
            (Joint.right_leg, Some (spread (f !! Joint.right_leg)))] !! j
    = Some (spread (f !! j))).
  { intros j. unfold object. simpl. destruct j; by simplify_map_eq. }
  split; [exact Hg|].
  intros j ax. unfold angle. rewrite Hg. simpl.
  unfold spread. destruct (f !! j); [done|]. apply lookup_empty.
Qed.

(** ** What a display refresh leaves alone *)

Lemma animate_fold_keeps (l : list (nat * Closure)) (w0 : World) :
  let w' := foldl (λ w hc, animate hc.2 w) w0 l in
  frames (state w') = frames (state w0)
  ∧ animationName (state w') = animationName (state w0)
  ∧ interval (state w') = interval (state w0)
  ∧ isPlaying (state w') = isPlaying (state w0)
  ∧ page w' = page w0
  ∧ uncaught w' = uncaught w0.
Proof.
  revert w0. induction l as [|hc l IH]; intros w0; [done|].
  simpl. destruct (IH (animate hc.2 w0)) as (-> & -> & -> & -> & -> & ->). done.
Qed.

Lemma refresh_keeps (w : World) :
  frames (state (refresh w)) = frames (state w)
  ∧ animationName (state (refresh w)) = animationName (state w)
  ∧ interval (state (refresh w)) = interval (state w)
  ∧ isPlaying (state (refresh w)) = isPlaying (state w)
  ∧ page (refresh w) = page w
  ∧ uncaught (refresh w) = uncaught w.
Proof.
  exact (animate_fold_keeps (scheduled w)
           (mkWorld (state w) (animationRef w) [] (next_handle w) (page w) (uncaught w))).
Qed.

(** X7. A display refresh, whatever is scheduled, changes the active index,
    [animationRef] and the scheduled callbacks only: the keyframes, the
    name, the interval, the playing flag, the downloads and the console are
    as before, so playing an animation never alters it; with nothing
    scheduled it changes nothing at all. *)
Theorem refresh_changes_only_the_index (w : World) :
  frames (state (refresh w)) = frames (state w)
  ∧ animationName (state (refresh w)) = animationName (state w)
  ∧ interval (state (refresh w)) = interval (state w)
  ∧ isPlaying (state (refresh w)) = isPlaying (state w)
  ∧ page (refresh w) = page w
  ∧ uncaught (refresh w) = uncaught w
  ∧ (scheduled w = [] → refresh w = w).
Proof.
  destruct (refresh_keeps w) as (H1 & H2 & H3 & H4 & H5 & H6).
  do 6 (split; [assumption|]). apply refresh_idle.
Qed.

Lemma playAnimation_keeps (w : World) :
  frames (state (playAnimation w)) = frames (state w)
  ∧ currentFrame (state (playAnimation w)) = currentFrame (state w)
  ∧ animationName (state (playAnimation w)) = animationName (state w)
  ∧ interval (state (playAnimation w)) = interval (state w)
  ∧ page (playAnimation w) = page w
  ∧ uncaught (playAnimation w) = uncaught w.
Proof.
  unfold playAnimation. destruct (isPlaying (state w)); simpl; [|done].
  destruct (animationRef w); [|done]. by destruct (decide _).
Qed.

(** ** States reachable through the widgets *)

Section widgets.
Context `{!js_yaml}.
Variable r : revision.

(** X8. In every revision, every state reachable through the widgets (the
    timeline slider staying within [0 .. frames.length - 1]) has a sequence
    made of complete keyframes only, without holes or stray properties,
    with at least one keyframe, and an active index that is one of its
    positions. *)
Theorem widget_states_are_well_typed (w : World) :
  ui_reachable r w →
  ∃ (l : list KeyFrame) (z : Z),
    frames (state w) = array_of l
    ∧ Forall is_KeyFrame l
    ∧ currentFrame (state w) = Int z
    ∧ 0 ≤ z < Z.of_nat (length l)
    ∧ l ≠ []
    ∧ props (frames (state w)) = ∅
    ∧ dense (state w).
Proof.
  intros Hw. destruct (ui_reachable_well_typed r w Hw)
    as ((l & Hfr & Hl) & (z & Hcur & Hz) & _).
  rewrite Hfr, length_of_array_of in Hz.
  exists l, z. repeat split; try done; try lia.
  - intros ->. simpl in Hz. lia.
  - by rewrite Hfr.
  - destruct (state w) as [fr ? ? ? ?]. simpl in Hfr. subst fr. apply dense_array_of.
Qed.

Lemma ui_reachable_active_keyframe (w : World) :
  ui_reachable r w →
  ∃ f, get (frames (state w)) (currentFrame (state w)) = Some f
    ∧ is_KeyFrame f
    ∧ render r (state w) = Returns f
    ∧ ∀ part axis value,
        ∃ s', updateCurrentFrame r part axis value (state w) = Returns s'.
Proof.
  intros Hw. destruct (ui_reachable_well_typed r w Hw)
    as ((l & Hfr & Hl) & (z & Hcur & Hz) & _).
  rewrite Hfr, length_of_array_of in Hz.
  destruct (lookup_lt_is_Some_2 l (Z.to_nat z)) as [f Hf]; [lia|].
  assert (Hget : get (frames (state w)) (currentFrame (state w)) = Some f).
  { rewrite Hfr, Hcur, <- (Z2Nat.id z) by lia. by rewrite get_array_of. }
  assert (Hkf : is_KeyFrame f) by (eapply Forall_lookup_1; eauto).
  exists f. split; [done|]. split; [done|]. split.
  - destruct r; simpl;
      unfold AnimateTsx.render, AnimateTsx.currentFrameData, Part000.render,
             Part001a.render, Part001a.currentFrameData,
             Part001b.render, Part001b.currentFrameData; by rewrite Hget.
  - intros part axis value.
    rewrite (updateCurrentFrame_in_range r (state w) (Z.to_nat z) f);
      [by eexists|by rewrite Z2Nat.id by lia|by rewrite Z2Nat.id, <- Hcur by lia].
Qed.

(** X9. Under the assumption that the timeline control delivers only
    whole numbers from 0 to [frames.length - 1] (an assumption on the
    control, which the source does not establish; without it [part_000]
    throws on render and [Animate.tsx] on update): in every state reached
    by a run of such events, in every revision, rendering returns the
    keyframe at the active index, a complete one, [ArmorStand] reads
    fifteen defined angles from it, and [updateCurrentFrame] returns for
    every joint, axis and value. *)
Theorem widget_states_render (w : World) (part : Joint.t) (axis : Axis.t)
    (value : number) :
  ui_reachable r w →
  ∃ f, get (frames (state w)) (currentFrame (state w)) = Some f
    ∧ is_KeyFrame f
    ∧ render r (state w) = Returns f
    ∧ (∃ rots, ArmorStand.useFrame (Some f) = Returns rots
         ∧ length rots = 5%nat
         ∧ Forall (λ t, is_Some t.1.1 ∧ is_Some t.1.2 ∧ is_Some t.2) rots)
    ∧ ∃ s', updateCurrentFrame r part axis value (state w) = Returns s'.
Proof.
  intros Hw.
  destruct (ui_reachable_active_keyframe w Hw) as (f & Hget & Hkf & Hrender & Hupd).
  exists f. do 3 (split; [done|]). split; [|apply Hupd].
  rewrite (useFrame_complete f) by (intros j; destruct (Hkf j) as (a & -> & _); by eexists).
  eexists. split; [done|]. split; [done|].
  unfold Joint.all. rewrite Forall_fmap. apply Forall_forall.
  intros j _. simpl. unfold angle.
  destruct (Hkf j) as (a & -> & Ha). simpl. repeat split; apply Ha.
Qed.

(** X10. Under two assumptions, that [yaml.dump] returns for every
    document and that the timeline control delivers only whole numbers from
    0 to [frames.length - 1] (the source establishes neither; an index
    beyond the end makes the update of [Animate.tsx] and [part_000] throw
    and can make the exporters of [part_001] log a [TypeError]): along
    every run of such events, in every revision, no exception leaves a
    handler and nothing is passed to [console.error]. *)
Theorem widget_runs_throw_only_in_dump (w : World) :
  (∀ doc o, ∃ text, yaml_dump doc o = Returns text) →
  ui_reachable r w →
  uncaught w = [] ∧ console_error (page w) = [].
Proof.
  intros Hdump. induction 1 as [|w ev Hw [IHu IHc] Hev]; [done|].
  destruct (ui_reachable_well_typed r w Hw) as ((l & Hfr & Hl) & (z & Hcur & Hz) & _).
  destruct ev; cbn [step]; try done.
  - destruct (ui_reachable_active_keyframe w Hw) as (_ & _ & _ & _ & Hupd).
    by destruct (Hupd part axis value) as [s' ->].
  - destruct (Hdump (Doc.mk {[ animationName (state w) :=
        Doc.mkAnimation
          match r with
          | animate_tsx | part_000 => interval (state w)
          | _ => Math_max (num 1) (Math_floor (interval (state w)))
          end true (array_of l) ]}) (dump_options r)) as [text Htext].
    rewrite (exportAnimation_dump r (state w) (page w) _
               (animation_KeyFrames r (state w) l Hfr Hl)), Htext.
    done.
  - by destruct (playAnimation_keeps w) as (_ & _ & _ & _ & -> & ->).
  - by destruct (refresh_keeps w) as (_ & _ & _ & _ & -> & ->).
Qed.
End widgets.

Lemma widget_sample_reachable : @ui_reachable yaml_text part_000 widget_sample.
Proof.
  apply ui_event; [apply ui_event; [apply ui_initial|exact I]|].
  exists 0. split; [reflexivity|]. vm_compute. split; [discriminate|reflexivity].
Defined.

Lemma widget_states_are_well_typed_witness :
  ∃ (l : list KeyFrame) (z : Z),
    frames (state widget_sample) = array_of l
    ∧ Forall is_KeyFrame l
    ∧ currentFrame (state widget_sample) = Int z
    ∧ 0 ≤ z < Z.of_nat (length l)
    ∧ l ≠ []
    ∧ props (frames (state widget_sample)) = ∅
    ∧ dense (state widget_sample).
Proof.
  apply (@widget_states_are_well_typed yaml_text part_000 widget_sample).
  exact widget_sample_reachable.
Defined.

Lemma widget_states_render_witness :
  ∃ f, get (frames (state widget_sample)) (currentFrame (state widget_sample)) = Some f
    ∧ is_KeyFrame f
    ∧ render part_000 (state widget_sample) = Returns f
    ∧ (∃ rots, ArmorStand.useFrame (Some f) = Returns rots
         ∧ length rots = 5%nat
         ∧ Forall (λ t, is_Some t.1.1 ∧ is_Some t.1.2 ∧ is_Some t.2) rots)
    ∧ ∃ s', updateCurrentFrame part_000 Joint.left_leg Axis.y (num 45)
              (state widget_sample) = Returns s'.
Proof.
  apply (@widget_states_render yaml_text part_000 widget_sample
           Joint.left_leg Axis.y (num 45)).
  exact widget_sample_reachable.
Defined.

Lemma widget_runs_throw_only_in_dump_witness :
  uncaught widget_sample = [] ∧ console_error (page widget_sample) = [].
Proof.
  apply (@widget_runs_throw_only_in_dump yaml_text part_000 widget_sample).
  - intros doc o. eexists. reflexivity.
  - exact widget_sample_reachable.
Defined.

(** ** The playback loop, continued *)

Section loop_extras.
Context `{!js_yaml}.
Variable r : revision.

Lemma reachable_run (w : World) (evs : list event) :
  reachable r w → reachable r (run r w evs).
Proof.
  intros [evs0 ->]. exists (evs0 ++ evs). unfold run. by rewrite foldl_app.
Qed.

(** X11. However play, pause and the other widgets are used, and whatever
    index is selected, at most one [animate] callback is scheduled at any
    time; one is scheduled exactly while [isPlaying] is set, and it is the
    one whose non-zero handle [animationRef.current] holds. *)
Theorem never_two_playback_loops (w : World) :
  reachable r w →
  (length (scheduled w) ≤ 1)%nat
  ∧ (isPlaying (state w) = true ↔ scheduled w ≠ [])
  ∧ ∀ h c, (h, c) ∈ scheduled w → animationRef w = Some h ∧ h ≠ 0%nat.
Proof.
  intros Hw. apply (loop_invariant_reachable r) in Hw as (_ & _ & Hl).
  destruct (isPlaying (state w)).
  - destruct Hl as (h & c & -> & -> & Hh & _). split; [simpl; lia|].
    split; [done|]. by intros h' c' [= -> ->]%list_elem_of_singleton.
  - rewrite Hl. split; [simpl; lia|]. split; [done|].
    by intros h c ?%elem_of_nil.
Qed.

(** X12. From a reachable, stopped editor: play, any number [k] of display
    refreshes, then pause leaves the keyframes, the name and the interval
    as they were, with playback stopped and nothing scheduled; with no
    refresh in between the whole state is as before the play click. *)
Theorem play_then_pause (w : World) (k : nat) :
  reachable r w →
  isPlaying (state w) = false →
  let w' := step r (refreshes k (step r w ClickPlay)) ClickPlay in
  frames (state w') = frames (state w)
  ∧ animationName (state w') = animationName (state w)
  ∧ interval (state w') = interval (state w)
  ∧ isPlaying (state w') = false
  ∧ scheduled w' = []
  ∧ (k = 0%nat → state w' = state w).
Proof.
  intros Hw Hp w'.
  set (w1 := refreshes k (step r w ClickPlay)).
  assert (Hw1 : reachable r w1).
  { unfold w1. rewrite <- (run_refreshes r).
    change (run r (step r w ClickPlay) (replicate k Refresh))
      with (run r w (ClickPlay :: replicate k Refresh)).
    by apply reachable_run. }
  assert (Hkeep : frames (state w1) = frames (state w)
                  ∧ animationName (state w1) = animationName (state w)
                  ∧ interval (state w1) = interval (state w)
                  ∧ isPlaying (state w1) = true).
  { unfold w1. clear Hw1 w'. induction k as [|k (IH1 & IH2 & IH3 & IH4)].
    - simpl. by rewrite playAnimation_start.
    - unfold refreshes in *. simpl.
      destruct (refresh_keeps (Nat.iter k refresh (playAnimation w)))
        as (-> & -> & -> & -> & _). done. }
  destruct Hkeep as (K1 & K2 & K3 & K4).
  apply (loop_invariant_reachable r) in Hw1 as (_ & _ & Hl). rewrite K4 in Hl.
  destruct Hl as (h & c & Hs & Href & Hh & _).
  assert (Hw' : w' = mkWorld (setIsPlaying false (state w1)) (Some h) []
                             (next_handle w1) (page w1) (uncaught w1))
    by by apply (playAnimation_stop w1 h c).
  rewrite Hw'. simpl. do 3 (split; [done|]). split; [done|]. split; [done|].
  intros ->. unfold w1. simpl. rewrite playAnimation_start by done. simpl.
  destruct (state w). simpl in *. by subst.
Qed.
End loop_extras.

Lemma never_two_playback_loops_witness :
  (length (scheduled playing_world) ≤ 1)%nat
  ∧ (isPlaying (state playing_world) = true ↔ scheduled playing_world ≠ [])
  ∧ ∀ h c, (h, c) ∈ scheduled playing_world →
      animationRef playing_world = Some h ∧ h ≠ 0%nat.
Proof.
  apply (@never_two_playback_loops yaml_text animate_tsx playing_world).
  eexists. reflexivity.
Defined.

Lemma play_then_pause_witness :
  let w := @step yaml_text part_001a initial_world ClickAddKeyframe in
  let w' := @step yaml_text part_001a
              (refreshes 3 (@step yaml_text part_001a w ClickPlay)) ClickPlay in
  frames (state w') = frames (state w)
  ∧ animationName (state w') = animationName (state w)
  ∧ interval (state w') = interval (state w)
  ∧ isPlaying (state w') = false
  ∧ scheduled w' = []
  ∧ (3%nat = 0%nat → state w' = state w).
Proof.
  apply (@play_then_pause yaml_text part_001a
           (@step yaml_text part_001a initial_world ClickAddKeyframe) 3).
  - exists [ClickAddKeyframe]. reflexivity.
  - reflexivity.
Defined.

(** ** The interval *)

Lemma at_least_one_Math_max (v : number) : at_least_one (Math_max (num 1) v).
Proof.
  destruct v as [| | |q]; simpl; try done.
  destruct (Qle_bool (inject_Z 1) q) eqn:E; simpl.
  - by apply Qle_bool_iff.
  - apply Qle_refl.
Qed.

Lemma Math_max_floor_at_least_one (v : number) :
  at_least_one v →
  Math_max (num 1) (Math_floor v) = Math_floor v ∧ normal_interval (Math_floor v).
Proof.
  destruct v as [| | |q]; simpl; try done.
  intros Hq.
  assert (Hz : 1 ≤ Qfloor q).
  { change 1 with (Qfloor (inject_Z 1)). by apply Qfloor_resp_le. }
  split; [|by eexists].
  assert (Qle_bool (inject_Z 1) (inject_Z (Qfloor q)) = true) as ->; [|done].
  apply Qle_bool_iff. by rewrite <- Zle_Qle.
Qed.

Section interval.
Context `{!js_yaml}.

Lemma step_interval (r : revision) (w : World) (ev : event) :
  interval (state (step r w ev)) = interval (state w)
  ∨ ∃ value, ev = ChangeInterval value
             ∧ interval (state (step r w ev)) = interval (onIntervalChange r value (state w)).
Proof.
  destruct ev; cbn [step]; try (by left).
  - left. by destruct r.
  - left. destruct (updateCurrentFrame r part axis value (state w)) eqn:E; [|done].
    by apply updateCurrentFrame_keeps in E as (_ & _ & _ & E & _).
  - right. by eexists.
  - left. by destruct (exportAnimation r (state w) (page w)).
  - left. by destruct (playAnimation_keeps w) as (_ & _ & _ & -> & _).
  - left. by destruct (refresh_keeps w) as (_ & _ & -> & _).
Qed.

(** X13. In both files of [part_001], in every state reached by any run of
    events (whatever is typed into the interval field, whatever index is
    selected, whether or not a document can be built), the [interval] cell
    holds no number below 1: it holds [NaN], plus infinity, or a number
    from 1 on.  Whenever the exporter builds its document, the exported
    interval is the floor of the stored one, so the [Math.max(1, ...)] of
    the exporter changes nothing there, and it is [NaN], plus infinity, or
    a whole number from 1 on. *)
Theorem guarded_interval_never_below_one (r : revision) (w : World) :
  guarded r →
  reachable r w →
  at_least_one (interval (state w))
  ∧ ∀ doc, animation r (state w) = Returns doc →
      ∃ entry, Doc.animations doc = {[ animationName (state w) := entry ]}
        ∧ Doc.interval entry = Math_floor (interval (state w))
        ∧ normal_interval (Doc.interval entry).
Proof.
  intros Hr [evs ->].
  assert (Hinv : at_least_one (interval (state (run r initial_world evs)))).
  { revert evs. apply (rev_ind (λ evs, _)); [simpl; done|].
    intros ev evs IH. unfold run in *. rewrite foldl_snoc.
    destruct (step_interval r (foldl (step r) initial_world evs) ev)
      as [-> | (value & _ & ->)]; [done|].
    destruct Hr as [-> | ->]; apply at_least_one_Math_max. }
  split; [done|]. intros doc Hdoc.
  destruct (Part001_interval_normalised r _ doc Hr Hdoc) as (entry & He & Hi & _).
  destruct (Math_max_floor_at_least_one _ Hinv) as [Hmax Hnorm].
  exists entry. split; [done|]. rewrite Hi, Hmax. done.
Qed.
End interval.

Lemma guarded_interval_never_below_one_witness :
  let w := @run yaml_text part_001a initial_world
             [ChangeInterval (Finite (-7 # 2)); ClickAddKeyframe] in
  at_least_one (interval (state w))
  ∧ ∃ entry, Doc.animations
               (Doc.mk {[ "wave" := Doc.mkAnimation (num 1) true
                                      (array_of [defaultFrame; defaultFrame]) ]})
             = {[ animationName (state w) := entry ]}
      ∧ Doc.interval entry = Math_floor (interval (state w))
      ∧ normal_interval (Doc.interval entry).
Proof.
  destruct (@guarded_interval_never_below_one yaml_text part_001a
              (@run yaml_text part_001a initial_world
                 [ChangeInterval (Finite (-7 # 2)); ClickAddKeyframe]))
    as [Hcell Hdoc].
  - by left.
  - eexists. reflexivity.
  - split; [exact Hcell|]. apply Hdoc. reflexivity.
Defined.

(** ** The guarded exporters *)

Lemma clean_throws_TypeError (r : revision) (o : option KeyFrame) (e : exn) :
  match r with
  | part_001b => Part001b.clean o
  | _ => Part001a.clean o
  end = Throws e → e = TypeError.
Proof.
  destruct o as [f|]; [|destruct r; by intros [= <-]].
  destruct r; unfold Part001a.clean, Part001a.clean_part, Part001b.clean,
    Part001b.clean_part; simpl;
    repeat match goal with
           | |- context [f !! ?j] => destruct (f !! j)
           end; simpl; by intros [= <-].
Qed.

Lemma map_slots_Undefined (cb : option KeyFrame → outcome KeyFrame) (l : list slot) :
  cb None = Throws TypeError →
  (∀ o e, cb o = Throws e → e = TypeError) →
  Undefined ∈ l → map_slots cb l = Throws TypeError.
Proof.
  intros Hnone Honly. induction l as [|s l IH]; [by intros ?%elem_of_nil|].
  intros Hin. apply elem_of_cons in Hin as [<-|Hin].
  - simpl. by rewrite Hnone.
  - specialize (IH Hin). destruct s as [| |f]; simpl.
    + by rewrite IH.
    + by rewrite Hnone.
    + destruct (cb (Some f)) as [g|e] eqn:E; simpl.
      * by rewrite IH.
      * by rewrite (Honly _ _ E).
Qed.

Lemma map_slots_shape (cb : option KeyFrame → outcome KeyFrame) (l l' : list slot) :
  map_slots cb l = Returns l' →
  length l' = length l
  ∧ ∀ n, l' !! n = Some Hole ↔ l !! n = Some Hole.
Proof.
  revert l'. induction l as [|s l IH]; intros l'; [by intros [= <-]|].
  assert (Hcons : ∀ s' l'', map_slots cb l = Returns l'' →
            (s' = Hole ↔ s = Hole) →
            length (s' :: l'') = length (s :: l)
            ∧ ∀ n, (s' :: l'') !! n = Some Hole ↔ (s :: l) !! n = Some Hole).
  { intros s' l'' Hl Hs. destruct (IH l'' Hl) as [Hlen Hholes].
    split; [simpl; by rewrite Hlen|].
    intros [|n]; simpl; [|apply Hholes].
    split; intros [= E]; f_equal; by apply Hs. }
  destruct s as [| |f]; simpl.
  - destruct (map_slots cb l) as [l''|] eqn:Hl; simpl; [|done].
    intros [= <-]. by apply Hcons.
  - destruct (cb None); simpl; [|done].
    destruct (map_slots cb l) as [l''|] eqn:Hl; simpl; [|done].
    intros [= <-]. by apply Hcons.
  - destruct (cb (Some f)); simpl; [|done].
    destruct (map_slots cb l) as [l''|] eqn:Hl; simpl; [|done].
    intros [= <-]. by apply Hcons.
Qed.

Section guarded_export.
Context `{!js_yaml}.

(** X14. [exportAnimation] of both files of [part_001] never throws,
    whatever the state and whatever [yaml.dump] does: it returns having
    either handed exactly one file to the browser and logged nothing, or
    logged exactly one error and downloaded nothing. *)
Theorem guarded_export_never_throws (r : revision) (s : State) (p : Page) :
  guarded r →
  ∃ p', exportAnimation r s p = Returns p'
    ∧ ((∃ text, downloads p' = downloads p ++ [(download_name r s, text)]
                ∧ console_error p' = console_error p)
       ∨ (∃ e, downloads p' = downloads p
               ∧ console_error p' = console_error p ++ [e])).
Proof.
  intros Hr. destruct (guarded_export_returns r s p Hr) as (p' & Hp' & Hcase).
  exists p'. split; [done|].
  destruct Hcase as [[text ->]|[e ->]]; [left|right]; by eexists.
Qed.

(** X15. In both files of [part_001], when [frames] holds the value
    [undefined] at some position (as after an update beyond the end of the
    sequence followed by any further update), the callback of [frames.map]
    throws on it and the export ends in one logged [TypeError] and no
    download, whatever [yaml.dump] would do. *)
Theorem guarded_export_undefined_element (r : revision) (s : State) (p : Page) :
  guarded r →
  Undefined ∈ elems (frames s) →
  animation r s = Throws TypeError
  ∧ exportAnimation r s p
    = Returns (mkPage (downloads p) (console_error p ++ [TypeError])).
Proof.
  intros Hr Hin.
  assert (Hmap : map_array match r with
                           | part_001b => Part001b.clean
                           | _ => Part001a.clean
                           end (frames s) = Throws TypeError).
  { unfold map_array. rewrite map_slots_Undefined; [done| | |done].
    - by destruct r.
    - intros o e E. apply (clean_throws_TypeError r o). by destruct r. }
  destruct Hr as [-> | ->]; simpl;
    unfold Part001a.exportAnimation, Part001a.animation,
           Part001b.exportAnimation, Part001b.animation; rewrite Hmap; done.
Qed.

(** X16. Whenever a file of [part_001] builds its document, the exported
    [steps] are as many as the elements of [frames], with a hole exactly
    where [frames] has one: [map] skips holes and leaves them in place. *)
Theorem guarded_export_keeps_holes (r : revision) (s : State) (doc : Doc.t) :
  guarded r →
  animation r s = Returns doc →
  ∃ entry, Doc.animations doc = {[ animationName s := entry ]}
    ∧ length_of (Doc.steps entry) = length_of (frames s)
    ∧ props (Doc.steps entry) = ∅
    ∧ ∀ n, elems (Doc.steps entry) !! n = Some Hole ↔ elems (frames s) !! n = Some Hole.
Proof.
  intros Hr.
  assert (Hshape : ∀ cb a, map_array cb (frames s) = Returns a →
            length_of a = length_of (frames s) ∧ props a = ∅
            ∧ ∀ n, elems a !! n = Some Hole ↔ elems (frames s) !! n = Some Hole).
  { intros cb a. unfold map_array.
    destruct (map_slots cb (elems (frames s))) as [l'|] eqn:E; simpl; [|done].
    intros [= <-]. destruct (map_slots_shape cb _ _ E). done. }
  destruct Hr as [-> | ->]; simpl;
    unfold Part001a.animation, Part001b.animation;
    destruct (map_array _ (frames s)) as [a|] eqn:E; simpl; try done;
    intros [= <-]; eexists; (split; [reflexivity|]); simpl; by eapply Hshape.
Qed.
End guarded_export.

Lemma guarded_export_never_throws_witness :
  ∃ p', @exportAnimation yaml_failing part_001a two_frames (mkPage [] []) = Returns p'
    ∧ ((∃ text, downloads p' = downloads (mkPage [] [])
                                ++ [(download_name part_001a two_frames, text)]
                ∧ console_error p' = console_error (mkPage [] []))
       ∨ (∃ e, downloads p' = downloads (mkPage [] [])
               ∧ console_error p' = console_error (mkPage [] []) ++ [e])).
Proof.
  apply (@guarded_export_never_throws yaml_failing part_001a two_frames (mkPage [] [])).
  by left.
Defined.

Lemma guarded_export_undefined_element_witness :
  animation part_001a undefined_state = Throws TypeError
  ∧ @exportAnimation yaml_text part_001a undefined_state (mkPage [] [])
    = Returns (mkPage (downloads (mkPage [] []))
                      (console_error (mkPage [] []) ++ [TypeError])).
Proof.
  apply (@guarded_export_undefined_element yaml_text part_001a undefined_state
           (mkPage [] [])).
  - by left.
  - vm_compute. apply elem_of_cons; right. apply elem_of_cons; by left.
Defined.

Lemma guarded_export_keeps_holes_witness :
  ∃ entry,
    Doc.animations
      (Doc.mk {[ "wave" := Doc.mkAnimation (num 10) true
         (mkArray [Obj defaultFrame; Hole; Hole;
                   Obj (updated defaultFrame Joint.head Axis.x (num 30))] ∅) ]})
    = {[ animationName holes_state := entry ]}
    ∧ length_of (Doc.steps entry) = length_of (frames holes_state)
    ∧ props (Doc.steps entry) = ∅
    ∧ ∀ n, elems (Doc.steps entry) !! n = Some Hole
           ↔ elems (frames holes_state) !! n = Some Hole.
Proof.
  apply (@guarded_export_keeps_holes part_001a holes_state).
  - by left.
  - by vm_compute.
Defined.

(** ** Runs of editing events over the store *)

Lemma sound_cells_defaultFrame (c : Cells) :
  sound_cells c →
  (Store.defaultFrame_ref < length (cell_store c))%nat
  ∧ Store.frame_value (cell_store c) Store.defaultFrame_ref = defaultFrame.
Proof.
  intros (Hc & Hfr & Hp).
  destruct store_initial as (Hc0 & _ & Hd0 & Hdv0 & _).
  split.
  - apply prefix_length_le in Hp. lia.
  - by rewrite (frame_value_old Store.initial).
Qed.

Lemma currentFrame_addKeyFrame (r : revision) (s : State) :
  currentFrame (addKeyFrame r s) = Int (Z.of_nat (length_of (frames s))).
Proof. by destruct r. Qed.

Lemma edit_step (r : revision) (c : Cells) (s : State) (e : edit) :
  sound_cells c → represents c s →
  sound_cells (edit_store r c e) ∧ represents (edit_store r c e) (edit_state r s e)
  ∧ cell_store c `prefix_of` cell_store (edit_store r c e).
Proof.
  intros Hsound [Hfs Hcur].
  destruct (sound_cells_defaultFrame c Hsound) as [Hd Hdv].
  destruct Hsound as (Hc & Hfr & Hp).
  destruct e as [|part axis value|i]; simpl.
  - destruct (Store.addKeyFrame r Store.defaultFrame_ref (cell_frames c) (cell_index c)
                (cell_store c)) as [fr' h'] eqn:E.
    rewrite <- Hcur in E.
    destruct (store_addKeyFrame r _ _ _ s Hc Hfr Hd Hdv Hfs fr' h' E)
      as (Hp' & Hc' & Hfr' & Hfs' & _).
    repeat split; simpl; try done.
    + by etrans.
    + rewrite currentFrame_addKeyFrame, Hfs. unfold length_of, Store.array_value. simpl.
      by rewrite length_fmap.
  - pose proof (store_updateCurrentFrame r Store.defaultFrame_ref part axis value
                  (cell_frames c) (cell_store c) s Hc Hfr Hd Hdv Hfs) as U.
    rewrite Hcur in U.
    destruct (Store.updateCurrentFrame r Store.defaultFrame_ref part axis value
                (cell_frames c) (cell_index c) (cell_store c)) as [[fr' h']|e1];
      destruct (updateCurrentFrame r part axis value s) as [s'|e2] eqn:E; try done.
    destruct U as (Hp' & Hc' & Hfr' & Hfs').
    apply updateCurrentFrame_keeps in E as (_ & Hcur' & _).
    repeat split; simpl; try done; [by etrans|congruence].
  - repeat split; simpl; done.
Qed.

Lemma edits_invariant (r : revision) (es : list edit) :
  sound_cells (foldl (edit_store r) initial_cells es)
  ∧ represents (foldl (edit_store r) initial_cells es)
               (foldl (edit_state r) initial_state es).
Proof.
  induction es as [|e es IH] using rev_ind.
  - destruct store_initial as (Hc & Hfr & _ & _ & Hs & _).
    repeat split; simpl; done.
  - rewrite !foldl_app. simpl. destruct IH as [H1 H2].
    destruct (edit_step r _ _ e H1 H2) as (? & ? & _). done.
Qed.

(** X17. No handler writes into an object that existed before it ran.
    Along every run of "Add Keyframe" clicks, angle edits and timeline moves
    from the freshly mounted editor, in every revision, the store after an
    event extends the store before it: the array held by [frames] before
    the event reads as before (the state is replaced, never modified), and
    the module constant [defaultFrame] still holds its fifteen zeros. *)
Theorem handlers_never_write_existing_objects (r : revision) (es : list edit) (e : edit) :
  let c := foldl (edit_store r) initial_cells es in
  let c' := edit_store r c e in
  cell_store c `prefix_of` cell_store c'
  ∧ Store.array_value (cell_store c') (cell_frames c)
    = Store.array_value (cell_store c) (cell_frames c)
  ∧ Store.frame_value (cell_store c') Store.defaultFrame_ref = defaultFrame.
Proof.
  intros c c'. destruct (edits_invariant r es) as [Hsound Hrep].
  destruct (edit_step r _ _ e Hsound Hrep) as (Hsound' & _ & Hp).
  fold c in Hsound, Hp. fold c' in Hsound', Hp.
  split; [done|]. split.
  - destruct Hsound as (Hc & Hfr & _). by apply array_value_old.
  - by apply sound_cells_defaultFrame.
Qed.

(** X18. The copies the handlers make are shallow (a copied keyframe shares
    its angle objects with its source, and the first keyframe is
    [defaultFrame] itself), yet no run of editing events can tell: in every
    revision, after any sequence of events from the freshly mounted editor,
    reading the array of the [frames] cell through the store gives exactly
    the keyframes computed with independent values, and the active index
    is the same. *)
Theorem shallow_copies_are_unobservable (r : revision) (es : list edit) :
  let c := foldl (edit_store r) initial_cells es in
  let s := foldl (edit_state r) initial_state es in
  frames s = Store.array_value (cell_store c) (cell_frames c)
  ∧ currentFrame s = cell_index c
  ∧ ∀ i, get (frames s) i
         = Store.frame_value (cell_store c) <$> Store.get (cell_store c) (cell_frames c) i.
Proof.
  intros c s. destruct (edits_invariant r es) as [_ [Hfs Hcur]].
  fold c s in Hfs, Hcur. split; [done|]. split; [done|].
  intros i. by rewrite Hfs, get_array_value.
Qed.

(** *** What an update shares *)

Lemma store_get_copy (h : Store.store) (fr : Store.ref) (k : Store.store) (n : nat) :
  let h1 := h ++ Store.OArray (Store.iterate h fr) ∅ :: k in
  Store.get h1 (length h) (Int (Z.of_nat n)) = Store.get h fr (Int (Z.of_nat n)).
Proof.
  intros h1. unfold Store.get.
  rewrite !decide_True by lia. rewrite Nat2Z.id.
  unfold Store.elems_at at 1. unfold h1.
  rewrite lookup_app_r by lia. rewrite Nat.sub_diag. simpl.
  unfold Store.iterate. rewrite list_lookup_fmap.
  by destruct (Store.elems_at h fr !! n) as [[]|].
Qed.

(** X19. An update of an existing keyframe copies only what it changes.
    In every revision, [updateCurrentFrame] at position [n] of a store
    holding keyframe [src] there returns a new array in which position [n]
    is a new keyframe object whose edited joint is a new angle object with
    the one axis replaced, whose other four joints are the very angle
    objects of [src], and whose other positions hold the very keyframe
    objects of the old array. *)
Theorem update_shares_untouched_objects (r : revision) (d : Store.ref) (part : Joint.t)
    (axis : Axis.t) (value : number) (fr : Store.ref) (h : Store.store) (n : nat)
    (src : Store.ref) :
  Store.closed h →
  Store.get h fr (Int (Z.of_nat n)) = Some src →
  ∃ fr' h' new a,
    Store.updateCurrentFrame r d part axis value fr (Int (Z.of_nat n)) h = Returns (fr', h')
    ∧ h `prefix_of` h'
    ∧ (length h ≤ fr')%nat ∧ (length h ≤ new)%nat ∧ (length h ≤ a)%nat
    ∧ Store.get h' fr' (Int (Z.of_nat n)) = Some new
    ∧ Store.fields_at h' new = <[part := a]> (Store.fields_at h src)
    ∧ Store.angles_at h' a
      = <[axis := value]> (Store.spread_angles h (Store.fields_at h src !! part))
    ∧ ∀ m : nat, m ≠ n →
        Store.get h' fr' (Int (Z.of_nat m)) = Store.get h fr (Int (Z.of_nat m)).
Proof.
  intros Hc Hsrc.
  assert (Hsrc_lt : (src < length h)%nat) by by eapply store_get_closed.
  set (h1 := h ++ [Store.OArray (Store.iterate h fr) ∅]).
  assert (Hp1 : h `prefix_of` h1) by by eexists.
  assert (G1 : Store.get h1 (length h) (Int (Z.of_nat n)) = Some src)
    by by rewrite (store_get_copy h fr []).
  assert (Hfields : Store.fields_at h1 src = Store.fields_at h src)
    by by apply fields_at_old.
  set (A := Store.OAngles (<[axis := value]>
              (Store.spread_angles h (Store.fields_at h src !! part)))).
  set (F := Store.OFrame (<[part := S (length h)]> (Store.fields_at h src))).
  set (h3 := h ++ [Store.OArray (Store.iterate h fr) ∅; A; F]).
  assert (Hn : (n < length (Store.iterate h fr))%nat).
  { unfold Store.get in Hsrc. rewrite decide_True, Nat2Z.id in Hsrc by lia.
    unfold Store.iterate. rewrite length_fmap.
    destruct (Store.elems_at h fr !! n) eqn:E; [|done]. by eapply lookup_lt_Some. }
  assert (Hspread : Store.spread_angles h1 (Store.fields_at h src !! part)
                    = Store.spread_angles h (Store.fields_at h src !! part)).
  { destruct (Store.fields_at h src !! part) as [a0|] eqn:E; [|done]. simpl.
    apply angles_at_old; [done|]. by eapply fields_at_closed. }
  assert (Hrun : Store.assign_updated part axis value (length h) (Int (Z.of_nat n)) h1
                 = Returns (length h, Store.set h3 (length h) (Int (Z.of_nat n))
                                        (S (S (length h))))).
  { unfold Store.assign_updated. rewrite G1. simpl. rewrite Hfields, Hspread.
    unfold h1, h3. rewrite !length_app. simpl.
    rewrite <- !app_assoc. simpl.
    by replace (length h + 1 + 1)%nat with (S (S (length h))) by lia;
       replace (length h + 1)%nat with (S (length h)) by lia. }
  assert (Hupd : Store.updateCurrentFrame r d part axis value fr (Int (Z.of_nat n)) h
                 = Returns (length h, Store.set h3 (length h) (Int (Z.of_nat n))
                                        (S (S (length h))))).
  { destruct r; simpl;
      unfold Store.updateCurrentFrame_unguarded, Store.updateCurrentFrame_guarded;
      simpl; fold h1; rewrite ?G1; exact Hrun. }
  assert (E3 : h3 !! length h = Some (Store.OArray (Store.iterate h fr) ∅)).
  { unfold h3. rewrite lookup_app_r by lia. by rewrite Nat.sub_diag. }
  assert (Hset : Store.set h3 (length h) (Int (Z.of_nat n)) (S (S (length h)))
                 = h ++ [Store.OArray (<[n := Store.ERef (S (S (length h)))]>
                                         (Store.iterate h fr)) ∅; A; F]).
  { unfold Store.set. rewrite E3. rewrite decide_True by lia.
    rewrite Nat2Z.id. rewrite decide_True by done.
    unfold h3. rewrite insert_app_r_alt by lia. by rewrite Nat.sub_diag. }
  set (h' := h ++ [Store.OArray (<[n := Store.ERef (S (S (length h)))]>
                                   (Store.iterate h fr)) ∅; A; F]) in *.
  assert (Elems : Store.elems_at h' (length h)
                  = <[n := Store.ERef (S (S (length h)))]> (Store.iterate h fr)).
  { unfold Store.elems_at, h'. rewrite lookup_app_r by lia. by rewrite Nat.sub_diag. }
  exists (length h), h', (S (S (length h))), (S (length h)).
  split; [by rewrite Hupd, Hset|].
  split; [by eexists|].
  do 3 (split; [lia|]).
  split; [|split; [|split]].
  - unfold Store.get. rewrite decide_True by lia. rewrite Nat2Z.id, Elems.
    by rewrite list_lookup_insert_eq by done.
  - unfold Store.fields_at, h'. rewrite lookup_app_r by lia.
    by replace (S (S (length h)) - length h)%nat with 2%nat by lia.
  - unfold Store.angles_at, h'. rewrite lookup_app_r by lia.
    by replace (S (length h) - length h)%nat with 1%nat by lia.
  - intros m Hm. unfold Store.get. rewrite !decide_True by lia.
    rewrite !Nat2Z.id, Elems. rewrite list_lookup_insert_ne by done.
    unfold Store.iterate. rewrite list_lookup_fmap.
    by destruct (Store.elems_at h fr !! m) as [[]|].
Qed.

Lemma update_shares_untouched_objects_witness :
  ∃ fr' h' new a,
    Store.updateCurrentFrame part_001b Store.defaultFrame_ref Joint.left_arm Axis.z
      (num 45) Store.initial_frames (Int (Z.of_nat 0)) Store.initial = Returns (fr', h')
    ∧ Store.initial `prefix_of` h'
    ∧ (length Store.initial ≤ fr')%nat ∧ (length Store.initial ≤ new)%nat
    ∧ (length Store.initial ≤ a)%nat
    ∧ Store.get h' fr' (Int (Z.of_nat 0)) = Some new
    ∧ Store.fields_at h' new
      = <[Joint.left_arm := a]> (Store.fields_at Store.initial Store.defaultFrame_ref)
    ∧ Store.angles_at h' a
      = <[Axis.z := num 45]>
          (Store.spread_angles Store.initial
             (Store.fields_at Store.initial Store.defaultFrame_ref !! Joint.left_arm))
    ∧ ∀ m : nat, m ≠ 0%nat →
        Store.get h' fr' (Int (Z.of_nat m))
        = Store.get Store.initial Store.initial_frames (Int (Z.of_nat m)).
Proof.
  destruct store_initial as (Hc & _ & _ & _ & _ & Hsrc).
  apply (update_shares_untouched_objects part_001b Store.defaultFrame_ref Joint.left_arm
           Axis.z (num 45) Store.initial_frames Store.initial 0
           Store.defaultFrame_ref); done.
Defined.

(** ** Handlers in sequence *)

(** X20. [k] clicks on "Add Keyframe" in a row append [k] copies of the
    keyframe that was active before the first click: each click copies the
    keyframe the click before it appended and selected.  The positions the
    sequence had before read as before, and the last copy is active. *)
Theorem addKeyFrames_appends_copies (r : revision) (s : State) (k : nat) (f : KeyFrame) :
  get (frames s) (currentFrame s) = Some f →
  let n := length_of (frames s) in
  let s' := addKeyFrames r k s in
  length_of (frames s') = (n + k)%nat
  ∧ (∀ m : nat, (m < n)%nat →
       get (frames s') (Int (Z.of_nat m)) = get (frames s) (Int (Z.of_nat m)))
  ∧ (∀ m : nat, (n ≤ m < n + k)%nat → get (frames s') (Int (Z.of_nat m)) = Some f)
  ∧ get (frames s') (currentFrame s') = Some f
  ∧ ((0 < k)%nat → currentFrame s' = Int (Z.of_nat (n + k - 1))).
Proof.
  intros Hf n. induction k as [|k IH]; simpl.
  - split; [unfold n; lia|]. split; [done|]. split; [intros m ?; lia|].
    split; [done|lia].
  - destruct IH as (Hlen & Hold & Hnew & Hact & _).
    unfold addKeyFrames in *. simpl.
    set (sk := Nat.iter k (addKeyFrame r) s) in *.
    rewrite (addKeyFrame_in_range r sk f Hact). simpl.
    assert (Hit : length (iterate (frames sk)) = (n + k)%nat)
      by by rewrite length_iterate.
    assert (Hkeep : ∀ m : nat, (m < n + k)%nat →
              get (mkArray (iterate (frames sk) ++ [Obj f]) ∅) (Int (Z.of_nat m))
              = get (frames sk) (Int (Z.of_nat m))).
    { intros m Hm. rewrite get_append_old by lia. apply get_iterate. }
    split; [unfold length_of; simpl; rewrite length_app, Hit; simpl; lia|].
    split; [intros m Hm; rewrite Hkeep by lia; by apply Hold|].
    split.
    { intros m Hm. destruct (decide (m < n + k)%nat) as [Hlt|Hge].
      - rewrite Hkeep by done. apply Hnew. lia.
      - replace m with (length (iterate (frames sk))) by lia. apply get_append_new. }
    split.
    + rewrite Hlen, <- Hit. apply get_append_new.
    + intros _. rewrite Hlen. do 2 f_equal. lia.
Qed.

Lemma addKeyFrames_appends_copies_witness :
  let s := initial_state in
  let n := length_of (frames s) in
  let s' := addKeyFrames part_000 3 s in
  length_of (frames s') = (n + 3)%nat
  ∧ (∀ m : nat, (m < n)%nat →
       get (frames s') (Int (Z.of_nat m)) = get (frames s) (Int (Z.of_nat m)))
  ∧ (∀ m : nat, (n ≤ m < n + 3)%nat →
       get (frames s') (Int (Z.of_nat m)) = Some defaultFrame)
  ∧ get (frames s') (currentFrame s') = Some defaultFrame
  ∧ ((0 < 3)%nat → currentFrame s' = Int (Z.of_nat (n + 3 - 1))).
Proof.
  apply (addKeyFrames_appends_copies part_000 initial_state 3 defaultFrame).
  reflexivity.
Defined.

Lemma updated_back (f : KeyFrame) (part : Joint.t) (axis : Axis.t) (v0 value : number) :
  angle f part axis = Some v0 →
  updated (updated f part axis value) part axis v0 = f.
Proof.
  unfold angle, updated. destruct (f !! part) as [a|] eqn:E; [|done]. simpl.
  intros Ha. rewrite lookup_insert_eq. simpl.
  rewrite !insert_insert_eq. rewrite (insert_id a) by done. by apply insert_id.
Qed.

(** X21. An edit is undone by writing the old value back.  In every
    revision, when [frames] is a sequence of keyframe objects and the angle
    [(part, axis)] of the active keyframe reads [v0], the update to [value]
    followed by the update to [v0] returns the very state it started from. *)
Theorem update_then_write_back (r : revision) (s : State) (l : list KeyFrame) (n : nat)
    (f : KeyFrame) (part : Joint.t) (axis : Axis.t) (v0 value : number) :
  frames s = array_of l →
  currentFrame s = Int (Z.of_nat n) →
  l !! n = Some f →
  angle f part axis = Some v0 →
  ∃ s', updateCurrentFrame r part axis value s = Returns s'
    ∧ read s' n part axis = Some value
    ∧ updateCurrentFrame r part axis v0 s' = Returns s.
Proof.
  intros Hfs Hcur Hl Ha.
  assert (Hstep : ∀ (t : State) (l' : list KeyFrame) (g : KeyFrame) v,
            frames t = array_of l' → currentFrame t = Int (Z.of_nat n) →
            l' !! n = Some g →
            updateCurrentFrame r part axis v t
            = Returns (setFrames (array_of (<[n := updated g part axis v]> l')) t)).
  { intros t l' g v Ht Hc Hg.
    rewrite (updateCurrentFrame_in_range r t n g) by (by rewrite ?Ht, ?get_array_of).
    rewrite Ht, iterate_array_of. unfold array_of. by rewrite list_fmap_insert. }
  eexists. split; [by apply (Hstep s l f)|]. split.
  - unfold read. simpl. rewrite get_array_of.
    rewrite list_lookup_insert_eq by (by eapply lookup_lt_Some). simpl.
    apply angle_insert.
  - rewrite (Hstep _ (<[n := updated f part axis value]> l) (updated f part axis value));
      [|done|done|by rewrite list_lookup_insert_eq by (by eapply lookup_lt_Some)].
    rewrite list_insert_insert_eq, updated_back by done.
    rewrite list_insert_id by done.
    destruct s; simpl in *. by subst.
Qed.

Lemma update_then_write_back_witness :
  ∃ s', updateCurrentFrame animate_tsx Joint.head Axis.y (num 90) initial_state
        = Returns s'
    ∧ read s' 0 Joint.head Axis.y = Some (num 90)
    ∧ updateCurrentFrame animate_tsx Joint.head Axis.y (num 0) s' = Returns initial_state.
Proof.
  apply (update_then_write_back animate_tsx initial_state [defaultFrame] 0 defaultFrame
           Joint.head Axis.y (num 0) (num 90)); reflexivity.
Defined.

(** X22. In both files of [part_001], an update while the active index is
    no array index (a negative integer or [NaN]) does not throw: the copy
    [[...frames]] carries no such property, so the guard stores a copy of
    [defaultFrame] under the index and the edit is made on it.  The elements
    are those of the copy, the edited default pose is the only property of
    the new array, whatever an earlier edit had stored under the index, and
    it is what the page then shows. *)
Theorem guarded_update_off_array_index (r : revision) (s : State) (part : Joint.t)
    (axis : Axis.t) (value : number) :
  guarded r → off_array (currentFrame s) →
  ∃ s', updateCurrentFrame r part axis value s = Returns s'
    ∧ elems (frames s') = iterate (frames s)
    ∧ props (frames s') = {[ currentFrame s := updated defaultFrame part axis value ]}
    ∧ currentFrame s' = currentFrame s
    ∧ render r s' = Returns (updated defaultFrame part axis value).
Proof.
  intros Hr Hoff.
  assert (Hupd : updateCurrentFrame r part axis value s
                 = Returns (setFrames (mkArray (iterate (frames s))
                     {[ currentFrame s := updated defaultFrame part axis value ]}) s)).
  { assert (updateCurrentFrame r = Part001a.updateCurrentFrame) as ->
      by by destruct Hr as [-> | ->].
    unfold Part001a.updateCurrentFrame, get, set, updated.
    destruct (currentFrame s) as [z|] eqn:E; simpl in *.
    - destruct (decide (0 ≤ z)) as [?|_]; [lia|]. simpl.
      rewrite lookup_empty. simpl. rewrite lookup_insert_eq. simpl.
      by rewrite insert_insert_eq.
    - rewrite lookup_empty. simpl. rewrite lookup_insert_eq. simpl.
      by rewrite insert_insert_eq. }
  eexists. split; [exact Hupd|]. simpl. do 3 (split; [done|]).
  assert (render r = Part001a.render) as -> by by destruct Hr as [-> | ->].
  unfold Part001a.render, Part001a.currentFrameData, get. simpl.
  destruct (currentFrame s) as [z|]; simpl in *.
  - destruct (decide (0 ≤ z)) as [?|_]; [lia|]. by rewrite lookup_singleton_eq.
  - by rewrite lookup_singleton_eq.
Qed.

Lemma guarded_update_off_array_index_witness :
  ∃ s', updateCurrentFrame part_001a Joint.head Axis.x (num 15)
          (setCurrentFrame NotANumber initial_state) = Returns s'
    ∧ elems (frames s') = iterate (frames (setCurrentFrame NotANumber initial_state))
    ∧ props (frames s')
      = {[ currentFrame (setCurrentFrame NotANumber initial_state)
           := updated defaultFrame Joint.head Axis.x (num 15) ]}
    ∧ currentFrame s' = currentFrame (setCurrentFrame NotANumber initial_state)
    ∧ render part_001a s' = Returns (updated defaultFrame Joint.head Axis.x (num 15)).
Proof.
  apply (guarded_update_off_array_index part_001a
           (setCurrentFrame NotANumber initial_state) Joint.head Axis.x (num 15)).
  - by left.
  - exact I.
Defined.
